(** * Weather Lite: location resolution and weather cache

    A shallow embedding of [src/lib/location.ts] (the location fallback
    chain and its single-slot cache) and of [lib/cache.ts] (the bounded
    LRU + TTL weather cache), with the properties of the specification's
    sections 4, 7 and 8 stated and proved over the embedding.  Further
    parts cover [fetchWeatherData] of [src/lib/weather.ts], the
    permission check, and the route handlers [GET /api/weather] and
    [POST /api/clear-cache], which tie the cache to the weather service.

    Conventions.
    - A JavaScript [number] is an IEEE 754 binary64 value, modelled by
      the standard library's [spec_float] (sign, mantissa, exponent).
    - Millisecond clock readings ([Date.now()]) and durations are
      integers, modelled in [Z].
    - A JavaScript [Map] is an association list in insertion order.
    - Objects that are shared by reference live in an explicit store.
    - Asynchronous code is a tree of requests to the environment; a
      promise that settles is a value of [settled] (resolved or
      rejected). *)

From Stdlib Require Import ZArith List String Ascii Bool Lia.
From Stdlib Require Import Floats.SpecFloat DecimalString.
Import ListNotations.

Local Open Scope Z_scope.

(* ===================================================================== *)
(** * JavaScript numbers and [Number.prototype.toFixed]                   *)
(* ===================================================================== *)

Module JSNumber.

(** binary64: 53 bits of precision, exponents below 1024. *)
Definition prec : Z := 53.
Definition emax : Z := 1024.

Definition number : Type := spec_float.

Definition number_eqb (x y : number) : bool :=
  match x, y with
  | S754_zero a, S754_zero b => Bool.eqb a b
  | S754_infinity a, S754_infinity b => Bool.eqb a b
  | S754_nan, S754_nan => true
  | S754_finite s m e, S754_finite s' m' e' =>
      Bool.eqb s s' && Pos.eqb m m' && Z.eqb e e'
  | _, _ => false
  end.

(** The binary64 value nearest to the integer [z] (ties to even). *)
Definition ofZ (z : Z) : number := binary_normalize prec emax z 0 false.

(** The value of a decimal literal: sign, digits and the number of
    digits after the point.  [decimal false 377749 4] is the literal
    [37.7749].  Both operands of the division are exact for the literals
    of this development (fewer than 16 digits), so the quotient is the
    correctly rounded binary64 value the literal denotes. *)
Definition decimal (neg : bool) (digits : positive) (scale : nat) : number :=
  SFdiv prec emax (ofZ (cond_Zopp neg (Zpos digits)))
                  (ofZ (10 ^ Z.of_nat scale)).

(** A finite magnitude [m * 2^e] as an exact fraction. *)
Definition mag_num (m : positive) (e : Z) : Z :=
  if 0 <=? e then Zpos m * 2 ^ e else Zpos m.
Definition mag_den (e : Z) : Z :=
  if 0 <=? e then 1 else 2 ^ (- e).

Definition digits_of (n : Z) : string :=
  NilZero.string_of_uint (N.to_uint (Z.to_N n)).

Fixpoint zeros (k : nat) : string :=
  match k with
  | O => EmptyString
  | S k' => String "0"%char (zeros k')
  end.

(** [toFixed], steps for a magnitude below 10^21: [n] is the integer for
    which [n / 10^f - x] is closest to zero, the larger one on a tie. *)
Definition fixed_int (f : nat) (m : positive) (e : Z) : Z :=
  (2 * mag_num m e * 10 ^ Z.of_nat f + mag_den e) / (2 * mag_den e).

Definition fixed_digits (f : nat) (n : Z) : string :=
  let m := digits_of n in
  let m := if (String.length m <=? f)%nat
           then (zeros (f + 1 - String.length m) ++ m)%string else m in
  let k := String.length m in
  if (f =? 0)%nat then m
  else (substring 0 (k - f) m ++ "." ++ substring (k - f) f m)%string.

(** [Number::toString] for an integral magnitude [X >= 10^21]: the
    shortest digit string [s] (of [k] digits) with [s * 10^(n-k)] rounding
    to the same binary64 value, printed in exponent notation. *)
Definition shortest_candidates (X : Z) (k n : nat) : list (Z * nat) :=
  let p := 10 ^ Z.of_nat (n - k) in
  let ok s := (10 ^ Z.of_nat (k - 1) <=? s) && (s <? 10 ^ Z.of_nat k)
              && number_eqb (ofZ (s * p)) (ofZ X) in
  map (fun s => (s, n)) (filter ok [X / p; X / p + 1]).

(** Of two candidates for the same [k], the one nearer to [X]. *)
Definition nearer (X : Z) (k : nat) (a b : Z * nat) : Z * nat :=
  let dist (c : Z * nat) := Z.abs (fst c * 10 ^ Z.of_nat (snd c - k) - X) in
  if dist b <? dist a then b else a.

Fixpoint shortest (fuel k : nat) (X : Z) (d : nat) : Z * nat * nat :=
  match fuel with
  | O => (X, d, d)
  | S fuel' =>
      match shortest_candidates X k d ++ shortest_candidates X k (d + 1) with
      | [] => shortest fuel' (S k) X d
      | c :: cs =>
          let best := fold_left (nearer X k) cs c in
          (fst best, k, snd best)
      end
  end.

Definition toString_large (X : Z) : string :=
  let d := String.length (digits_of X) in
  let '(s, k, n) := shortest 17 1 X d in
  let ds := digits_of s in
  let mant := if (k =? 1)%nat then ds
              else (substring 0 1 ds ++ "." ++ substring 1 (k - 1) ds)%string in
  (mant ++ "e+" ++ digits_of (Z.of_nat (n - 1)))%string.

(** [Number.prototype.toFixed(f)] for [0 <= f <= 100]. *)
Definition toFixed (f : nat) (x : number) : string :=
  match x with
  | S754_nan => "NaN"
  | S754_infinity s => if s then "-Infinity" else "Infinity"
  | S754_zero _ => fixed_digits f 0
  | S754_finite s m e =>
      let sign := if s then "-"%string else EmptyString in
      if 10 ^ 21 * mag_den e <=? mag_num m e
      then (sign ++ toString_large (mag_num m e / mag_den e))%string
      else (sign ++ fixed_digits f (fixed_int f m e))%string
  end.

End JSNumber.

(* ===================================================================== *)
(** * JavaScript [Map]: string keys in insertion order                    *)
(* ===================================================================== *)

Module JSMap.

(** The entries, oldest first.  A [Map] holds a key once; every
    operation below keeps it so. *)
Definition t (V : Type) : Type := list (string * V).

Section Operations.
Context {V : Type}.

Definition empty : t V := [].

Definition keys (m : t V) : list string := map fst m.

Definition size (m : t V) : Z := Z.of_nat (List.length m).

Fixpoint get (k : string) (m : t V) : option V :=
  match m with
  | [] => None
  | (k', v) :: m' => if String.eqb k k' then Some v else get k m'
  end.

Definition has (k : string) (m : t V) : bool :=
  match get k m with Some _ => true | None => false end.

(** [Map.prototype.delete]: the remaining entries keep their order. *)
Fixpoint delete (k : string) (m : t V) : t V :=
  match m with
  | [] => []
  | (k', v) :: m' =>
      if String.eqb k k' then delete k m' else (k', v) :: delete k m'
  end.

(** [Map.prototype.set]: an existing key keeps its position and takes
    the new value; a new key is appended. *)
Fixpoint set (k : string) (v : V) (m : t V) : t V :=
  match m with
  | [] => [(k, v)]
  | (k', v') :: m' =>
      if String.eqb k k' then (k, v) :: m' else (k', v') :: set k v m'
  end.

(** [m.keys().next().value]: the oldest key, [None] for [undefined]. *)
Definition first_key (m : t V) : option string :=
  match m with
  | [] => None
  | (k, _) :: _ => Some k
  end.

End Operations.

(** The test that selects the keys other than [k]. *)
Definition other_than (k : string) : string -> bool :=
  fun x => negb (String.eqb k x).

End JSMap.

(* ===================================================================== *)
(** * Weather payloads and the object store                               *)
(* ===================================================================== *)

Module Weather.

(** [WeatherData.source]. *)
Inductive Source : Type := src_cache | src_api.

(** Identity of an object. *)
Definition ref : Type := nat.

(** [WeatherData]: the nested objects ([current], [forecast],
    [location]) are held by reference; the cache never reads them. *)
Record WeatherData : Type := {
  current : ref;
  forecast : ref;
  location : ref;
  timestamp : Z;
  source : Source
}.

(** The store of [WeatherData] objects: contents by reference, and the
    next reference an object literal will receive. *)
Record Heap : Type := {
  objs : ref -> WeatherData;
  next : ref
}.

Definition deref (h : Heap) (r : ref) : WeatherData := objs h r.

Definition allocated (h : Heap) (r : ref) : Prop := (r < next h)%nat.

Definition alloc (h : Heap) (d : WeatherData) : ref * Heap :=
  (next h,
   {| objs := fun r => if Nat.eqb r (next h) then d else objs h r;
      next := S (next h) |}).

(** [{ ...d, source: s }] *)
Definition with_source (d : WeatherData) (s : Source) : WeatherData :=
  {| current := current d;
     forecast := forecast d;
     location := location d;
     timestamp := timestamp d;
     source := s |}.

End Weather.

(* ===================================================================== *)
(** * Configuration ([lib/env.ts], the fields the core reads)             *)
(* ===================================================================== *)

Module Env.

Record Config : Type := {
  defaultCity : string;
  defaultLat : JSNumber.number;
  defaultLon : JSNumber.number;
  cache_ttl : Z;
  cache_enabled : bool
}.

(** [DEFAULT_CONFIG] of [lib/constants.ts]: what [config] holds when no
    environment variable is set. *)
Definition DEFAULT_CONFIG : Config :=
  {| defaultCity := "San Francisco, California";
     defaultLat := JSNumber.decimal false 377749 4;
     defaultLon := JSNumber.decimal true 1224194 4;
     cache_ttl := 600000;
     cache_enabled := true |}.

End Env.

(* ===================================================================== *)
(** * [WeatherCache] ([lib/cache.ts])                                     *)
(* ===================================================================== *)

Module Cache.

Import Weather Env.

Record CacheEntry : Type := {
  data : ref;
  timestamp : Z;
  expiresAt : Z
}.

(** The fields of a [WeatherCache].  The capacity and the TTL are
    integers here; the constructor accepts any number, zero and negative
    ones included. *)
Record WeatherCache : Type := {
  cache : JSMap.t CacheEntry;
  maxEntries : Z;
  ttl : Z
}.

(** The argument of [get], [set] and [has]. *)
Record Coordinates : Type := {
  latitude : JSNumber.number;
  longitude : JSNumber.number
}.

(** [constructor(maxEntries = 10, ttl?)]; [ttl || config.cache.ttl]
    takes the configured value also for a zero [ttl]. *)
Definition new (config : Config) (maxEntries : option Z) (ttl : option Z)
  : WeatherCache :=
  {| cache := JSMap.empty;
     maxEntries := match maxEntries with Some n => n | None => 10 end;
     ttl := match ttl with
            | Some t => if t =? 0 then cache_ttl config else t
            | None => cache_ttl config
            end |}.

Definition with_cache (c : WeatherCache) (m : JSMap.t CacheEntry)
  : WeatherCache :=
  {| cache := m; maxEntries := maxEntries c; ttl := ttl c |}.

Definition clear (c : WeatherCache) : WeatherCache :=
  with_cache c JSMap.empty.

Definition size (c : WeatherCache) : Z := JSMap.size (cache c).

Definition isEnabled (config : Config) : bool := cache_enabled config.

Definition getCacheKey (latitude longitude : JSNumber.number) : string :=
  let lat := JSNumber.toFixed 4 latitude in
  let lon := JSNumber.toFixed 4 longitude in
  (lat ++ "," ++ lon)%string.

(** [get(location)]; [now] is what [Date.now()] returns in this call.
    A hit allocates the object literal [{...entry.data, source: 'cache'}]
    and returns its reference; [None] is [null]. *)
Definition get (config : Config) (now : Z) (loc : Coordinates)
    (h : Heap) (c : WeatherCache) : option ref * Heap * WeatherCache :=
  if negb (isEnabled config) then (None, h, c)
  else
    let key := getCacheKey (latitude loc) (longitude loc) in
    match JSMap.get key (cache c) with
    | None => (None, h, c)
    | Some entry =>
        if now >? expiresAt entry
        then (None, h, with_cache c (JSMap.delete key (cache c)))
        else
          let m := JSMap.set key entry (JSMap.delete key (cache c)) in
          let (r, h') := alloc h (with_source (deref h (data entry)) src_cache) in
          (Some r, h', with_cache c m)
    end.

(** [set(location, data)]; the caller's object is stored by reference. *)
Definition set (config : Config) (now : Z) (loc : Coordinates) (d : ref)
    (c : WeatherCache) : WeatherCache :=
  if negb (isEnabled config) then c
  else
    let key := getCacheKey (latitude loc) (longitude loc) in
    let entry := {| data := d; timestamp := now; expiresAt := now + ttl c |} in
    let m1 :=
      if (JSMap.size (cache c) >=? maxEntries c) && negb (JSMap.has key (cache c))
      then match JSMap.first_key (cache c) with
           | Some firstKey =>
               if negb (String.eqb firstKey EmptyString)
               then JSMap.delete firstKey (cache c)
               else cache c
           | None => cache c
           end
      else cache c in
    let m2 := if JSMap.has key m1 then JSMap.delete key m1 else m1 in
    with_cache c (JSMap.set key entry m2).

(** [has(location)] *)
Definition has (now : Z) (loc : Coordinates) (c : WeatherCache)
  : bool * WeatherCache :=
  let key := getCacheKey (latitude loc) (longitude loc) in
  match JSMap.get key (cache c) with
  | None => (false, c)
  | Some entry =>
      if now >? expiresAt entry
      then (false, with_cache c (JSMap.delete key (cache c)))
      else (true, c)
  end.

Record Stats : Type := {
  stats_size : Z;
  stats_maxEntries : Z;
  stats_ttl : Z;
  stats_enabled : bool
}.

Definition getStats (config : Config) (c : WeatherCache) : Stats :=
  {| stats_size := size c;
     stats_maxEntries := maxEntries c;
     stats_ttl := ttl c;
     stats_enabled := isEnabled config |}.

(** ** Histories of calls *)

Inductive op : Type :=
| OpGet (now : Z) (loc : Coordinates)
| OpSet (now : Z) (loc : Coordinates) (d : ref)
| OpHas (now : Z) (loc : Coordinates)
| OpClear.

Definition step (config : Config) (o : op) (st : Heap * WeatherCache)
  : Heap * WeatherCache :=
  let (h, c) := st in
  match o with
  | OpGet now loc => let '(_, h', c') := get config now loc h c in (h', c')
  | OpSet now loc d => (h, set config now loc d c)
  | OpHas now loc => (h, snd (has now loc c))
  | OpClear => (h, clear c)
  end.

Definition run (config : Config) (ops : list op) (st : Heap * WeatherCache)
  : Heap * WeatherCache :=
  fold_left (fun st o => step config o st) ops st.

(** The key an operation marks most recently used, if any: the key of a
    [set] that stores, and the key of a [get] that hits. *)
Definition touched (config : Config) (o : op) (st : Heap * WeatherCache)
  : option string :=
  let (h, c) := st in
  match o with
  | OpGet now loc =>
      match get config now loc h c with
      | (Some _, _, _) => Some (getCacheKey (latitude loc) (longitude loc))
      | _ => None
      end
  | OpSet now loc d =>
      if isEnabled config
      then Some (getCacheKey (latitude loc) (longitude loc)) else None
  | OpHas _ _ => None
  | OpClear => None
  end.

(** [last_touch config ops st k]: the position in the history [ops]
    (counted from [i]) of the last operation that touched [k]. *)
Fixpoint last_touch (config : Config) (ops : list op)
    (st : Heap * WeatherCache) (i : nat) (k : string) : option nat :=
  match ops with
  | [] => None
  | o :: ops' =>
      match last_touch config ops' (step config o st) (S i) k with
      | Some j => Some j
      | None =>
          match touched config o st with
          | Some k' => if String.eqb k k' then Some i else None
          | None => None
          end
      end
  end.

End Cache.

(* ===================================================================== *)
(** * Invariants of the weather cache                                     *)
(* ===================================================================== *)

Module CacheInv.
Import Weather Env Cache.

(** The key of a location, and the keys of a cache, oldest first. *)
Definition key_of (loc : Coordinates) : string :=
  getCacheKey (latitude loc) (longitude loc).

Definition keys_of (c : WeatherCache) : list string := JSMap.keys (cache c).

(** What every reachable cache satisfies: no key twice, no empty key,
    and no more entries than the capacity. *)
Definition well_formed (c : WeatherCache) : Prop :=
  NoDup (keys_of c)
  /\ Forall (fun k => k <> EmptyString) (keys_of c)
  /\ size c <= maxEntries c.

(** [rank k]: 0 for a key never touched, else one more than the position
    of its last touch in the history. *)
Definition rank (config : Config) (ops : list op) (st : Heap * WeatherCache)
    (k : string) : nat :=
  match last_touch config ops st 0 k with
  | Some j => S j
  | None => 0
  end.

(** The keys are in the order of their last touch. *)
Fixpoint ordered_by (r : string -> nat) (ks : list string) : Prop :=
  match ks with
  | [] => True
  | k :: ks' => Forall (fun k' => (r k < r k')%nat) ks' /\ ordered_by r ks'
  end.

End CacheInv.

(* ===================================================================== *)
(** * Asynchronous code: requests to the environment                      *)
(* ===================================================================== *)

Module Async.

(** [console.log] and [console.warn]. *)
Inductive level : Type := log | warn.

(** A value for which [instanceof Error] holds. *)
Record JsError : Type := {
  name : string;
  message : string
}.

(** A settled promise.  [E] is the type of thrown values. *)
Inductive settled (E A : Type) : Type :=
| Resolved (a : A)
| Rejected (e : E).
Arguments Resolved {E A} a.
Arguments Rejected {E A} e.

Section IO.
(** [R X]: a request whose answer has type [X]. *)
Context {R : Type -> Type}.

(** A computation: it returns, writes to the console and goes on, or
    puts a request to the environment and goes on with the answer. *)
Inductive io (A : Type) : Type :=
| Ret (a : A)
| Console (l : level) (msg : string) (k : io A)
| Vis {X : Type} (r : R X) (k : X -> io A).
Arguments Ret {A} a.
Arguments Console {A} l msg k.
Arguments Vis {A X} r k.

Fixpoint bind {A B : Type} (p : io A) (f : A -> io B) : io B :=
  match p with
  | Ret a => f a
  | Console l msg k => Console l msg (bind k f)
  | Vis r k => Vis r (fun x => bind (k x) f)
  end.

Definition perform {X : Type} (r : R X) : io X := Vis r Ret.

Definition console {A : Type} (l : level) (msg : string) (k : io A) : io A :=
  Console l msg k.

Section Promise.
Context {E : Type}.

Definition resolve {A : Type} (a : A) : io (settled E A) := Ret (Resolved a).

Definition throw {A : Type} (e : E) : io (settled E A) := Ret (Rejected e).

(** [await p] followed by [k]: a rejection leaves the enclosing block. *)
Definition await {A B : Type} (p : io (settled E A))
    (k : A -> io (settled E B)) : io (settled E B) :=
  bind p (fun r =>
    match r with
    | Resolved a => k a
    | Rejected e => Ret (Rejected e)
    end).

(** [try { p } catch (e) { h e }] *)
Definition try_catch {A : Type} (p : io (settled E A))
    (h : E -> io (settled E A)) : io (settled E A) :=
  bind p (fun r =>
    match r with
    | Resolved a => Ret (Resolved a)
    | Rejected e => h e
    end).
End Promise.

(** What a run shows to an observer, in order. *)
Inductive observed : Type :=
| Logged (l : level) (msg : string)
| Requested {X : Type} (r : R X).

Section Run.
(** The environment: a state and its answer to each request.  Every
    request is answered: a provider that never answers is outside the
    model (the source bounds the position request and the IP request by
    a timeout; the reverse-geocoding request has none). *)
Context {W : Type} (handle : forall X : Type, R X -> W -> X * W).

Fixpoint run {A : Type} (p : io A) (w : W) : A * W * list observed :=
  match p with
  | Ret a => (a, w, [])
  | Console l msg k =>
      let '(a, w', tr) := run k w in (a, w', Logged l msg :: tr)
  | Vis r k =>
      let (x, w1) := handle _ r w in
      let '(a, w', tr) := run (k x) w1 in (a, w', Requested r :: tr)
  end.
End Run.

End IO.

Arguments io R A : clear implicits.
Arguments observed R : clear implicits.
Arguments Ret {R A} a.
Arguments Console {R A} l msg k.
Arguments Vis {R A X} r k.

Declare Scope io_scope.
Delimit Scope io_scope with io.
Notation "x <- p ;; k" := (bind p (fun x => k))
  (at level 61, p at next level, right associativity) : io_scope.
Notation "x <~ p ;; k" := (await p (fun x => k))
  (at level 61, p at next level, right associativity) : io_scope.

End Async.

(* ===================================================================== *)
(** * Location detection ([src/lib/location.ts])                          *)
(* ===================================================================== *)

Module Location.

Import JSNumber Env Async.
Local Open Scope io_scope.
Local Open Scope string_scope.

(** ** Data *)

Inductive Source : Type := gps | ip | manual | default.

Record Location : Type := {
  latitude : number;
  longitude : number;
  city : option string;
  country : option string;
  source : Source
}.

Inductive LocationErrorType : Type :=
| PERMISSION_DENIED
| POSITION_UNAVAILABLE
| TIMEOUT
| NOT_SUPPORTED
| NETWORK_ERROR
| UNKNOWN_ERROR.

(** The browser's [GeolocationPositionError]; its codes are
    [PERMISSION_DENIED = 1], [POSITION_UNAVAILABLE = 2], [TIMEOUT = 3]. *)
Record GeolocationPositionError : Type := {
  code : Z;
  geo_message : string
}.

Inductive OriginalError : Type :=
| OfError (e : JsError)
| OfGeolocation (e : GeolocationPositionError).

Record LocationError : Type := {
  type : LocationErrorType;
  error_message : string;
  originalError : option OriginalError
}.

(** Whatever a [throw] or a rejection can carry here. *)
Inductive thrown : Type :=
| ThrownError (e : JsError)
| ThrownLocationError (e : LocationError)
| ThrownValue.

Definition promise (R : Type -> Type) (A : Type) : Type :=
  io R (settled thrown A).

Record LocationOptions : Type := {
  enableHighAccuracy : option bool;
  timeout : option Z;
  maximumAge : option Z;
  forceRefresh : option bool
}.

Record PositionOptions : Type := {
  pos_enableHighAccuracy : bool;
  pos_timeout : Z;
  pos_maximumAge : Z
}.

Record IPLocationResponse : Type := {
  ip_status : string;
  ip_lat : option number;
  ip_lon : option number;
  ip_city : option string;
  ip_country : option string;
  ip_message : option string
}.

Record LocationCacheEntry : Type := {
  location : Location;
  timestamp : Z;
  ttl : Z
}.

Definition GPS_TIMEOUT : Z := 5000.
Definition IP_TIMEOUT : Z := 3000.
Definition CACHE_TTL : Z := 300000.
Definition HIGH_ACCURACY : bool := true.
Definition MAX_AGE : Z := 300000.

(** ** The environment's interface *)

(** The [address] object of a reverse-geocoding answer. *)
Record Address : Type := {
  addr_city : option string;
  addr_town : option string;
  addr_village : option string;
  addr_hamlet : option string;
  addr_municipality : option string;
  addr_country : option string
}.

(** A reverse-geocoding answer that is an object; [None] is an absent
    (or falsy) [address]. *)
Record NominatimData : Type := {
  address : option Address
}.

(** A [fetch] response; [json] is how [response.json()] settles, and a
    parsed body [None] is the JSON value [null]. *)
Record Response (P : Type) : Type := {
  ok : bool;
  status : Z;
  json : settled thrown (option P)
}.
Arguments ok {P} r.
Arguments status {P} r.
Arguments json {P} r.

(** The state of the global [navigator]. *)
Inductive navigator_state : Type :=
| navigator_undeclared
| geolocation_missing
| geolocation_present.

(** What [position.coords] gives. *)
Record Coords : Type := {
  coords_latitude : number;
  coords_longitude : number
}.

Inductive request : Type -> Type :=
| DateNow : request Z
| Navigator : request navigator_state
| GetCurrentPosition (o : PositionOptions)
    : request (GeolocationPositionError + Coords)
| FetchReverse (lat lon : number)
    : request (settled thrown (Response NominatimData))
| FetchIP : request (settled thrown (Response IPLocationResponse)).


(** ** Helpers of the JavaScript semantics *)

(** Truthiness of an optional string. *)
Definition truthy (s : option string) : bool :=
  match s with
  | Some s => negb (String.eqb s EmptyString)
  | None => false
  end.

(** [a || b] *)
Definition or_else (a b : option string) : option string :=
  if truthy a then a else b.

(** [msg.includes(part)] *)
Definition includes (msg part : string) : bool :=
  match index 0 part msg with Some _ => true | None => false end.

(** The [TypeError] of reading a property of [null]. *)
Definition null_property_error (property : string) : JsError :=
  {| name := "TypeError";
     message := "Cannot read properties of null (reading '" ++ property ++ "')" |}.

(** The [ReferenceError] of reading an undeclared global. *)
Definition undeclared_error (global : string) : JsError :=
  {| name := "ReferenceError"; message := global ++ " is not defined" |}.

(** [new Error(message)] *)
Definition Error (message : string) : JsError :=
  {| name := "Error"; message := message |}.

(** ** The functions *)

Definition convertGeolocationError (error : GeolocationPositionError)
  : LocationError :=
  let '(type, message) :=
    if (code error =? 1)%Z then (PERMISSION_DENIED, "User denied location permission")
    else if (code error =? 2)%Z then (POSITION_UNAVAILABLE, "Location information is unavailable")
    else if (code error =? 3)%Z then (TIMEOUT, "Location request timed out")
    else (UNKNOWN_ERROR, "An unknown error occurred") in
  {| type := type;
     error_message := message;
     originalError := Some (OfGeolocation error) |}.

(** The result of [reverseGeocode]. *)
Record Names : Type := {
  names_city : option string;
  names_country : option string
}.

(** The result [{}]. *)
Definition no_names : Names :=
  {| names_city := None; names_country := None |}.

Definition reverseGeocode (latitude longitude : number)
  : promise request Names :=
  try_catch
    (response <~ perform (FetchReverse latitude longitude) ;;
     if negb (ok response) then
       console warn "Reverse geocoding failed:" (resolve no_names)
     else
       data <~ Ret (json response) ;;
       match data with
       | None => throw (ThrownError (null_property_error "address"))
       | Some data =>
           match address data with
           | None => resolve no_names
           | Some address =>
               let city :=
                 or_else (addr_city address)
                   (or_else (addr_town address)
                      (or_else (addr_village address)
                         (or_else (addr_hamlet address)
                            (addr_municipality address)))) in
               let country := addr_country address in
               resolve {| names_city := city; names_country := country |}
           end
       end)
    (fun error =>
       console warn "Reverse geocoding error:" (resolve no_names)).

(** [if (city) location.city = city; if (country) location.country = country] *)
Definition assign_names (names : Names) (location : Location) : Location :=
  {| latitude := latitude location;
     longitude := longitude location;
     city := if truthy (names_city names) then names_city names
             else city location;
     country := if truthy (names_country names) then names_country names
                else country location;
     source := source location |}.

Definition option_or {A : Type} (o : option A) (d : A) : A :=
  match o with Some a => a | None => d end.

(** [getBrowserLocation(options)].  The promise's executor reads
    [navigator?.geolocation] and calls [getCurrentPosition]; the answer to
    that request says which of the two callbacks the browser invokes. *)
Definition getBrowserLocation (options : option LocationOptions)
  : promise request Location :=
  nav <- perform Navigator ;;
  match nav with
  | navigator_undeclared => throw (ThrownError (undeclared_error "navigator"))
  | geolocation_missing =>
      throw (ThrownLocationError
               {| type := NOT_SUPPORTED;
                  error_message := "Geolocation is not supported by this browser";
                  originalError := None |})
  | geolocation_present =>
      let geolocationOptions :=
        {| pos_enableHighAccuracy :=
             option_or (match options with Some o => enableHighAccuracy o | None => None end)
                       HIGH_ACCURACY;
           pos_timeout :=
             option_or (match options with Some o => timeout o | None => None end)
                       GPS_TIMEOUT;
           pos_maximumAge :=
             option_or (match options with Some o => maximumAge o | None => None end)
                       MAX_AGE |} in
      outcome <- perform (GetCurrentPosition geolocationOptions) ;;
      match outcome with
      | inr position =>
          let location :=
            {| latitude := coords_latitude position;
               longitude := coords_longitude position;
               city := None; country := None;
               source := gps |} in
          try_catch
            (names <~ reverseGeocode (latitude location) (longitude location) ;;
             resolve (assign_names names location))
            (fun error =>
               console warn "Failed to get location names:" (resolve location))
      | inl error =>
          throw (ThrownLocationError (convertGeolocationError error))
      end
  end.

(** The [catch] block of [getIPLocation]. *)
Definition ipLocationError (error : thrown) : LocationError :=
  match error with
  | ThrownError e =>
      if String.eqb (name e) "AbortError" then
        {| type := TIMEOUT;
           error_message := "IP geolocation request timed out";
           originalError := Some (OfError e) |}
      else if includes (message e) "fetch" then
        {| type := NETWORK_ERROR;
           error_message := "Network error during IP geolocation";
           originalError := Some (OfError e) |}
      else
        {| type := UNKNOWN_ERROR;
           error_message :=
             if String.eqb (message e) EmptyString
             then "Unknown error during IP geolocation" else message e;
           originalError := Some (OfError e) |}
  | _ =>
      {| type := UNKNOWN_ERROR;
         error_message := "Unknown error during IP geolocation";
         originalError := None |}
  end.

(** [getIPLocation()].  The abort timer is part of the environment: a
    request that runs into the 3000 ms limit is a [FetchIP] that rejects
    with an [AbortError]. *)
Definition getIPLocation : promise request Location :=
  try_catch
    (response <~ perform FetchIP ;;
     if negb (ok response) then
       throw (ThrownError (Error ("IP geolocation request failed with status: "
                                  ++ NilZero.string_of_int (Z.to_int (status response)))))
     else
       data <~ Ret (json response) ;;
       match data with
       | None => throw (ThrownError (null_property_error "status"))
       | Some data =>
           if negb (String.eqb (ip_status data) "success") then
             throw (ThrownError (Error (option_or (or_else (ip_message data) None)
                                                  "IP geolocation failed")))
           else
             match ip_lat data, ip_lon data with
             | Some lat, Some lon =>
                 let location :=
                   {| latitude := lat; longitude := lon;
                      city := None; country := None;
                      source := ip |} in
                 try_catch
                   (names <~ reverseGeocode (latitude location) (longitude location) ;;
                    resolve (assign_names names location))
                   (fun error =>
                      console warn "Failed to reverse geocode IP location:"
                        (resolve {| latitude := latitude location;
                                    longitude := longitude location;
                                    city := ip_city data;
                                    country := ip_country data;
                                    source := source location |}))
             | _, _ =>
                 throw (ThrownError
                          (Error "Invalid location data received from IP geolocation"))
             end
       end)
    (fun error => throw (ThrownLocationError (ipLocationError error))).

(** Steps 1 to 3 of [detectLocation] (the two nested [try] statements).
    The local array [errors] is written and never read; it is left out. *)
Definition fallbackChain (config : Config) (options : option LocationOptions)
  : promise request Location :=
  try_catch
    (console log "Attempting browser geolocation..."
       (location <~ getBrowserLocation options ;;
        console log "Successfully obtained GPS location" (resolve location)))
    (fun error =>
       console warn "Browser geolocation failed:"
         (try_catch
            (console log "Falling back to IP geolocation..."
               (location <~ getIPLocation ;;
                console log "Successfully obtained IP-based location"
                  (resolve location)))
            (fun ipError =>
               console warn "IP geolocation failed:"
                 (console log "Using default location"
                    (let location :=
                       {| latitude := defaultLat config;
                          longitude := defaultLon config;
                          city := None; country := None;
                          source := default |} in
                     try_catch
                       (names <~ reverseGeocode (latitude location) (longitude location) ;;
                        resolve (assign_names names location))
                       (fun error =>
                          console warn "Failed to reverse geocode default location:"
                            (resolve {| latitude := latitude location;
                                        longitude := longitude location;
                                        city := Some (defaultCity config);
                                        country := country location;
                                        source := source location |}))))))).

(** [!options?.forceRefresh] *)
Definition not_forced (options : option LocationOptions) : bool :=
  match options with
  | Some o => negb (option_or (forceRefresh o) false)
  | None => true
  end.

(** The rest of [detectLocation] after the cache check: run the chain
    and replace the cache entry. *)
Definition detectAndStore (config : Config) (options : option LocationOptions)
    (locationCache : option LocationCacheEntry)
  : io request (settled thrown Location * option LocationCacheEntry) :=
  r <- fallbackChain config options ;;
  match r with
  | Resolved location =>
      now <- perform DateNow ;;
      Ret (Resolved location,
           Some {| location := location; timestamp := now; ttl := CACHE_TTL |})
  | Rejected e => Ret (Rejected e, locationCache)
  end.

(** [detectLocation(options)]; the module variable [locationCache] is
    passed in and its new value is returned with the promise's outcome. *)
Definition detectLocation (config : Config) (options : option LocationOptions)
    (locationCache : option LocationCacheEntry)
  : io request (settled thrown Location * option LocationCacheEntry) :=
  match (if not_forced options then locationCache else None) with
  | Some entry =>
      now <- perform DateNow ;;
      if (now - timestamp entry <? ttl entry)%Z then
        console log "Using cached location"
          (Ret (Resolved (location entry), locationCache))
      else detectAndStore config options locationCache
  | None => detectAndStore config options locationCache
  end.

Definition clearLocationCache (locationCache : option LocationCacheEntry)
  : option LocationCacheEntry := None.

Definition getCachedLocation (now : Z) (locationCache : option LocationCacheEntry)
  : option Location * option LocationCacheEntry :=
  match locationCache with
  | None => (None, None)
  | Some entry =>
      if (now - timestamp entry <? ttl entry)%Z
      then (Some (location entry), locationCache)
      else (None, None)
  end.

End Location.

(* ===================================================================== *)
(** * Vocabulary for the properties of [detectLocation]                   *)
(* ===================================================================== *)

Module DetectSpec.
Import Env Async Location.

Section World.
Context {W : Type} (handle : forall X : Type, request X -> W -> X * W).

(** [past_cache_check options locationCache w w0 pre]: started in the
    world [w], the call does not return the cached location; it
    reaches the fallback chain in the world [w0], having shown [pre]. *)
Inductive past_cache_check (options : option LocationOptions)
    (locationCache : option LocationCacheEntry) (w : W)
  : W -> list (observed request) -> Prop :=
| check_forced :
    not_forced options = false ->
    past_cache_check options locationCache w w []
| check_empty :
    locationCache = None ->
    past_cache_check options locationCache w w []
| check_expired (entry : LocationCacheEntry) (now : Z) (w1 : W) :
    not_forced options = true ->
    locationCache = Some entry ->
    handle Z DateNow w = (now, w1) ->
    ttl entry <= now - timestamp entry ->
    past_cache_check options locationCache w w1 [Requested DateNow].
End World.

(** The location the default step starts from. *)
Definition default_location (config : Config) : Location :=
  {| latitude := defaultLat config;
     longitude := defaultLon config;
     city := None; country := None;
     source := default |}.

(** No [console.log] line (warnings apart). *)
Definition quiet (tr : list (observed request)) : Prop :=
  forall msg, ~ In (Logged log msg) tr.

End DetectSpec.

(* ===================================================================== *)
(** * Sample data for the concrete runs                                   *)
(* ===================================================================== *)

Module Samples.

Import JSNumber Env Async.

(** The two coordinate pairs of the key-rounding property. *)
Definition sf_precise : Cache.Coordinates :=
  {| Cache.latitude := decimal false 37774912345 9;
     Cache.longitude := decimal true 122419412345 9 |}.

Definition sf_short : Cache.Coordinates :=
  {| Cache.latitude := decimal false 3777491 5;
     Cache.longitude := decimal true 12241941 5 |}.

Definition tbilisi : Cache.Coordinates :=
  {| Cache.latitude := decimal false 417151 4;
     Cache.longitude := decimal false 448271 4 |}.

Definition paris : Cache.Coordinates :=
  {| Cache.latitude := decimal false 488566 4;
     Cache.longitude := decimal false 23522 4 |}.

Definition quito : Cache.Coordinates :=
  {| Cache.latitude := decimal true 1807 4;
     Cache.longitude := decimal true 784678 4 |}.

(** A payload fetched from the weather API, stored as object 0. *)
Definition payload_api : Weather.WeatherData :=
  {| Weather.current := 10%nat;
     Weather.forecast := 11%nat;
     Weather.location := 12%nat;
     Weather.timestamp := 1000;
     Weather.source := Weather.src_api |}.

Definition heap0 : Weather.Heap :=
  {| Weather.objs := fun _ => payload_api; Weather.next := 1%nat |}.

Definition config_disabled : Config :=
  {| defaultCity := defaultCity DEFAULT_CONFIG;
     defaultLat := defaultLat DEFAULT_CONFIG;
     defaultLon := defaultLon DEFAULT_CONFIG;
     cache_ttl := cache_ttl DEFAULT_CONFIG;
     cache_enabled := false |}.

(** A cache of capacity 2 and of capacity 0. *)
Definition cache2 : Cache.WeatherCache := Cache.new DEFAULT_CONFIG (Some 2) None.
Definition cache_zero : Cache.WeatherCache := Cache.new DEFAULT_CONFIG (Some 0) None.

(** A scripted environment for [detectLocation]: the state is the clock,
    every provider answers as the script says and takes some time. *)
Record Script : Type := {
  nav : Location.navigator_state;
  position : Location.GeolocationPositionError + Location.Coords;
  ipAnswer : settled Location.thrown (Location.Response Location.IPLocationResponse);
  reverseAnswer : number -> number ->
                  settled Location.thrown (Location.Response Location.NominatimData)
}.

Definition handle (s : Script) (X : Type) (r : Location.request X) (w : Z)
  : X * Z :=
  match r in Location.request X return X * Z with
  | Location.DateNow => (w, w)
  | Location.Navigator => (nav s, w)
  | Location.GetCurrentPosition _ => (position s, w + 50)
  | Location.FetchReverse lat lon => (reverseAnswer s lat lon, w + 120)
  | Location.FetchIP => (ipAnswer s, w + 80)
  end.

Definition permission_denied : Location.GeolocationPositionError :=
  {| Location.code := 1; Location.geo_message := "User denied Geolocation" |}.

Definition service_unavailable {P : Type}
  : settled Location.thrown (Location.Response P) :=
  Resolved {| Location.ok := false; Location.status := 503;
              Location.json := Rejected (Location.ThrownError
                                 (Location.Error "Unexpected token < in JSON")) |}.

Definition network_down {P : Type}
  : settled Location.thrown (Location.Response P) :=
  Rejected (Location.ThrownError
              {| name := "TypeError"; message := "Failed to fetch" |}).

Definition ip_tbilisi : Location.IPLocationResponse :=
  {| Location.ip_status := "success";
     Location.ip_lat := Some (decimal false 417151 4);
     Location.ip_lon := Some (decimal false 448271 4);
     Location.ip_city := Some "Tbilisi"%string;
     Location.ip_country := Some "Georgia"%string;
     Location.ip_message := None |}.

Definition ip_success : settled Location.thrown (Location.Response Location.IPLocationResponse) :=
  Resolved {| Location.ok := true; Location.status := 200;
              Location.json := Resolved (Some ip_tbilisi) |}.

Definition reverse_tbilisi : settled Location.thrown (Location.Response Location.NominatimData) :=
  Resolved {| Location.ok := true; Location.status := 200;
              Location.json := Resolved (Some
                {| Location.address := Some
                     {| Location.addr_city := Some "Tbilisi"%string;
                        Location.addr_town := None;
                        Location.addr_village := None;
                        Location.addr_hamlet := None;
                        Location.addr_municipality := None;
                        Location.addr_country := Some "Georgia"%string |} |}) |}.

(** GPS denied, IP answers, reverse geocoding answers. *)
Definition world_ip : Script :=
  {| nav := Location.geolocation_present;
     position := inl permission_denied;
     ipAnswer := ip_success;
     reverseAnswer := fun _ _ => reverse_tbilisi |}.

(** GPS denied, IP answers, reverse geocoding is down. *)
Definition world_ip_no_names : Script :=
  {| nav := Location.geolocation_present;
     position := inl permission_denied;
     ipAnswer := ip_success;
     reverseAnswer := fun _ _ => service_unavailable |}.

(** No provider works: no geolocation, no network. *)
Definition world_offline : Script :=
  {| nav := Location.geolocation_missing;
     position := inl permission_denied;
     ipAnswer := network_down;
     reverseAnswer := fun _ _ => network_down |}.

(** A cached location resolved at time 1000. *)
Definition cached_entry : Location.LocationCacheEntry :=
  {| Location.location :=
       {| Location.latitude := decimal false 488566 4;
          Location.longitude := decimal false 23522 4;
          Location.city := Some "Paris"%string;
          Location.country := Some "France"%string;
          Location.source := Location.gps |};
     Location.timestamp := 1000;
     Location.ttl := Location.CACHE_TTL |}.


(** Histories and states for the cache properties. *)
Definition two_inserts : list Cache.op :=
  [Cache.OpSet 0 paris 0%nat; Cache.OpSet 1 tbilisi 0%nat].

Definition one_insert : list Cache.op := [Cache.OpSet 0 paris 0%nat].

(** The cache after [set(paris, object 0)] at time 0. *)
Definition cache_paris : Cache.WeatherCache :=
  Cache.set DEFAULT_CONFIG 0 paris 0%nat cache2.

Definition entry_paris : Cache.CacheEntry :=
  {| Cache.data := 0%nat; Cache.timestamp := 0; Cache.expiresAt := 600000 |}.

End Samples.

(* ===================================================================== *)
(** * Further vocabulary for the weather cache                            *)
(* ===================================================================== *)

Module CacheSpec.
Import Weather Env Cache CacheInv.

(** Every entry expires one TTL after it was stored. *)
Definition expiry_consistent (c : WeatherCache) : Prop :=
  Forall (fun kv => expiresAt (snd kv) = timestamp (snd kv) + ttl c) (cache c).

(** What [get] answered. *)
Definition get_result (config : Config) (now : Z) (loc : Coordinates)
    (h : Heap) (c : WeatherCache) : option ref :=
  fst (fst (get config now loc h c)).

End CacheSpec.

(* ===================================================================== *)
(** * Further vocabulary for location detection                           *)
(* ===================================================================== *)

Module LocationSpec.
Import JSNumber Env Async Location.

(** The kinds of provider request in a trace. *)
Definition is_position_request (o : observed request) : bool :=
  match o with Requested (GetCurrentPosition _) => true | _ => false end.

Definition is_ip_request (o : observed request) : bool :=
  match o with Requested FetchIP => true | _ => false end.

Definition is_reverse_request (o : observed request) : bool :=
  match o with Requested (FetchReverse _ _) => true | _ => false end.

(** The name fields of an address that stand for a city, in the order
    [reverseGeocode] reads them. *)
Definition city_fields (a : Address) : list (option string) :=
  [addr_city a; addr_town a; addr_village a; addr_hamlet a;
   addr_municipality a].

(** A name that is absent or a non-empty string. *)
Definition absent_or_nonempty (s : option string) : Prop :=
  s = None \/ truthy s = true.

(** The [geolocationOptions] that [getBrowserLocation] passes to the
    browser: the caller's values, else the constants. *)
Definition position_options (options : option LocationOptions)
  : PositionOptions :=
  {| pos_enableHighAccuracy :=
       option_or (match options with Some o => enableHighAccuracy o | None => None end)
                 HIGH_ACCURACY;
     pos_timeout :=
       option_or (match options with Some o => timeout o | None => None end)
                 GPS_TIMEOUT;
     pos_maximumAge :=
       option_or (match options with Some o => maximumAge o | None => None end)
                 MAX_AGE |}.

(** The number of requests of one kind in a trace. *)
Definition count (kind : observed request -> bool)
    (tr : list (observed request)) : nat :=
  List.length (filter kind tr).

(** A reverse-geocoding answer that carries no usable address: the
    request failed or the response is not 2xx. *)
Definition lookup_failed
    (answer : settled thrown (Response NominatimData)) : Prop :=
  match answer with
  | Rejected _ => True
  | Resolved response => ok response = false
  end.

End LocationSpec.

(* ===================================================================== *)
(** * Fetching weather data ([src/lib/weather.ts])                        *)
(* ===================================================================== *)

Module WeatherApi.

Import JSNumber Env Async.
Local Open Scope io_scope.
Local Open Scope string_scope.

Inductive WeatherErrorType : Type :=
| NETWORK_ERROR
| TIMEOUT
| INVALID_RESPONSE
| API_ERROR
| VALIDATION_ERROR
| UNKNOWN_ERROR.

Section Schema.
(** The Zod schema [WeatherResponseSchema] is a parameter: [Payload] is
    what [response.json()] yields, [WeatherResponse] a payload that
    passed, [ZodError] what [parse] throws otherwise. *)
Context {Payload WeatherResponse ZodError : Type}.
Context (WeatherResponseSchema_parse : Payload -> ZodError + WeatherResponse).

(** [originalError] of a [WeatherError]. *)
Inductive OriginalError : Type :=
| OfZod (z : ZodError)
| OfError (e : JsError).

Record WeatherError : Type := {
  type : WeatherErrorType;
  error_message : string;
  originalError : option OriginalError
}.

(** Whatever a [throw] or a rejection can carry here. *)
Inductive thrown : Type :=
| ThrownZod (z : ZodError)
| ThrownError (e : JsError)
| ThrownWeatherError (e : WeatherError)
| ThrownValue.

(** A [fetch] response; [json] is how [response.json()] settles. *)
Record Response : Type := {
  ok : bool;
  status : Z;
  json : settled thrown Payload
}.

(** The one request: the coordinates, whether [temperature_unit] is
    set to fahrenheit, and whether the caller passed a signal of its
    own.  The abort timer is part of the environment: a request that is
    aborted rejects with an [AbortError]. *)
Inductive request : Type -> Type :=
| FetchWeather (latitude longitude : number) (fahrenheit : bool)
    (caller_signal : bool) : request (settled thrown Response).

(** The [catch] block of [fetchWeatherData]. *)
Definition weatherError (error : thrown) : WeatherError :=
  match error with
  | ThrownZod z =>
      {| type := VALIDATION_ERROR;
         error_message := "Invalid weather data received from API";
         originalError := Some (OfZod z) |}
  | ThrownError e =>
      if String.eqb (name e) "AbortError" then
        {| type := TIMEOUT;
           error_message := "Weather API request timed out";
           originalError := Some (OfError e) |}
      else if Location.includes (message e) "fetch" then
        {| type := NETWORK_ERROR;
           error_message := "Network error while fetching weather data";
           originalError := Some (OfError e) |}
      else if Location.includes (message e) "status" then
        {| type := API_ERROR;
           error_message := message e;
           originalError := Some (OfError e) |}
      else
        {| type := UNKNOWN_ERROR;
           error_message :=
             if String.eqb (message e) EmptyString
             then "Unknown error while fetching weather" else message e;
           originalError := Some (OfError e) |}
  | _ =>
      {| type := UNKNOWN_ERROR;
         error_message := "Unknown error while fetching weather";
         originalError := None |}
  end.

(** [fetchWeatherData(latitude, longitude, options)]; [fahrenheit] is
    [config.units.temperature === 'fahrenheit'] and [caller_signal] is
    whether [options?.signal] is set. *)
Definition fetchWeatherData (fahrenheit : bool) (latitude longitude : number)
    (caller_signal : bool) : io request (settled thrown WeatherResponse) :=
  try_catch
    (response <~ perform (FetchWeather latitude longitude fahrenheit caller_signal) ;;
     if negb (ok response) then
       throw (ThrownError
                (Location.Error ("Weather API request failed with status: "
                                 ++ NilZero.string_of_int (Z.to_int (status response)))))
     else
       data <~ Ret (json response) ;;
       match WeatherResponseSchema_parse data with
       | inr validatedData => resolve validatedData
       | inl z => throw (ThrownZod z)
       end)
    (fun error => throw (ThrownWeatherError (weatherError error))).

End Schema.

End WeatherApi.

(* ===================================================================== *)
(** * The route handlers ([app/api/weather], [app/api/clear-cache])       *)
(* ===================================================================== *)

Module Route.

Import JSNumber Weather Env Async.
Local Open Scope io_scope.
Local Open Scope string_scope.

(** The query after [QuerySchema.parse]. *)
Record Query : Type := {
  lat : number;
  lon : number;
  query_city : option string;
  query_country : option string
}.

(** One issue of a [ZodError]: [path.join('.')] and [message]. *)
Record Issue : Type := {
  field : string;
  issue_message : string
}.

(** What the [catch] block of [GET] tells apart: a [ZodError], an
    object with a [type] property (a weather error: its [message] and
    [type]), anything else. *)
Inductive thrown : Type :=
| ThrownZod (issues : list Issue)
| ThrownTyped (message : option string) (type : WeatherApi.WeatherErrorType)
| ThrownValue.

(** The body of a JSON response. *)
Inductive Body : Type :=
| WeatherBody (data : ref) (cached : bool)
| InvalidBody (error : string) (details : list Issue)
| FailedBody (error : string) (type : WeatherApi.WeatherErrorType)
| ErrorBody (error : string)
| ClearedBody (message : string) (timestamp : Z).

Record HttpResponse : Type := {
  http_status : Z;
  body : Body
}.

(** The [success] field of a body. *)
Definition success (b : Body) : bool :=
  match b with
  | WeatherBody _ _ => true
  | ClearedBody _ _ => true
  | InvalidBody _ _ => false
  | FailedBody _ _ => false
  | ErrorBody _ => false
  end.

(** [NextResponse.json(body)] and [NextResponse.json(body, { status })]. *)
Definition json (b : Body) : HttpResponse := {| http_status := 200; body := b |}.
Definition json_status (b : Body) (s : Z) : HttpResponse :=
  {| http_status := s; body := b |}.

(** The environment of the handlers: the clock, the weather service
    (whatever it does: it resolves with the fields of a new
    [WeatherData] object or rejects), and [console.error]. *)
Inductive request : Type -> Type :=
| DateNow : request Z
| GetWeatherData (location : Location.Location)
    : request (settled thrown WeatherData)
| ConsoleError (msg : string) : request unit.

(** The store and the two caches the handlers work on. *)
Record Server : Type := {
  heap : Heap;
  weatherCache : Cache.WeatherCache;
  locationCache : option Location.LocationCacheEntry
}.

Definition with_weather (s : Server) (h : Heap) (c : Cache.WeatherCache)
  : Server :=
  {| heap := h; weatherCache := c; locationCache := locationCache s |}.

Definition coordinates (location : Location.Location) : Cache.Coordinates :=
  {| Cache.latitude := Location.latitude location;
     Cache.longitude := Location.longitude location |}.

(** [weatherCache.get(location)]: [Date.now()] is read when an entry is
    found. *)
Definition cache_get (config : Config) (location : Location.Location)
    (s : Server) : io request (option ref * Server) :=
  if Cache.isEnabled config
     && JSMap.has (CacheInv.key_of (coordinates location))
                  (Cache.cache (weatherCache s))
  then
    now <- perform DateNow ;;
    let '(r, h, c) :=
      Cache.get config now (coordinates location) (heap s) (weatherCache s) in
    Ret (r, with_weather s h c)
  else Ret (None, s).

(** [weatherCache.set(location, data)]: [Date.now()] is read when
    caching is enabled. *)
Definition cache_set (config : Config) (location : Location.Location)
    (d : ref) (s : Server) : io request Server :=
  if Cache.isEnabled config then
    now <- perform DateNow ;;
    Ret (with_weather s (heap s)
           (Cache.set config now (coordinates location) d (weatherCache s)))
  else Ret s.

(** [a || undefined] *)
Definition or_undefined (a : option string) : option string :=
  if Location.truthy a then a else None.

(** The [Location] object [GET] builds from the query. *)
Definition location_of (query : Query) : Location.Location :=
  {| Location.latitude := lat query;
     Location.longitude := lon query;
     Location.city := or_undefined (query_city query);
     Location.country := or_undefined (query_country query);
     Location.source := Location.manual |}.

(** The [catch] block of [GET]. *)
Definition GET_error (error : thrown) : io request HttpResponse :=
  match error with
  | ThrownZod issues =>
      Ret (json_status (InvalidBody "Invalid coordinates" issues) 400)
  | ThrownTyped message type =>
      Ret (json_status
             (FailedBody
                (Location.option_or (or_undefined message)
                                    "Failed to fetch weather data")
                type)
             503)
  | ThrownValue =>
      _ <- perform (ConsoleError "Weather API error:") ;;
      Ret (json_status (ErrorBody "Internal server error") 500)
  end.

(** [GET(request)] of [app/api/weather/route.ts]; [parsed] is how
    [QuerySchema.parse] of the request's parameters ends. *)
Definition GET (config : Config) (parsed : settled thrown Query) (s : Server)
  : io request (HttpResponse * Server) :=
  match parsed with
  | Rejected error =>
      response <- GET_error error ;; Ret (response, s)
  | Resolved query =>
      let location := location_of query in
      hit <- cache_get config location s ;;
      let (cachedData, s1) := hit in
      match cachedData with
      | Some data => Ret (json (WeatherBody data true), s1)
      | None =>
          fetched <- perform (GetWeatherData location) ;;
          match fetched with
          | Rejected error =>
              response <- GET_error error ;; Ret (response, s1)
          | Resolved weatherData =>
              let (data, h) := alloc (heap s1) weatherData in
              s2 <- cache_set config location data
                      (with_weather s1 h (weatherCache s1)) ;;
              Ret (json (WeatherBody data false), s2)
          end
      end
  end.

(** [POST()] of [app/api/clear-cache/route.ts].  Nothing in its [try]
    block throws ([Map.clear], an assignment, [console.log],
    [Date.now]), so its [catch] block is not reached and is left out. *)
Definition POST (s : Server) : io request (HttpResponse * Server) :=
  let s' :=
    {| heap := heap s;
       weatherCache := Cache.clear (weatherCache s);
       locationCache := Location.clearLocationCache (locationCache s) |} in
  Console log "Server caches cleared successfully"
    (now <- perform DateNow ;;
     Ret (json (ClearedBody "All server caches cleared successfully" now), s')).

(** The key under which [GET] caches the answer to a query. *)
Definition key_of_query (query : Query) : string :=
  CacheInv.key_of (coordinates (location_of query)).

(** The requests to the weather service in a trace. *)
Definition is_upstream_call (o : observed request) : bool :=
  match o with Requested (GetWeatherData _) => true | _ => false end.

Definition count_upstream (tr : list (observed request)) : nat :=
  List.length (filter is_upstream_call tr).

End Route.

(* ===================================================================== *)
(** * The permission check ([checkPermissionState], [lib/location.ts])    *)
(* ===================================================================== *)

Module Permission.

Import Async.
Local Open Scope io_scope.
Local Open Scope string_scope.

(** The browser's [PermissionState]. *)
Inductive PermissionState : Type := state_granted | state_denied | state_prompt.

Inductive LocationPermissionState : Type :=
| granted | denied | prompt | unsupported.

(** [result.state as LocationPermissionState] *)
Definition as_permission (s : PermissionState) : LocationPermissionState :=
  match s with
  | state_granted => granted
  | state_denied => denied
  | state_prompt => prompt
  end.

(** The state of the global [navigator], as [navigator?.permissions]
    sees it. *)
Inductive navigator_state : Type :=
| navigator_undeclared
| permissions_missing
| permissions_present.

(** The environment: the global [navigator], the call
    [navigator.permissions.query({ name: 'geolocation' })] (it throws,
    rejects, or resolves with a status of some state), and
    [console.error]. *)
Inductive request : Type -> Type :=
| Navigator : request navigator_state
| PermissionsQuery : request (settled Location.thrown PermissionState)
| ConsoleError (msg : string) : request unit.

(** [checkPermissionState()].  The test of [navigator?.permissions] is
    outside the [try] block. *)
Definition checkPermissionState
  : Location.promise request LocationPermissionState :=
  nav <- perform Navigator ;;
  match nav with
  | navigator_undeclared =>
      throw (Location.ThrownError (Location.undeclared_error "navigator"))
  | permissions_missing =>
      console warn "Permissions API not supported" (resolve unsupported)
  | permissions_present =>
      try_catch
        (result <~ perform PermissionsQuery ;;
         resolve (as_permission result))
        (fun error =>
           _ <- perform (ConsoleError "Error checking geolocation permission:") ;;
           resolve unsupported)
  end.

Definition is_query (o : observed request) : bool :=
  match o with Requested PermissionsQuery => true | _ => false end.

End Permission.

(* ===================================================================== *)
(** * Sample data for the handlers and the providers                      *)
(* ===================================================================== *)

Module Scenarios.

Import JSNumber Env Async.
Local Open Scope string_scope.

(** The browser delivers a position in Paris and the reverse geocoder
    names it; the IP provider is down. *)
Definition position_paris : Location.Coords :=
  {| Location.coords_latitude := decimal false 488566 4;
     Location.coords_longitude := decimal false 23522 4 |}.

Definition address_paris : Location.Address :=
  {| Location.addr_city := Some EmptyString;
     Location.addr_town := None;
     Location.addr_village := Some "Paris";
     Location.addr_hamlet := Some "Montmartre";
     Location.addr_municipality := None;
     Location.addr_country := Some "France" |}.

Definition reverse_paris
  : settled Location.thrown (Location.Response Location.NominatimData) :=
  Resolved {| Location.ok := true; Location.status := 200;
              Location.json :=
                Resolved (Some {| Location.address := Some address_paris |}) |}.

Definition world_gps : Samples.Script :=
  {| Samples.nav := Location.geolocation_present;
     Samples.position := inr position_paris;
     Samples.ipAnswer := Samples.network_down;
     Samples.reverseAnswer := fun _ _ => reverse_paris |}.

(** The IP provider answers 429. *)
Definition too_many_requests
  : settled Location.thrown (Location.Response Location.IPLocationResponse) :=
  Resolved {| Location.ok := false; Location.status := 429;
              Location.json := Resolved None |}.

Definition world_ip_limited : Samples.Script :=
  {| Samples.nav := Location.geolocation_present;
     Samples.position := inl Samples.permission_denied;
     Samples.ipAnswer := too_many_requests;
     Samples.reverseAnswer := fun _ _ => Samples.network_down |}.

(** A weather service whose payload is the number of forecast days; the
    schema accepts five days only. *)
Definition days_schema (days : Z) : string + Z :=
  if (days =? 5)%Z then inr days else inl "daily".

Definition bad_gateway
  : settled (@WeatherApi.thrown string) (@WeatherApi.Response Z string) :=
  Resolved {| WeatherApi.ok := false; WeatherApi.status := 502;
              WeatherApi.json := Resolved 0%Z |}.

Definition three_days
  : settled (@WeatherApi.thrown string) (@WeatherApi.Response Z string) :=
  Resolved {| WeatherApi.ok := true; WeatherApi.status := 200;
              WeatherApi.json := Resolved 3%Z |}.

Definition five_days
  : settled (@WeatherApi.thrown string) (@WeatherApi.Response Z string) :=
  Resolved {| WeatherApi.ok := true; WeatherApi.status := 200;
              WeatherApi.json := Resolved 5%Z |}.

Definition api_handle
    (answer : settled (@WeatherApi.thrown string) (@WeatherApi.Response Z string))
    (X : Type) (r : @WeatherApi.request Z string X) (w : Z) : X * Z :=
  match r in WeatherApi.request X return X * Z with
  | WeatherApi.FetchWeather _ _ _ _ => (answer, (w + 300)%Z)
  end.

(** The server of the route handlers: the state of the world is the
    clock, the weather service answers as given and takes 200 ms. *)
Definition route_handle (upstream : settled Route.thrown Weather.WeatherData)
    (X : Type) (r : Route.request X) (w : Z) : X * Z :=
  match r in Route.request X return X * Z with
  | Route.DateNow => (w, w)
  | Route.GetWeatherData _ => (upstream, (w + 200)%Z)
  | Route.ConsoleError _ => (tt, w)
  end.

Definition query_paris : Route.Query :=
  {| Route.lat := decimal false 488566 4;
     Route.lon := decimal false 23522 4;
     Route.query_city := Some "Paris";
     Route.query_country := Some EmptyString |}.

Definition query_paris_precise : Route.Query :=
  {| Route.lat := decimal false 4885661 5;
     Route.lon := decimal false 235222 5;
     Route.query_city := None;
     Route.query_country := None |}.

Definition server_empty : Route.Server :=
  {| Route.heap := Samples.heap0;
     Route.weatherCache := Samples.cache2;
     Route.locationCache := None |}.

Definition server_paris : Route.Server :=
  {| Route.heap := Samples.heap0;
     Route.weatherCache := Samples.cache_paris;
     Route.locationCache := Some Samples.cached_entry |}.

Definition service_down : Route.thrown :=
  Route.ThrownTyped (Some "Network error while fetching weather data")
                    WeatherApi.NETWORK_ERROR.

End Scenarios.

(* ===================================================================== *)
(** * Facts about the insertion-ordered map                               *)
(* ===================================================================== *)

Module JSMapFacts.

Import JSMap.

Section Facts.
Context {V : Type}.
Implicit Types (m : t V) (k : string) (v : V).

Lemma size_keys m : size m = Z.of_nat (List.length (keys m)).
Proof. unfold size, keys. now rewrite length_map. Qed.

Lemma has_In k m : has k m = true <-> In k (keys m).
Proof.
  unfold has. induction m as [|[k' v'] m IH]; simpl.
  - split; [discriminate | tauto].
  - destruct (String.eqb_spec k k') as [->|Hne].
    + split; auto.
    + rewrite IH. split; [auto | intros [H|H]; [congruence | exact H]].
Qed.

Lemma has_false k m : has k m = false <-> ~ In k (keys m).
Proof.
  rewrite <- has_In. destruct (has k m); split; intros; congruence.
Qed.

Lemma get_In k m v : get k m = Some v -> In k (keys m).
Proof.
  intros H. apply has_In. unfold has. now rewrite H.
Qed.

Lemma keys_delete k m : keys (delete k m) = filter (other_than k) (keys m).
Proof.
  unfold other_than.
  induction m as [|[k' v'] m IH]; simpl; [reflexivity|].
  destruct (String.eqb k k'); simpl; now rewrite IH.
Qed.

Lemma keys_set_absent k v m :
  ~ In k (keys m) -> keys (set k v m) = keys m ++ [k].
Proof.
  induction m as [|[k' v'] m IH]; simpl; intros Hn; [reflexivity|].
  destruct (String.eqb_spec k k') as [->|Hne].
  - exfalso. apply Hn. now left.
  - simpl. rewrite IH; [reflexivity | tauto].
Qed.

Lemma not_In_filter_other k (l : list string) : ~ In k (filter (other_than k) l).
Proof.
  rewrite filter_In. unfold other_than. intros [_ H].
  now rewrite String.eqb_refl in H.
Qed.

(** Delete and insert again: the key moves to the end. *)
Lemma keys_move_to_end k v m :
  keys (set k v (delete k m)) = filter (other_than k) (keys m) ++ [k].
Proof.
  rewrite keys_set_absent; rewrite keys_delete;
    [reflexivity | apply not_In_filter_other].
Qed.

Lemma get_set_absent k v m : ~ In k (keys m) -> get k (set k v m) = Some v.
Proof.
  induction m as [|[k' v'] m IH]; simpl; intros Hn.
  - now rewrite String.eqb_refl.
  - destruct (String.eqb_spec k k') as [->|Hne].
    + exfalso. apply Hn. now left.
    + simpl. destruct (String.eqb_spec k k'); [congruence|].
      apply IH. tauto.
Qed.

Lemma get_move_to_end k v m : get k (set k v (delete k m)) = Some v.
Proof.
  apply get_set_absent. rewrite keys_delete. apply not_In_filter_other.
Qed.

Lemma filter_other_absent k (l : list string) :
  ~ In k l -> filter (other_than k) l = l.
Proof.
  induction l as [|x l IH]; simpl; intros Hn; [reflexivity|].
  unfold other_than at 1.
  destruct (String.eqb_spec k x) as [->|Hne]; simpl.
  - exfalso. apply Hn. now left.
  - rewrite IH; [reflexivity | tauto].
Qed.

Lemma filter_other_head k (l : list string) :
  NoDup (k :: l) -> filter (other_than k) (k :: l) = l.
Proof.
  intros Hnd. inversion Hnd; subst. simpl.
  unfold other_than at 1. rewrite String.eqb_refl. simpl.
  now apply filter_other_absent.
Qed.

Lemma filter_length_le (p : string -> bool) (l : list string) :
  (List.length (filter p l) <= List.length l)%nat.
Proof.
  induction l as [|x l IH]; simpl; [lia|].
  destruct (p x); simpl; lia.
Qed.

Lemma filter_other_length k (l : list string) :
  In k l -> (List.length (filter (other_than k) l) < List.length l)%nat.
Proof.
  induction l as [|x l IH]; simpl; [tauto|].
  intros [->|Hin].
  - unfold other_than at 1. rewrite String.eqb_refl. simpl.
    pose proof (filter_length_le (other_than k) l). lia.
  - specialize (IH Hin). destruct (other_than k x); simpl; lia.
Qed.

End Facts.

End JSMapFacts.

(* ===================================================================== *)
(** * Facts about the weather cache                                       *)
(* ===================================================================== *)

Module CacheFacts.

Import Weather Env JSMap Cache CacheInv JSMapFacts.

Lemma append_nonempty (a b : string) :
  (a ++ "," ++ b)%string <> EmptyString.
Proof. destruct a; simpl; discriminate. Qed.

Lemma getCacheKey_nonempty lat lon : getCacheKey lat lon <> EmptyString.
Proof. unfold getCacheKey. apply append_nonempty. Qed.

Lemma filter_filter (p q : string -> bool) (l : list string) :
  filter q (filter p l) = filter (fun x => p x && q x) l.
Proof.
  induction l as [|x l IH]; simpl; [reflexivity|].
  destruct (p x); simpl; [destruct (q x)|]; now rewrite IH.
Qed.

Lemma delete_if_has (k : string) (m : JSMap.t CacheEntry) :
  (if JSMap.has k m then JSMap.delete k m else m) = JSMap.delete k m.
Proof.
  destruct (JSMap.has k m) eqn:Hh; [reflexivity|].
  apply has_false in Hh.
  induction m as [|[k' v'] m IH]; simpl; [reflexivity|].
  destruct (String.eqb_spec k k') as [->|Hne].
  - exfalso. apply Hh. now left.
  - rewrite <- IH; [reflexivity|]. intros H. apply Hh. now right.
Qed.

(** ** The keys after each operation *)

Lemma set_disabled config now loc d c :
  isEnabled config = false -> set config now loc d c = c.
Proof. unfold set. now intros ->. Qed.

(** The map from which [set] goes on after the eviction test. *)
Lemma set_keys config now loc d c :
  isEnabled config = true ->
  exists ks1,
    keys_of (set config now loc d c) = filter (other_than (key_of loc)) ks1 ++ [key_of loc]
    /\ JSMap.get (key_of loc) (cache (set config now loc d c))
       = Some {| data := d; timestamp := now; expiresAt := now + ttl c |}
    /\ ks1 =
       if (size c >=? maxEntries c) && negb (JSMap.has (key_of loc) (cache c))
       then match keys_of c with
            | k0 :: _ => if negb (String.eqb k0 EmptyString)
                         then filter (other_than k0) (keys_of c) else keys_of c
            | [] => []
            end
       else keys_of c.
Proof.
  intros He. unfold set, keys_of, key_of, size. rewrite He. simpl.
  rewrite delete_if_has. eexists. split; [apply keys_move_to_end|].
  split; [apply get_move_to_end|].
  destruct (_ && _); [|reflexivity].
  destruct (cache c) as [|[k0 v0] m]; simpl; [reflexivity|].
  destruct (String.eqb k0 EmptyString); simpl; [reflexivity|].
  change (JSMap.keys (JSMap.delete k0 ((k0, v0) :: m))
          = filter (other_than k0) (JSMap.keys ((k0, v0) :: m))).
  apply keys_delete.
Qed.

Lemma set_fields config now loc d c :
  maxEntries (set config now loc d c) = maxEntries c
  /\ ttl (set config now loc d c) = ttl c.
Proof. unfold set. destruct (negb _); simpl; auto. Qed.

(** The four outcomes of [get]. *)
Lemma get_cases config now loc h c :
  (get config now loc h c = (None, h, c)
   /\ (isEnabled config = false \/ JSMap.get (key_of loc) (cache c) = None))
  \/ (exists entry,
        isEnabled config = true
        /\ JSMap.get (key_of loc) (cache c) = Some entry
        /\ now > expiresAt entry
        /\ get config now loc h c
           = (None, h, with_cache c (JSMap.delete (key_of loc) (cache c))))
  \/ (exists entry,
        isEnabled config = true
        /\ JSMap.get (key_of loc) (cache c) = Some entry
        /\ now <= expiresAt entry
        /\ get config now loc h c
           = (Some (next h),
              snd (alloc h (with_source (deref h (data entry)) src_cache)),
              with_cache c (JSMap.set (key_of loc) entry
                              (JSMap.delete (key_of loc) (cache c))))).
Proof.
  unfold get, key_of. destruct (isEnabled config); simpl; [|left; auto].
  destruct (JSMap.get _ (cache c)) as [entry|] eqn:Hg; [|left; auto].
  right. destruct (now >? expiresAt entry) eqn:Hx.
  - left. exists entry. repeat split; auto. lia.
  - right. exists entry. repeat split; auto. lia.
Qed.

Lemma has_cases now loc c :
  (has now loc c = (false, c) /\ JSMap.get (key_of loc) (cache c) = None)
  \/ (exists entry,
        JSMap.get (key_of loc) (cache c) = Some entry
        /\ now > expiresAt entry
        /\ has now loc c
           = (false, with_cache c (JSMap.delete (key_of loc) (cache c))))
  \/ (exists entry,
        JSMap.get (key_of loc) (cache c) = Some entry
        /\ now <= expiresAt entry
        /\ has now loc c = (true, c)).
Proof.
  unfold has, key_of.
  destruct (JSMap.get _ (cache c)) as [entry|] eqn:Hg; [|left; auto].
  right. destruct (now >? expiresAt entry) eqn:Hx.
  - left. exists entry. repeat split; auto. lia.
  - right. exists entry. repeat split; auto. lia.
Qed.

(** One step either touches a key, which goes to the end behind a
    selection of the old keys, or leaves a selection of the old keys. *)
Lemma step_keys config o h c :
  let c' := snd (step config o (h, c)) in
  maxEntries c' = maxEntries c /\ ttl c' = ttl c /\
  match touched config o (h, c) with
  | Some k =>
      k <> EmptyString /\
      exists p, keys_of c' = filter p (keys_of c) ++ [k]
                /\ forall x, p x = true -> x <> k
  | None => exists p, keys_of c' = filter p (keys_of c)
  end.
Proof.
  destruct o as [now loc|now loc d|now loc|]; simpl.
  - destruct (get_cases config now loc h c)
      as [[-> _]|[(entry & He & Hg & Hx & ->)|(entry & He & Hg & Hx & ->)]];
      simpl; repeat split; auto.
    + exists (fun _ => true). now rewrite filter_true.
    + exists (other_than (key_of loc)). apply keys_delete.
    + apply getCacheKey_nonempty.
    + exists (other_than (key_of loc)). split.
      * apply keys_move_to_end.
      * unfold other_than. intros x Hp ->. now rewrite String.eqb_refl in Hp.
  - destruct (set_fields config now loc d c) as [Hm Ht].
    repeat split; auto.
    destruct (isEnabled config) eqn:He.
    + split; [apply getCacheKey_nonempty|].
      destruct (set_keys config now loc d c He) as (ks1 & Hk & _ & Hks1).
      fold (key_of loc). rewrite Hk.
      assert (Hsel : exists q, ks1 = filter q (keys_of c)).
      { rewrite Hks1. destruct (_ && _).
        - destruct (keys_of c) as [|k0 rest].
          + now exists (fun _ => true).
          + destruct (negb _).
            * now exists (other_than k0).
            * exists (fun _ => true). now rewrite filter_true.
        - exists (fun _ => true). now rewrite filter_true. }
      destruct Hsel as [q Hq]. rewrite Hq, filter_filter.
      exists (fun x => q x && other_than (key_of loc) x). split; [reflexivity|].
      intros x Hp ->. unfold other_than in Hp.
      rewrite String.eqb_refl in Hp. now destruct (q (key_of loc)).
    + rewrite set_disabled by exact He.
      exists (fun _ => true). now rewrite filter_true.
  - destruct (has_cases now loc c)
      as [[-> _]|[(entry & Hg & Hx & ->)|(entry & Hg & Hx & ->)]];
      simpl; repeat split; auto.
    + exists (fun _ => true). now rewrite filter_true.
    + exists (other_than (key_of loc)). apply keys_delete.
    + exists (fun _ => true). now rewrite filter_true.
  - repeat split; auto. exists (fun _ => false). unfold keys_of. simpl.
    now rewrite filter_false.
Qed.

(** ** Reachable caches are well formed *)

Lemma size_keys_of c : size c = Z.of_nat (List.length (keys_of c)).
Proof. unfold size, keys_of. apply size_keys. Qed.

Lemma has_keys_of k c : JSMap.has k (cache c) = true <-> In k (keys_of c).
Proof. apply has_In. Qed.

Lemma step_size config o h c :
  1 <= maxEntries c -> well_formed c ->
  size (snd (step config o (h, c))) <= maxEntries c.
Proof.
  intros Hmax (Hnd & Hne & Hsz).
  destruct (step_keys config o h c) as (_ & _ & Hk).
  destruct o as [now loc|now loc d|now loc|].
  - (* get *)
    simpl in *.
    destruct (get_cases config now loc h c)
      as [[Heq _]|[(entry & He & Hg & Hx & Heq)|(entry & He & Hg & Hx & Heq)]];
      rewrite Heq in *; simpl in *.
    + exact Hsz.
    + destruct Hk as [p Hp]. rewrite size_keys_of in *. rewrite Hp.
      pose proof (filter_length_le p (keys_of c)). lia.
    + rewrite size_keys_of in *.
      unfold keys_of at 1. simpl. rewrite keys_move_to_end, length_app. simpl.
      pose proof (filter_other_length (key_of loc) (keys_of c)
                    (get_In _ _ _ Hg)).
      unfold keys_of in *. lia.
  - (* set *)
    simpl in *. clear Hk.
    destruct (isEnabled config) eqn:He;
      [|now rewrite set_disabled by exact He].
    destruct (set_keys config now loc d c He) as (ks1 & Hk & _ & Hks1).
    pose proof (filter_length_le (other_than (key_of loc)) ks1) as Hle.
    destruct (size c >=? maxEntries c) eqn:Hfull;
      destruct (JSMap.has (key_of loc) (cache c)) eqn:Hhas;
      simpl in Hks1; rewrite size_keys_of in *; rewrite Hk, length_app; simpl.
    + subst ks1. apply has_keys_of in Hhas.
      pose proof (filter_other_length _ _ Hhas). lia.
    + destruct (keys_of c) as [|k0 rest] eqn:Hks.
      * subst ks1. simpl. lia.
      * inversion Hne as [|? ? Hk0 _]; subst.
        destruct (String.eqb_spec k0 EmptyString) as [->|_]; [congruence|].
        cbn [negb] in *.
        pose proof (filter_other_length k0 (k0 :: rest) (or_introl eq_refl)).
        lia.
    + subst ks1. lia.
    + subst ks1. lia.
  - (* has *)
    simpl in *.
    destruct (has_cases now loc c)
      as [[Heq _]|[(entry & Hg & Hx & Heq)|(entry & Hg & Hx & Heq)]];
      rewrite Heq in *; simpl in *; try exact Hsz.
    destruct Hk as [p Hp]. rewrite size_keys_of in *. rewrite Hp.
    pose proof (filter_length_le p (keys_of c)). lia.
  - simpl. unfold size, JSMap.size. simpl. lia.
Qed.

Lemma NoDup_snoc (l : list string) (k : string) :
  NoDup l -> ~ In k l -> NoDup (l ++ [k]).
Proof.
  intros Hnd Hn. apply NoDup_app; [exact Hnd | repeat constructor; auto |].
  intros x Hx [<-|[]]. contradiction.
Qed.

Lemma step_well_formed config o h c :
  1 <= maxEntries c -> well_formed c ->
  well_formed (snd (step config o (h, c))).
Proof.
  intros Hmax Hwf. pose proof (step_size config o h c Hmax Hwf) as Hsz.
  destruct Hwf as (Hnd & Hne & _).
  destruct (step_keys config o h c) as (Hm & _ & Hk).
  unfold well_formed. rewrite Hm.
  destruct (touched config o (h, c)) as [k|].
  - destruct Hk as (Hk0 & p & -> & Hp). repeat split; [| |exact Hsz].
    + apply NoDup_snoc; [now apply NoDup_filter|].
      rewrite filter_In. intros [_ H]. now apply (Hp k).
    + apply Forall_app. split; [|now repeat constructor].
      rewrite Forall_forall in *. intros x Hx. apply Hne.
      now apply filter_In in Hx.
  - destruct Hk as (p & ->). repeat split; [| |exact Hsz].
    + now apply NoDup_filter.
    + rewrite Forall_forall in *. intros x Hx. apply Hne.
      now apply filter_In in Hx.
Qed.

Lemma run_snoc config ops o st :
  run config (ops ++ [o]) st = step config o (run config ops st).
Proof. unfold run. now rewrite fold_left_app. Qed.

Lemma run_fields config ops st :
  maxEntries (snd (run config ops st)) = maxEntries (snd st)
  /\ ttl (snd (run config ops st)) = ttl (snd st).
Proof.
  induction ops as [|o ops IH] using rev_ind; [now split|].
  rewrite run_snoc. destruct (run config ops st) as [h c].
  destruct (step_keys config o h c) as (Hm & Ht & _). simpl in *.
  destruct IH. split; congruence.
Qed.

Lemma run_well_formed config ops st :
  1 <= maxEntries (snd st) -> well_formed (snd st) ->
  well_formed (snd (run config ops st)).
Proof.
  intros Hmax Hwf. induction ops as [|o ops IH] using rev_ind; [exact Hwf|].
  rewrite run_snoc. pose proof (run_fields config ops st) as [Hm _].
  destruct (run config ops st) as [h c]. simpl in *.
  apply step_well_formed; [lia | exact IH].
Qed.

Lemma new_well_formed config maxE t :
  0 <= maxEntries (new config maxE t) -> well_formed (new config maxE t).
Proof.
  intros H. unfold well_formed, keys_of, size. simpl. repeat split.
  - constructor.
  - constructor.
  - exact H.
Qed.

(** ** The keys are ordered by their last touch *)

Lemma last_touch_snoc config ops o st i k :
  last_touch config (ops ++ [o]) st i k =
  match touched config o (run config ops st) with
  | Some k' => if String.eqb k k' then Some (i + List.length ops)%nat
               else last_touch config ops st i k
  | None => last_touch config ops st i k
  end.
Proof.
  revert st i. induction ops as [|o1 ops IH]; intros st i; simpl.
  - rewrite Nat.add_0_r. destruct (touched config o st) as [k'|]; [|reflexivity].
    now destruct (String.eqb k k').
  - rewrite IH. change (fold_left (fun s x => step config x s) ops (step config o1 st))
      with (run config ops (step config o1 st)).
    destruct (touched config o (run config ops (step config o1 st))) as [k'|];
      [|reflexivity].
    destruct (String.eqb k k'); [|reflexivity].
    f_equal. lia.
Qed.

Lemma last_touch_bound config ops st i k j :
  last_touch config ops st i k = Some j -> (i <= j < i + List.length ops)%nat.
Proof.
  revert st i. induction ops as [|o ops IH]; intros st i; simpl; [discriminate|].
  destruct (last_touch config ops (step config o st) (S i) k) as [j'|] eqn:Hl.
  - intros [= <-]. apply IH in Hl. lia.
  - destruct (touched config o st) as [k'|]; [|discriminate].
    destruct (String.eqb k k'); [|discriminate]. intros [= <-]. lia.
Qed.

Lemma rank_bound config ops st k : (rank config ops st k <= List.length ops)%nat.
Proof.
  unfold rank. destruct (last_touch config ops st 0 k) as [j|] eqn:Hl; [|lia].
  apply last_touch_bound in Hl. lia.
Qed.

Lemma rank_snoc config ops o st k :
  rank config (ops ++ [o]) st k =
  match touched config o (run config ops st) with
  | Some k' => if String.eqb k k' then S (List.length ops)
               else rank config ops st k
  | None => rank config ops st k
  end.
Proof.
  unfold rank. rewrite last_touch_snoc.
  destruct (touched config o (run config ops st)) as [k'|]; [|reflexivity].
  now destruct (String.eqb k k').
Qed.

Lemma ordered_by_filter r p ks :
  ordered_by r ks -> ordered_by r (filter p ks).
Proof.
  induction ks as [|k ks IH]; simpl; [auto|]. intros [Hall Hord].
  destruct (p k); simpl; [|auto]. split; [|auto].
  rewrite Forall_forall in *. intros x Hx. apply Hall.
  now apply filter_In in Hx.
Qed.

Lemma ordered_by_ext r r' ks :
  (forall x, In x ks -> r x = r' x) -> ordered_by r ks -> ordered_by r' ks.
Proof.
  induction ks as [|k ks IH]; simpl; [auto|]. intros Hext [Hall Hord].
  split; [|apply IH; auto].
  rewrite Forall_forall in *. intros x Hx.
  rewrite <- (Hext k), <- (Hext x); auto.
Qed.

Lemma ordered_by_snoc r ks k :
  ordered_by r ks -> Forall (fun x => (r x < r k)%nat) ks ->
  ordered_by r (ks ++ [k]).
Proof.
  induction ks as [|k0 ks IH]; simpl; [auto|]. intros [Hall Hord] Hlt.
  inversion Hlt; subst. split; [|auto].
  apply Forall_app. split; [exact Hall | now repeat constructor].
Qed.

Lemma run_ordered config ops st :
  keys_of (snd st) = [] ->
  ordered_by (rank config ops st) (keys_of (snd (run config ops st))).
Proof.
  intros Hempty. induction ops as [|o ops IH] using rev_ind.
  - simpl. now rewrite Hempty.
  - rewrite run_snoc.
    assert (Hr : forall k, rank config (ops ++ [o]) st k =
               match touched config o (run config ops st) with
               | Some k' => if String.eqb k k' then S (List.length ops)
                            else rank config ops st k
               | None => rank config ops st k
               end) by (intro; apply rank_snoc).
    destruct (run config ops st) as [h c]. simpl in IH.
    destruct (step_keys config o h c) as (_ & _ & Hk).
    destruct (touched config o (h, c)) as [k|].
    + destruct Hk as (_ & p & -> & Hp).
      assert (Hsame : forall x, In x (filter p (keys_of c)) ->
                 rank config ops st x = rank config (ops ++ [o]) st x).
      { intros x Hx. rewrite Hr. apply filter_In in Hx.
        destruct (String.eqb_spec x k) as [->|_]; [|reflexivity].
        exfalso. now apply (Hp k). }
      apply ordered_by_snoc.
      * apply (ordered_by_ext (rank config ops st)); [exact Hsame|].
        now apply ordered_by_filter.
      * rewrite Forall_forall. intros x Hx. rewrite <- (Hsame x Hx).
        rewrite (Hr k), String.eqb_refl.
        pose proof (rank_bound config ops st x). lia.
    + destruct Hk as (p & ->).
      apply (ordered_by_ext (rank config ops st)).
      * intros x _. now rewrite Hr.
      * now apply ordered_by_filter.
Qed.

(** Every stored key has been touched. *)
Lemma run_touched config ops st :
  keys_of (snd st) = [] ->
  Forall (fun k => (1 <= rank config ops st k)%nat)
         (keys_of (snd (run config ops st))).
Proof.
  intros Hempty. induction ops as [|o ops IH] using rev_ind.
  - simpl. rewrite Hempty. constructor.
  - rewrite run_snoc.
    assert (Hr : forall k, rank config (ops ++ [o]) st k =
               match touched config o (run config ops st) with
               | Some k' => if String.eqb k k' then S (List.length ops)
                            else rank config ops st k
               | None => rank config ops st k
               end) by (intro; apply rank_snoc).
    destruct (run config ops st) as [h c]. simpl in IH.
    destruct (step_keys config o h c) as (_ & _ & Hk).
    rewrite Forall_forall in *. intros x Hx. rewrite Hr.
    destruct (touched config o (h, c)) as [k|].
    + destruct Hk as (_ & p & Hk & Hp). rewrite Hk in Hx.
      apply in_app_or in Hx. destruct (String.eqb_spec x k); [lia|].
      destruct Hx as [Hx|[Hx|[]]]; [|congruence].
      apply IH. now apply filter_In in Hx.
    + destruct Hk as (p & Hk). rewrite Hk in Hx.
      apply IH. now apply filter_In in Hx.
Qed.

Lemma two_keys_other (l : list string) (k : string) :
  NoDup l -> (2 <= List.length l)%nat -> exists x, In x l /\ x <> k.
Proof.
  destruct l as [|a [|b l]]; simpl; try lia. intros Hnd _.
  inversion Hnd as [|? ? Hna _]; subst.
  destruct (String.eqb_spec a k) as [->|Hne].
  - exists b. split; [auto|]. intros ->. apply Hna. now left.
  - exists a. auto.
Qed.

Lemma other_than_true k x : other_than k x = true <-> x <> k.
Proof.
  unfold other_than. destruct (String.eqb_spec k x); simpl; split;
    intros; congruence.
Qed.

(** An insert of a new key into a full, well-formed cache evicts the
    first key and nothing else. *)
Lemma set_full_keys config now loc d c :
  isEnabled config = true -> 1 <= maxEntries c -> well_formed c ->
  size c = maxEntries c -> ~ In (key_of loc) (keys_of c) ->
  exists k0 rest,
    keys_of c = k0 :: rest
    /\ keys_of (set config now loc d c) = rest ++ [key_of loc].
Proof.
  intros He Hmax (Hnd & Hne & _) Hfull Hnew.
  destruct (set_keys config now loc d c He) as (ks1 & Hk & _ & Hks1).
  assert (Hhas : JSMap.has (key_of loc) (cache c) = false)
    by now apply has_false.
  rewrite Hhas in Hks1.
  replace (size c >=? maxEntries c) with true in Hks1 by (symmetry; lia).
  simpl in Hks1. rewrite size_keys_of in Hfull.
  destruct (keys_of c) as [|k0 rest] eqn:Hks; [simpl in Hfull; lia|].
  exists k0, rest. split; [reflexivity|].
  inversion Hne as [|? ? Hk0 _]; subst.
  destruct (String.eqb_spec k0 EmptyString) as [->|_]; [congruence|].
  cbn [negb] in Hk. rewrite filter_other_head in Hk by exact Hnd.
  rewrite filter_other_absent in Hk; [exact Hk|].
  intros Hin. apply Hnew. now right.
Qed.

(** A key that [get] has just returned survives the next insert of
    another key, as long as it is not the only entry. *)
Lemma set_after_hit_keeps config now' loc' d c key :
  isEnabled config = true -> well_formed c ->
  key_of loc' <> key ->
  (exists k0 l, keys_of c = k0 :: l ++ [key]) ->
  In key (keys_of (set config now' loc' d c)).
Proof.
  intros He (Hnd & Hne & _) Hdiff (k0 & l & Hks).
  destruct (set_keys config now' loc' d c He) as (ks1 & Hk & _ & Hks1).
  rewrite Hk. apply in_or_app. left. apply filter_In.
  split; [|apply other_than_true; congruence].
  rewrite Hks1. rewrite Hks in *.
  destruct (_ && _); [|apply in_cons, in_or_app; right; now left].
  destruct (negb _); [|apply in_cons, in_or_app; right; now left].
  apply filter_In. split; [apply in_cons, in_or_app; right; now left|].
  apply other_than_true. intros ->.
  inversion Hnd as [|? ? Hn _]; subst. apply Hn.
  apply in_or_app. right. now left.
Qed.

Lemma get_hit_state config now loc h c r h' c' :
  get config now loc h c = (Some r, h', c') ->
  exists entry,
    isEnabled config = true
    /\ JSMap.get (key_of loc) (cache c) = Some entry
    /\ now <= expiresAt entry
    /\ r = next h
    /\ h' = snd (alloc h (with_source (deref h (data entry)) src_cache))
    /\ c' = with_cache c (JSMap.set (key_of loc) entry
                            (JSMap.delete (key_of loc) (cache c))).
Proof.
  intros H.
  destruct (get_cases config now loc h c)
    as [[Heq _]|[(entry & He & Hg & Hx & Heq)|(entry & He & Hg & Hx & Heq)]];
    rewrite Heq in H; try discriminate.
  injection H as <- <- <-. exists entry. repeat split; auto.
Qed.

Lemma get_hit_keys config now loc h c r h' c' :
  get config now loc h c = (Some r, h', c') ->
  In (key_of loc) (keys_of c)
  /\ keys_of c' = filter (other_than (key_of loc)) (keys_of c) ++ [key_of loc].
Proof.
  intros H. apply get_hit_state in H.
  destruct H as (entry & _ & Hg & _ & _ & _ & ->). split.
  - eapply get_In, Hg.
  - unfold keys_of. simpl. apply keys_move_to_end.
Qed.

(** C3 (amended). For an integer capacity [maxEntries >= 1] and caching
    enabled, after every history of calls ([get], [set], [has], [clear],
    at any clock readings) on a new cache:
    - the store holds at most [maxEntries] entries;
    - a [set] of a key not present, with the store at [maxEntries],
      evicts exactly one entry, the first key [k0] of the store, and [k0]
      is the least recently used: every other stored key was touched
      (by a [get] that hit or by a [set]) later in the history than [k0];
    - a [get] that hits moves its key to the most recently used end and
      keeps the order of the others, and so does a [set];
    - a [get] that hits, in a store of at least two entries, protects its
      key from the eviction of the insert that follows. *)
Theorem lru_bounded_eviction :
  forall (config : Config) (maxE t : option Z) (h0 : Heap) (ops : list op),
    let start := (h0, new config maxE t) in
    let h := fst (run config ops start) in
    let c := snd (run config ops start) in
    1 <= maxEntries (new config maxE t) ->
    isEnabled config = true ->
    size c <= maxEntries c
    /\ maxEntries c = maxEntries (new config maxE t)
    /\ (forall now loc d,
          size c = maxEntries c -> ~ In (key_of loc) (keys_of c) ->
          exists k0 rest,
            keys_of c = k0 :: rest
            /\ keys_of (set config now loc d c) = rest ++ [key_of loc]
            /\ ~ In k0 (rest ++ [key_of loc])
            /\ (1 <= rank config ops start k0)%nat
            /\ Forall (fun k => (rank config ops start k0
                                 < rank config ops start k)%nat) rest)
    /\ (forall now loc r h' c',
          get config now loc h c = (Some r, h', c') ->
          keys_of c'
          = filter (other_than (key_of loc)) (keys_of c) ++ [key_of loc])
    /\ (forall now loc d,
          exists p,
            keys_of (set config now loc d c)
            = filter p (keys_of c) ++ [key_of loc])
    /\ (forall now loc r h' c' now' loc' d,
          get config now loc h c = (Some r, h', c') ->
          2 <= size c ->
          key_of loc' <> key_of loc ->
          In (key_of loc) (keys_of (set config now' loc' d c'))).
Proof.
  intros config maxE t h0 ops start h c Hmax He.
  assert (Hwf : well_formed c).
  { apply run_well_formed; simpl; [exact Hmax|].
    apply new_well_formed. lia. }
  assert (Hm : maxEntries c = maxEntries (new config maxE t))
    by apply (run_fields config ops start).
  pose proof (run_ordered config ops start eq_refl) as Hord.
  pose proof (run_touched config ops start eq_refl) as Htouched.
  fold c in Hord, Htouched.
  split; [apply Hwf|]. split; [exact Hm|]. split; [|split; [|split]].
  - intros now loc d Hfull Hnew.
    destruct (set_full_keys config now loc d c He) as (k0 & rest & Hks & Hk);
      auto; [lia|].
    exists k0, rest. rewrite Hks in Hord, Htouched. simpl in Hord.
    destruct Hwf as (Hnd & _). rewrite Hks in Hnd.
    inversion Hnd as [|? ? Hn0 _]; subst.
    inversion Htouched; subst.
    repeat split; auto; [|apply Hord].
    intros Hin. apply in_app_or in Hin. destruct Hin as [Hin|[Hin|[]]].
    + contradiction.
    + apply Hnew. rewrite Hks, Hin. now left.
  - intros now loc r h' c' Hget. now apply get_hit_keys in Hget.
  - intros now loc d.
    destruct (step_keys config (OpSet now loc d) h c) as (_ & _ & Hk).
    simpl in Hk. rewrite He in Hk. destruct Hk as (_ & p & Hp & _).
    now exists p.
  - intros now loc r h' c' now' loc' d Hget Htwo Hdiff.
    assert (Hwf' : well_formed c').
    { pose proof (step_well_formed config (OpGet now loc) h c) as Hs.
      simpl in Hs. rewrite Hget in Hs. simpl in Hs. apply Hs; [lia | exact Hwf]. }
    apply get_hit_keys in Hget. destruct Hget as [Hin Hk'].
    apply set_after_hit_keeps; auto.
    destruct Hwf as (Hnd & _).
    rewrite size_keys_of in Htwo.
    destruct (two_keys_other (keys_of c) (key_of loc) Hnd) as (x & Hx & Hxk);
      [lia|].
    assert (Hf : In x (filter (other_than (key_of loc)) (keys_of c)))
      by (apply filter_In; split; [exact Hx | now apply other_than_true]).
    rewrite Hk'.
    destruct (filter (other_than (key_of loc)) (keys_of c)) as [|k0 l];
      [destruct Hf|].
    now exists k0, l.
Qed.

(** ** What a hit returns *)

Lemma alloc_fresh h d :
  ~ allocated h (fst (alloc h d))
  /\ allocated (snd (alloc h d)) (fst (alloc h d))
  /\ deref (snd (alloc h d)) (fst (alloc h d)) = d
  /\ (forall r0, allocated h r0 -> deref (snd (alloc h d)) r0 = deref h r0).
Proof.
  unfold allocated, alloc, deref. simpl. repeat split; try lia.
  - now rewrite Nat.eqb_refl.
  - intros r0 Hr0. destruct (Nat.eqb_spec r0 (next h)); [lia | reflexivity].
Qed.

(** C5. When caching is enabled and [get] finds an entry that has not
    expired, it returns a new object: a copy of the stored payload whose
    [source] is [cache] and whose other fields are those of the stored
    payload (the nested objects are shared, not copied).  No object that
    existed before the call is modified, so the stored payload keeps its
    [source] and all its fields, and the entry found under the key is
    the same entry as before. *)
Theorem get_hit_returns_marked_copy :
  forall (config : Config) (now : Z) (loc : Coordinates) (h : Heap)
         (c : WeatherCache) (entry : CacheEntry),
    isEnabled config = true ->
    JSMap.get (key_of loc) (cache c) = Some entry ->
    now <= expiresAt entry ->
    allocated h (data entry) ->
    exists r h' c',
      get config now loc h c = (Some r, h', c')
      /\ ~ allocated h r
      /\ r <> data entry
      /\ source (deref h' r) = src_cache
      /\ current (deref h' r) = current (deref h (data entry))
      /\ forecast (deref h' r) = forecast (deref h (data entry))
      /\ location (deref h' r) = location (deref h (data entry))
      /\ Weather.timestamp (deref h' r) = Weather.timestamp (deref h (data entry))
      /\ (forall r0, allocated h r0 -> deref h' r0 = deref h r0)
      /\ deref h' (data entry) = deref h (data entry)
      /\ JSMap.get (key_of loc) (cache c') = Some entry.
Proof.
  intros config now loc h c entry He Hg Hx Ha.
  destruct (get_cases config now loc h c)
    as [[_ [Hd|Hn]]|[(e' & _ & Hg' & Hx' & _)|(e' & _ & Hg' & _ & Heq)]];
    try congruence;
    try (exfalso; rewrite Hg in Hg'; injection Hg' as <-; lia).
  rewrite Hg in Hg'. injection Hg' as <-.
  set (d := with_source (deref h (data entry)) src_cache) in *.
  destruct (alloc_fresh h d) as (Hfresh & _ & Hd & Hframe).
  change (fst (alloc h d)) with (next h) in Hfresh, Hd.
  exists (next h), (snd (alloc h d)), 
    (with_cache c (JSMap.set (key_of loc) entry
                     (JSMap.delete (key_of loc) (cache c)))).
  split; [exact Heq|]. split; [exact Hfresh|].
  split; [intros Heq'; apply Hfresh; now rewrite Heq'|].
  rewrite Hd. repeat split; auto.
  simpl. apply get_move_to_end.
Qed.

(** ** The cache key *)

Lemma fixed_int_nearest (f : nat) (m : positive) (e : Z) :
  let n := JSNumber.fixed_int f m e in
  let num := JSNumber.mag_num m e * 10 ^ Z.of_nat f in
  let den := JSNumber.mag_den e in
  0 < den
  /\ 2 * (n * den - num) <= den
  /\ 2 * (num - n * den) < den.
Proof.
  unfold JSNumber.fixed_int. cbv zeta.
  set (num := JSNumber.mag_num m e * 10 ^ Z.of_nat f).
  set (den := JSNumber.mag_den e).
  assert (Hden : 0 < den).
  { unfold den, JSNumber.mag_den. destruct (0 <=? e) eqn:He; [lia|].
    apply Z.pow_pos_nonneg; lia. }
  replace (2 * JSNumber.mag_num m e * 10 ^ Z.of_nat f) with (2 * num)
    by (unfold num; ring).
  split; [exact Hden|].
  pose proof (Z.mul_div_le (2 * num + den) (2 * den) ltac:(lia)).
  pose proof (Z.mul_succ_div_gt (2 * num + den) (2 * den) ltac:(lia)).
  nia.
Qed.

Lemma short_key_is_precise_key : key_of Samples.sf_short = key_of Samples.sf_precise.
Proof. vm_compute. reflexivity. Qed.

Lemma get_after_set config now now' loc loc' d h c :
  isEnabled config = true ->
  key_of loc' = key_of loc ->
  now' <= now + ttl c ->
  exists r h' c',
    get config now' loc' h (set config now loc d c) = (Some r, h', c')
    /\ deref h' r = with_source (deref h d) src_cache.
Proof.
  intros He Hkey Hx.
  destruct (set_keys config now loc d c He) as (_ & _ & Hg & _).
  rewrite <- Hkey in Hg.
  destruct (get_cases config now' loc' h (set config now loc d c))
    as [[_ [Hd|Hn]]|[(e' & _ & Hg' & Hx' & _)|(e' & _ & Hg' & _ & Heq)]];
    try congruence;
    try (exfalso; rewrite Hg in Hg'; injection Hg' as <-; simpl in Hx'; lia).
  rewrite Hg in Hg'. injection Hg' as <-. simpl in Heq.
  do 3 eexists. split; [exact Heq|].
  apply (alloc_fresh h (with_source (deref h d) src_cache)).
Qed.

(** C9. The cache key is [lat.toFixed(4)], a comma, [lon.toFixed(4)];
    for a finite coordinate of magnitude below 10^21, [toFixed(4)] prints
    the integer [n] nearest to the coordinate times 10^4 (the larger one
    on a tie) with four digits after the point.  The pairs
    (37.774912345, -122.419412345) and (37.77491, -122.41941) both have
    the key "37.7749,-122.4194", so with caching enabled a [set] with the
    first pair followed, within the TTL, by a [get] with the second pair
    is a hit. *)
Theorem cache_key_rounds_to_four_decimals :
  (forall lat lon,
      getCacheKey lat lon
      = (JSNumber.toFixed 4 lat ++ "," ++ JSNumber.toFixed 4 lon)%string)
  /\ (forall s m e,
         JSNumber.mag_num m e < 10 ^ 21 * JSNumber.mag_den e ->
         let n := JSNumber.fixed_int 4 m e in
         JSNumber.toFixed 4 (S754_finite s m e)
         = ((if s then "-" else EmptyString)
            ++ JSNumber.fixed_digits 4 n)%string
         /\ 2 * (n * JSNumber.mag_den e - JSNumber.mag_num m e * 10 ^ 4)
            <= JSNumber.mag_den e
         /\ 2 * (JSNumber.mag_num m e * 10 ^ 4 - n * JSNumber.mag_den e)
            < JSNumber.mag_den e)
  /\ key_of Samples.sf_precise = "37.7749,-122.4194"%string
  /\ key_of Samples.sf_short = "37.7749,-122.4194"%string
  /\ (forall config now now' d h c,
         isEnabled config = true ->
         now' <= now + ttl c ->
         exists r h' c',
           get config now' Samples.sf_short h
               (set config now Samples.sf_precise d c) = (Some r, h', c')
           /\ deref h' r = with_source (deref h d) src_cache).
Proof.
  split; [reflexivity|]. split; [|split; [|split]].
  - intros s m e Hlt n. split.
    + unfold JSNumber.toFixed.
      replace (10 ^ 21 * JSNumber.mag_den e <=? JSNumber.mag_num m e)
        with false by (symmetry; lia).
      reflexivity.
    + apply (fixed_int_nearest 4 m e).
  - vm_compute. reflexivity.
  - vm_compute. reflexivity.
  - intros config now now' d h c He Hx.
    apply get_after_set;
      [exact He | apply short_key_is_precise_key | exact Hx].
Qed.

(** ** The enabled flag *)

(** A stored key makes the store non-empty. *)
Lemma get_Some_size {V : Type} (k : string) (m : JSMap.t V) (v : V) :
  JSMap.get k m = Some v -> 1 <= JSMap.size m.
Proof.
  destruct m as [|[k' v'] m]; [discriminate|].
  intros _. unfold JSMap.size. simpl List.length. lia.
Qed.

(** C10. [has] takes no configuration: it never reads the enabled flag.
    With caching disabled and an entry for the location that has not
    expired, [has] answers true and leaves the cache as it is, while
    [get] answers null for the same location; [get] on the same state
    with caching enabled is a hit.  [has] is not the only read that
    ignores the flag: [size] and [getStats] report the stored entry on
    the same state (a size of at least one, next to [enabled: false]),
    so [get] is the one read operation that the flag gates. *)
Theorem has_ignores_disabled_flag :
  forall (config : Config) (now : Z) (loc : Coordinates) (h : Heap)
         (c : WeatherCache) (entry : CacheEntry),
    isEnabled config = false ->
    JSMap.get (key_of loc) (cache c) = Some entry ->
    now <= expiresAt entry ->
    has now loc c = (true, c)
    /\ get config now loc h c = (None, h, c)
    /\ (forall config', isEnabled config' = true ->
          exists r h' c', get config' now loc h c = (Some r, h', c'))
    /\ 1 <= size c
    /\ stats_size (getStats config c) = size c
    /\ stats_enabled (getStats config c) = false.
Proof.
  intros config now loc h c entry Hd Hg Hx.
  split; [|split; [|split; [|split; [|split]]]];
    [| | | exact (get_Some_size _ _ _ Hg) | reflexivity | exact Hd].
  - destruct (has_cases now loc c)
      as [[_ Hn]|[(e' & Hg' & Hx' & _)|(e' & _ & _ & Heq)]];
      [congruence | | exact Heq].
    exfalso. rewrite Hg in Hg'. injection Hg' as <-. lia.
  - unfold get. now rewrite Hd.
  - intros config' He.
    destruct (get_cases config' now loc h c)
      as [[_ [Hd'|Hn]]|[(e' & _ & Hg' & Hx' & _)|(e' & _ & _ & _ & Heq)]];
      try congruence;
      try (exfalso; rewrite Hg in Hg'; injection Hg' as <-; lia).
    do 3 eexists. exact Heq.
Qed.

(** ** Concrete runs *)

(** C3, as stated, fails for a capacity of zero: one [set] on a new
    cache of capacity 0 leaves one entry in the store. *)
Lemma capacity_zero_overflows :
  isEnabled DEFAULT_CONFIG = true
  /\ maxEntries Samples.cache_zero = 0
  /\ size (snd (run DEFAULT_CONFIG Samples.one_insert
                  (Samples.heap0, Samples.cache_zero))) = 1
  /\ ~ size (snd (run DEFAULT_CONFIG Samples.one_insert
                    (Samples.heap0, Samples.cache_zero)))
       <= maxEntries Samples.cache_zero.
Proof.
  repeat split; try reflexivity. vm_compute. intros H. now apply H.
Qed.

(** C10, as stated, fails in its last clause: with caching disabled
    and one unexpired entry stored, [get] is bypassed, and yet [size]
    and [getStats] read the store just as [has] does. *)
Lemma size_and_getStats_ignore_disabled_flag :
  isEnabled Samples.config_disabled = false
  /\ get Samples.config_disabled 5 Samples.paris Samples.heap0 Samples.cache_paris
     = (None, Samples.heap0, Samples.cache_paris)
  /\ has 5 Samples.paris Samples.cache_paris = (true, Samples.cache_paris)
  /\ size Samples.cache_paris = 1
  /\ getStats Samples.config_disabled Samples.cache_paris
     = {| stats_size := 1;
          stats_maxEntries := 2;
          stats_ttl := 600000;
          stats_enabled := false |}.
Proof.
  repeat split; vm_compute; reflexivity.
Qed.

(** A capacity of two, two inserts, then a third key: the first key
    inserted is evicted; read just before, it is kept instead. *)
Lemma lru_bounded_eviction_witness :
  1 <= maxEntries (new DEFAULT_CONFIG (Some 2) None)
  /\ isEnabled DEFAULT_CONFIG = true
  /\ (let h := fst (run DEFAULT_CONFIG Samples.two_inserts
                      (Samples.heap0, Samples.cache2)) in
      let c := snd (run DEFAULT_CONFIG Samples.two_inserts
                      (Samples.heap0, Samples.cache2)) in
      size c <= maxEntries c
      /\ (exists k0 rest,
             keys_of c = k0 :: rest
             /\ keys_of (set DEFAULT_CONFIG 3 Samples.quito 0%nat c)
                = rest ++ [key_of Samples.quito])
      /\ match get DEFAULT_CONFIG 2 Samples.paris h c with
         | (Some _, _, c') =>
             In (key_of Samples.paris)
                (keys_of (set DEFAULT_CONFIG 3 Samples.quito 0%nat c'))
         | _ => False
         end).
Proof.
  assert (H1 : 1 <= maxEntries (new DEFAULT_CONFIG (Some 2) None))
    by (simpl; lia).
  assert (H2 : isEnabled DEFAULT_CONFIG = true) by reflexivity.
  split; [exact H1|]. split; [exact H2|].
  destruct (lru_bounded_eviction DEFAULT_CONFIG (Some 2) None Samples.heap0
              Samples.two_inserts H1 H2)
    as (Hb & _ & Hev & _ & _ & Hprot).
  split; [exact Hb|]. split.
  - destruct (Hev 3 Samples.quito 0%nat) as (k0 & rest & Hk & Hs & _).
    + vm_compute. reflexivity.
    + vm_compute. intros [H|[H|[]]]; discriminate.
    + exists k0, rest. split; [exact Hk | exact Hs].
  - pose proof (Hprot 2 Samples.paris) as Hp.
    destruct (get DEFAULT_CONFIG 2 Samples.paris
                (fst (run DEFAULT_CONFIG Samples.two_inserts
                        (Samples.heap0, Samples.cache2)))
                (snd (run DEFAULT_CONFIG Samples.two_inserts
                        (Samples.heap0, Samples.cache2))))
      as [[[r|] h'] c'] eqn:Hget.
    + apply (Hp r h' c' 3 Samples.quito 0%nat Hget).
      * vm_compute. discriminate.
      * vm_compute. discriminate.
    + apply (f_equal (fun x => fst (fst x))) in Hget.
      vm_compute in Hget. discriminate.
Defined.

Lemma get_hit_returns_marked_copy_witness :
  exists r h' c',
    get DEFAULT_CONFIG 5 Samples.paris Samples.heap0 Samples.cache_paris
    = (Some r, h', c')
    /\ source (deref h' r) = src_cache
    /\ source (deref h' 0%nat) = src_api.
Proof.
  destruct (get_hit_returns_marked_copy DEFAULT_CONFIG 5 Samples.paris
              Samples.heap0 Samples.cache_paris Samples.entry_paris)
    as (r & h' & c' & Hget & _ & _ & Hsrc & _ & _ & _ & _ & _ & Hkeep & _).
  - reflexivity.
  - vm_compute. reflexivity.
  - simpl. lia.
  - unfold allocated. simpl. lia.
  - exists r, h', c'. split; [exact Hget|]. split; [exact Hsrc|].
    simpl in Hkeep. now rewrite Hkeep.
Defined.

Lemma cache_key_rounds_to_four_decimals_witness :
  (exists r h' c',
      get DEFAULT_CONFIG 1000 Samples.sf_short Samples.heap0
          (set DEFAULT_CONFIG 0 Samples.sf_precise 0%nat Samples.cache2)
      = (Some r, h', c'))
  /\ JSNumber.toFixed 4 (S754_finite false 5316346286277973 (-47))
     = "37.7749"%string.
Proof.
  destruct cache_key_rounds_to_four_decimals as (_ & Hround & _ & _ & Hhit).
  split.
  - destruct (Hhit DEFAULT_CONFIG 0 1000 0%nat Samples.heap0 Samples.cache2)
      as (r & h' & c' & Hget & _).
    + reflexivity.
    + simpl. lia.
    + now exists r, h', c'.
  - destruct (Hround false 5316346286277973%positive (-47)) as (Hfix & _).
    + vm_compute. reflexivity.
    + rewrite Hfix. vm_compute. reflexivity.
Defined.

Lemma has_ignores_disabled_flag_witness :
  has 5 Samples.paris Samples.cache_paris = (true, Samples.cache_paris)
  /\ get Samples.config_disabled 5 Samples.paris Samples.heap0 Samples.cache_paris
     = (None, Samples.heap0, Samples.cache_paris)
  /\ 1 <= size Samples.cache_paris
  /\ stats_enabled (getStats Samples.config_disabled Samples.cache_paris) = false.
Proof.
  destruct (has_ignores_disabled_flag Samples.config_disabled 5 Samples.paris
              Samples.heap0 Samples.cache_paris Samples.entry_paris)
    as (Hhas & Hget & _ & Hsize & _ & Hflag).
  - reflexivity.
  - vm_compute. reflexivity.
  - simpl. lia.
  - split; [exact Hhas|]. split; [exact Hget|]. split; [exact Hsize | exact Hflag].
Defined.

End CacheFacts.

(* ===================================================================== *)
(** * Facts about runs                                                    *)
(* ===================================================================== *)

Module AsyncFacts.

Import Async.

Section Run.
Context {R : Type -> Type} {W : Type}.
Context (handle : forall X : Type, R X -> W -> X * W).

Lemma run_bind {A B : Type} (p : io R A) (f : A -> io R B) (w : W) :
  run handle (bind p f) w =
  let '(a, w1, t1) := run handle p w in
  let '(b, w2, t2) := run handle (f a) w1 in
  (b, w2, t1 ++ t2).
Proof.
  revert w. induction p as [a|l msg k IH|X r k IH]; intros w; simpl.
  - now destruct (run handle (f a) w) as [[b w2] t2].
  - rewrite IH. destruct (run handle k w) as [[a w1] t1].
    now destruct (run handle (f a) w1) as [[b w2] t2].
  - destruct (handle X r w) as [x w0]. rewrite IH.
    destruct (run handle (k x) w0) as [[a w1] t1].
    now destruct (run handle (f a) w1) as [[b w2] t2].
Qed.

Lemma run_try_catch {E A : Type} (p : io R (settled E A))
    (h : E -> io R (settled E A)) (w : W) :
  run handle (try_catch p h) w =
  let '(r, w1, t1) := run handle p w in
  match r with
  | Resolved a => (Resolved a, w1, t1)
  | Rejected e =>
      let '(r2, w2, t2) := run handle (h e) w1 in (r2, w2, t1 ++ t2)
  end.
Proof.
  unfold try_catch. rewrite run_bind.
  destruct (run handle p w) as [[[a|e] w1] t1]; simpl.
  - now rewrite app_nil_r.
  - reflexivity.
Qed.

Lemma run_await {E A B : Type} (p : io R (settled E A))
    (k : A -> io R (settled E B)) (w : W) :
  run handle (await p k) w =
  let '(r, w1, t1) := run handle p w in
  match r with
  | Resolved a =>
      let '(r2, w2, t2) := run handle (k a) w1 in (r2, w2, t1 ++ t2)
  | Rejected e => (Rejected e, w1, t1)
  end.
Proof.
  unfold await. rewrite run_bind.
  destruct (run handle p w) as [[[a|e] w1] t1]; simpl.
  - reflexivity.
  - now rewrite app_nil_r.
Qed.

End Run.

End AsyncFacts.

(* ===================================================================== *)
(** * Facts about location detection                                      *)
(* ===================================================================== *)

Module LocationFacts.

Import JSNumber Env Async Location DetectSpec AsyncFacts.

Section World.
Context {W : Type} (handle : forall X : Type, request X -> W -> X * W).

(** [reverseGeocode] in full: one request, then the names or nothing. *)
Lemma reverseGeocode_run (lat lon : number) (w : W) :
  exists names warnings,
    run handle (reverseGeocode lat lon) w
    = (Resolved names,
       snd (handle _ (FetchReverse lat lon) w),
       Requested (FetchReverse lat lon) :: warnings)
    /\ (forall o, In o warnings -> exists msg, o = Logged warn msg)
    /\ match fst (handle _ (FetchReverse lat lon) w) with
       | Rejected _ => names = no_names
       | Resolved response =>
           if ok response then
             match json response with
             | Rejected _ => names = no_names
             | Resolved None => names = no_names
             | Resolved (Some data) =>
                 match address data with
                 | None => names = no_names
                 | Some a =>
                     names_city names =
                       or_else (addr_city a)
                         (or_else (addr_town a)
                            (or_else (addr_village a)
                               (or_else (addr_hamlet a) (addr_municipality a))))
                     /\ names_country names = addr_country a
                 end
             end
           else names = no_names
       end.
Proof.
  unfold reverseGeocode, await, try_catch, resolve, throw, console, perform.
  simpl.
  destruct (handle _ (FetchReverse lat lon) w) as [[response|e] w1]; simpl.
  - destruct (ok response); simpl.
    + destruct (json response) as [[data|]|e]; simpl.
      * destruct (address data) as [a|]; simpl.
        -- do 2 eexists. split; [reflexivity|]. split; [intros o []|].
           simpl. auto.
        -- do 2 eexists. split; [reflexivity|]. split; [intros o []|].
           reflexivity.
      * do 2 eexists. split; [reflexivity|]. split; [|reflexivity].
        intros o [<-|[]]. eauto.
      * do 2 eexists. split; [reflexivity|]. split; [|reflexivity].
        intros o [<-|[]]. eauto.
    + do 2 eexists. split; [reflexivity|]. split; [|reflexivity].
      intros o [<-|[]]. eauto.
  - do 2 eexists. split; [reflexivity|]. split; [|reflexivity].
    intros o [<-|[]]. eauto.
Qed.

(** ** Quiet traces *)

Lemma quiet_nil : quiet [].
Proof. intros msg []. Qed.

Lemma quiet_request {X : Type} (r : request X) tr :
  quiet tr -> quiet (Requested r :: tr).
Proof. intros H msg [Heq|Hin]; [discriminate | exact (H msg Hin)]. Qed.

Lemma quiet_warnings (ws : list (observed request)) :
  (forall o, In o ws -> exists msg, o = Logged warn msg) -> quiet ws.
Proof.
  intros H msg Hin. destruct (H _ Hin) as [m Hm]. discriminate.
Qed.

(** ** The name lookup of the three steps *)

(** The lookup never reaches its [catch] block: whatever [fallback]
    is, the step resolves with the names [reverseGeocode] returned. *)
Lemma names_step_run (location : Location)
    (fallback : thrown -> promise request Location) (lat lon : number)
    (w : W) :
  exists names warnings,
    run handle
      (try_catch
         (await (reverseGeocode lat lon)
                (fun names => resolve (assign_names names location)))
         fallback) w
    = (Resolved (assign_names names location),
       snd (handle _ (FetchReverse lat lon) w),
       Requested (FetchReverse lat lon) :: warnings)
    /\ run handle (reverseGeocode lat lon) w
       = (Resolved names,
          snd (handle _ (FetchReverse lat lon) w),
          Requested (FetchReverse lat lon) :: warnings)
    /\ quiet warnings.
Proof.
  destruct (reverseGeocode_run lat lon w) as (names & warnings & Hrun & Hw & _).
  exists names, warnings. rewrite run_try_catch, run_await, Hrun.
  unfold resolve. simpl. rewrite app_nil_r.
  repeat split. now apply quiet_warnings.
Qed.

(** ** The GPS step and the IP step *)

Lemma getBrowserLocation_run options w r w' tr :
  run handle (getBrowserLocation options) w = (r, w', tr) ->
  quiet tr /\ (forall loc, r = Resolved loc -> source loc = gps).
Proof.
  unfold getBrowserLocation, perform, throw. cbn [run bind].
  destruct (handle _ Navigator w) as [[| |] w1]; cbn [run bind].
  - intros [= <- <- <-]. split; [|discriminate].
    apply quiet_request, quiet_nil.
  - intros [= <- <- <-]. split; [|discriminate].
    apply quiet_request, quiet_nil.
  - match goal with
    | |- context [handle _ (GetCurrentPosition ?o) w1] =>
        destruct (handle _ (GetCurrentPosition o) w1) as [[error|position] w2]
    end; cbn [run bind].
    + intros [= <- <- <-]. split; [|discriminate].
      apply quiet_request, quiet_request, quiet_nil.
    + match goal with
      | |- context [run handle (try_catch (await _ (fun _ => resolve (assign_names _ ?l))) ?f) w2] =>
          destruct (names_step_run l f (coords_latitude position)
                      (coords_longitude position) w2)
            as (names & warnings & Hrun & _ & Hq)
      end.
      cbn [latitude longitude] in *. rewrite Hrun.
      intros [= <- <- <-]. split.
      * now apply quiet_request, quiet_request, quiet_request.
      * intros loc [= <-]. reflexivity.
Qed.

Lemma getIPLocation_run w r w' tr :
  run handle getIPLocation w = (r, w', tr) ->
  quiet tr /\ (forall loc, r = Resolved loc -> source loc = ip).
Proof.
  unfold getIPLocation. rewrite run_try_catch, run_await.
  unfold perform, throw. cbn [run bind].
  destruct (handle _ FetchIP w) as [[response|e] w1]; cbn [run bind].
  - destruct (ok response); cbn [negb run bind].
    + rewrite run_await. cbn [run bind].
      destruct (json response) as [[data|]|e]; cbn [run bind].
      * destruct (negb (ip_status data =? "success")%string); cbn [run bind].
        -- intros [= <- <- <-]. split; [|discriminate].
           apply quiet_request, quiet_nil.
        -- destruct (ip_lat data) as [lat|], (ip_lon data) as [lon|];
             cbn [run bind];
             try (intros [= <- <- <-]; split; [|discriminate];
                  apply quiet_request, quiet_nil).
           match goal with
           | |- context [run handle (try_catch (await _ (fun _ => resolve (assign_names _ ?l))) ?f) w1] =>
               destruct (names_step_run l f lat lon w1)
                 as (names & warnings & Hrun & _ & Hq)
           end.
           cbn [latitude longitude] in *. rewrite Hrun. cbn [app].
           intros [= <- <- <-]. split.
           ++ now apply quiet_request, quiet_request.
           ++ intros loc [= <-]. reflexivity.
      * intros [= <- <- <-]. split; [|discriminate].
        apply quiet_request, quiet_nil.
      * intros [= <- <- <-]. split; [|discriminate].
        apply quiet_request, quiet_nil.
    + intros [= <- <- <-]. split; [|discriminate].
      apply quiet_request, quiet_nil.
  - intros [= <- <- <-]. split; [|discriminate].
    apply quiet_request, quiet_nil.
Qed.

(** ** The fallback chain *)

Lemma fallbackChain_gps config options w loc w1 t1 :
  run handle (getBrowserLocation options) w = (Resolved loc, w1, t1) ->
  run handle (fallbackChain config options) w
  = (Resolved loc, w1,
     Logged log "Attempting browser geolocation..."
     :: t1 ++ [Logged log "Successfully obtained GPS location"]).
Proof.
  intros H1. unfold fallbackChain, console. rewrite run_try_catch.
  cbn [run]. rewrite run_await, H1. reflexivity.
Qed.

Lemma fallbackChain_ip config options w e w1 t1 loc w2 t2 :
  run handle (getBrowserLocation options) w = (Rejected e, w1, t1) ->
  run handle getIPLocation w1 = (Resolved loc, w2, t2) ->
  run handle (fallbackChain config options) w
  = (Resolved loc, w2,
     (Logged log "Attempting browser geolocation..." :: t1)
     ++ Logged warn "Browser geolocation failed:"
     :: (Logged log "Falling back to IP geolocation..."
         :: t2 ++ [Logged log "Successfully obtained IP-based location"])).
Proof.
  intros H1 H2. unfold fallbackChain, console. rewrite run_try_catch.
  cbn [run]. rewrite run_await, H1. cbn [run].
  rewrite run_try_catch. cbn [run]. rewrite run_await, H2. reflexivity.
Qed.

Lemma fallbackChain_default config options w e w1 t1 e' w2 t2 :
  run handle (getBrowserLocation options) w = (Rejected e, w1, t1) ->
  run handle getIPLocation w1 = (Rejected e', w2, t2) ->
  exists names warnings,
    run handle (fallbackChain config options) w
    = (Resolved (assign_names names (default_location config)),
       snd (handle _ (FetchReverse (defaultLat config) (defaultLon config)) w2),
       (Logged log "Attempting browser geolocation..." :: t1)
       ++ Logged warn "Browser geolocation failed:"
       :: (Logged log "Falling back to IP geolocation..." :: t2)
       ++ Logged warn "IP geolocation failed:"
       :: Logged log "Using default location"
       :: Requested (FetchReverse (defaultLat config) (defaultLon config))
       :: warnings)
    /\ run handle (reverseGeocode (defaultLat config) (defaultLon config)) w2
       = (Resolved names,
          snd (handle _ (FetchReverse (defaultLat config) (defaultLon config)) w2),
          Requested (FetchReverse (defaultLat config) (defaultLon config))
          :: warnings)
    /\ quiet warnings.
Proof.
  intros H1 H2. unfold fallbackChain, console. rewrite run_try_catch.
  cbn [run]. rewrite run_await, H1. cbn [run].
  rewrite run_try_catch. cbn [run]. rewrite run_await, H2. cbn [run].
  match goal with
  | |- context [run handle (try_catch (await _ (fun _ => resolve (assign_names _ ?l))) ?f) w2] =>
      destruct (names_step_run l f (defaultLat config) (defaultLon config) w2)
        as (names & warnings & Hrun & Hrev & Hq)
  end.
  cbn [latitude longitude] in *. rewrite Hrun.
  exists names, warnings. split; [reflexivity|]. split; [exact Hrev | exact Hq].
Qed.

(** The chain resolves, whatever the providers do. *)
Lemma fallbackChain_resolves config options w :
  exists loc w' tr,
    run handle (fallbackChain config options) w
    = (Resolved loc, w',
       Logged log "Attempting browser geolocation..."
       :: Requested Navigator :: tr).
Proof.
  assert (Hnav : forall r w1 t1,
             run handle (getBrowserLocation options) w = (r, w1, t1) ->
             exists t, t1 = Requested Navigator :: t).
  { unfold getBrowserLocation, perform. cbn [run bind].
    destruct (handle _ Navigator w) as [nav w0].
    destruct (run handle _ w0) as [[r0 w00] t0].
    intros r w1 t1 [= <- <- <-]. eauto. }
  destruct (run handle (getBrowserLocation options) w) as [[[loc|e] w1] t1] eqn:H1;
    destruct (Hnav _ _ _ eq_refl) as [t ->].
  - rewrite (fallbackChain_gps config options w loc w1 _ H1).
    do 3 eexists. reflexivity.
  - destruct (run handle getIPLocation w1) as [[[loc|e'] w2] t2] eqn:H2.
    + rewrite (fallbackChain_ip config options w e w1 _ loc w2 t2 H1 H2).
      do 3 eexists. reflexivity.
    + destruct (fallbackChain_default config options w e w1 _ e' w2 t2 H1 H2)
        as (names & warnings & Hrun & _).
      rewrite Hrun. do 3 eexists. reflexivity.
Qed.

Lemma detectAndStore_run config options locationCache w loc w1 tr :
  run handle (fallbackChain config options) w = (Resolved loc, w1, tr) ->
  run handle (detectAndStore config options locationCache) w
  = (Resolved loc,
     Some {| location := loc;
             timestamp := fst (handle _ DateNow w1);
             ttl := CACHE_TTL |},
     snd (handle _ DateNow w1),
     tr ++ [Requested DateNow]).
Proof.
  intros H. unfold detectAndStore. rewrite run_bind, H.
  unfold perform. cbn [run bind].
  now destruct (handle _ DateNow w1) as [now w2].
Qed.

Lemma detectLocation_past_check config options locationCache w w0 pre :
  past_cache_check handle options locationCache w w0 pre ->
  run handle (detectLocation config options locationCache) w
  = let '(r, w', tr) :=
      run handle (detectAndStore config options locationCache) w0 in
    (r, w', pre ++ tr).
Proof.
  intros Hc. unfold detectLocation.
  destruct Hc as [Hf|Hn|entry now w1 Hf Hs Hnow Hx].
  - rewrite Hf.
    now destruct (run handle (detectAndStore _ _ _) w) as [[r w'] tr].
  - rewrite Hn. destruct (not_forced options);
      now destruct (run handle (detectAndStore _ _ _) w) as [[r w'] tr].
  - rewrite Hf, Hs. unfold perform. cbn [run bind]. rewrite Hnow.
    replace (now - timestamp entry <? ttl entry) with false
      by (symmetry; lia).
    now destruct (run handle (detectAndStore _ _ _) w1) as [[r w'] tr].
Qed.

Lemma cache_check_cases options locationCache w :
  (exists entry,
      not_forced options = true
      /\ locationCache = Some entry
      /\ fst (handle _ DateNow w) - timestamp entry < ttl entry)
  \/ (exists w0 pre, past_cache_check handle options locationCache w w0 pre).
Proof.
  destruct (not_forced options) eqn:Hf;
    [|right; exists w, []; now apply check_forced].
  destruct locationCache as [entry|];
    [|right; exists w, []; now apply check_empty].
  destruct (handle _ DateNow w) as [now w1] eqn:Hnow. simpl.
  destruct (Z_lt_le_dec (now - timestamp entry) (ttl entry)).
  - left. exists entry. auto.
  - right. exists w1, [Requested DateNow].
    now apply (check_expired handle options (Some entry) w entry now w1).
Qed.

Lemma detectLocation_hit config options locationCache w entry now w1 :
  not_forced options = true ->
  locationCache = Some entry ->
  handle _ DateNow w = (now, w1) ->
  now - timestamp entry < ttl entry ->
  run handle (detectLocation config options locationCache) w
  = (Resolved (location entry), locationCache, w1,
     [Requested DateNow; Logged log "Using cached location"]).
Proof.
  intros Hf Hs Hnow Hx.
  unfold detectLocation, perform, console. rewrite Hf, Hs.
  cbn [run bind]. rewrite Hnow.
  replace (now - timestamp entry <? ttl entry) with true
    by (symmetry; lia).
  reflexivity.
Qed.

End World.

(** C8. [reverseGeocode] settles by resolving, for every answer of the
    environment: it never rejects.  When the request fails (the fetch
    throws), when the response is not 2xx, when the body cannot be
    parsed or is [null], and when the payload has no [address], the
    result is the empty result: no city and no country. *)
Theorem reverseGeocode_never_rejects :
  forall (W : Type) (handle : forall X : Type, request X -> W -> X * W)
         (latitude longitude : number) (w : W),
    exists names w' tr,
      run handle (reverseGeocode latitude longitude) w = (Resolved names, w', tr)
      /\ ((exists e, fst (handle _ (FetchReverse latitude longitude) w) = Rejected e)
          -> names = no_names)
      /\ (forall response,
            fst (handle _ (FetchReverse latitude longitude) w) = Resolved response ->
            (ok response = false -> names = no_names)
            /\ ((exists e, json response = Rejected e) -> names = no_names)
            /\ (json response = Resolved None -> names = no_names)
            /\ (forall data, json response = Resolved (Some data) ->
                  address data = None -> names = no_names)).
Proof.
  intros W handle lat lon w.
  destruct (reverseGeocode_run handle lat lon w) as (names & ws & Hrun & _ & Hn).
  exists names, (snd (handle _ (FetchReverse lat lon) w)),
    (Requested (FetchReverse lat lon) :: ws).
  split; [exact Hrun|]. split.
  - intros [e He]. now rewrite He in Hn.
  - intros response Hr. rewrite Hr in Hn.
    destruct (ok response).
    + split; [discriminate|]. split; [|split].
      * intros [e He]. now rewrite He in Hn.
      * intros Hj. now rewrite Hj in Hn.
      * intros data Hj Ha. now rewrite Hj, Ha in Hn.
    + repeat split; auto.
Qed.

(** C1. Whenever [detectLocation] goes past its cache check (the cache
    is empty or expired, or a refresh is forced): if the GPS step
    rejects and the IP step resolves, the call resolves with the IP
    step's location, whose source is [ip], and the run shows the GPS
    step, the IP step and the cache write only, so the default step is
    not attempted; if both steps reject, the call resolves with a
    location of source [default] at the configured default
    coordinates. *)
Theorem fallback_order :
  forall (W : Type) (handle : forall X : Type, request X -> W -> X * W)
         (config : Config) (options : option LocationOptions)
         (locationCache : option LocationCacheEntry) (w w0 : W)
         (pre : list (observed request)),
    past_cache_check handle options locationCache w w0 pre ->
    (forall e w1 t1 loc w2 t2,
        run handle (getBrowserLocation options) w0 = (Rejected e, w1, t1) ->
        run handle getIPLocation w1 = (Resolved loc, w2, t2) ->
        exists cache' w' tr,
          run handle (detectLocation config options locationCache) w
          = (Resolved loc, cache', w', tr)
          /\ source loc = ip
          /\ tr = pre
                  ++ (Logged log "Attempting browser geolocation..." :: t1)
                  ++ Logged warn "Browser geolocation failed:"
                  :: (Logged log "Falling back to IP geolocation..." :: t2)
                  ++ [Logged log "Successfully obtained IP-based location";
                      Requested DateNow]
          /\ ~ In (Logged log "Using default location") tr)
    /\ (forall e w1 t1 e' w2 t2,
          run handle (getBrowserLocation options) w0 = (Rejected e, w1, t1) ->
          run handle getIPLocation w1 = (Rejected e', w2, t2) ->
          exists loc cache' w' tr,
            run handle (detectLocation config options locationCache) w
            = (Resolved loc, cache', w', tr)
            /\ source loc = default
            /\ latitude loc = defaultLat config
            /\ longitude loc = defaultLon config
            /\ In (Logged log "Using default location") tr).
Proof.
  intros W handle config options locationCache w w0 pre Hc. split.
  - intros e w1 t1 loc w2 t2 H1 H2.
    rewrite (detectLocation_past_check handle _ _ _ _ _ _ Hc).
    rewrite (detectAndStore_run handle config options locationCache w0 loc w2 _
               (fallbackChain_ip handle config options w0 e w1 t1 loc w2 t2 H1 H2)).
    do 3 eexists. split; [reflexivity|].
    destruct (getBrowserLocation_run handle _ _ _ _ _ H1) as [Hq1 _].
    destruct (getIPLocation_run handle _ _ _ _ H2) as [Hq2 Hsrc].
    split; [now apply Hsrc|]. split.
    + rewrite <- !app_assoc. simpl. rewrite <- !app_assoc. reflexivity.
    + intros Hin. repeat (apply in_app_or in Hin; destruct Hin as [Hin|Hin]);
        simpl in Hin.
      * destruct Hc; simpl in Hin; intuition discriminate.
      * destruct Hin as [Hin|Hin]; [discriminate | exact (Hq1 _ Hin)].
      * destruct Hin as [Hin|[Hin|Hin]]; try discriminate.
        apply in_app_or in Hin. destruct Hin as [Hin|Hin];
          [exact (Hq2 _ Hin) | simpl in Hin; intuition discriminate].
      * intuition discriminate.
  - intros e w1 t1 e' w2 t2 H1 H2.
    rewrite (detectLocation_past_check handle _ _ _ _ _ _ Hc).
    destruct (fallbackChain_default handle config options w0 e w1 t1 e' w2 t2 H1 H2)
      as (names & warnings & Hrun & _ & _).
    rewrite (detectAndStore_run handle config options locationCache w0 _ _ _ Hrun).
    do 4 eexists. split; [reflexivity|]. repeat split.
    apply in_or_app. right. apply in_or_app. left.
    apply in_or_app. right. right. apply in_or_app. right. right. now left.
Qed.


(** C4. [detectLocation] resolves with a location and never rejects,
    whatever the GPS, IP and reverse-geocoding providers do; the
    location it resolves with is the one the cache holds afterwards. *)
Theorem detectLocation_always_resolves :
  forall (W : Type) (handle : forall X : Type, request X -> W -> X * W)
         (config : Config) (options : option LocationOptions)
         (locationCache : option LocationCacheEntry) (w : W),
    exists loc entry w' tr,
      run handle (detectLocation config options locationCache) w
      = (Resolved loc, Some entry, w', tr)
      /\ location entry = loc.
Proof.
  intros W handle config options locationCache w.
  destruct (cache_check_cases handle options locationCache w)
    as [(entry & Hf & Hs & Hx)|(w0 & pre & Hc)].
  - destruct (handle _ DateNow w) as [now w1] eqn:Hnow. simpl in Hx.
    rewrite (detectLocation_hit handle config options locationCache w
               entry now w1 Hf Hs Hnow Hx), Hs.
    do 4 eexists. split; reflexivity.
  - rewrite (detectLocation_past_check handle _ _ _ _ _ _ Hc).
    destruct (fallbackChain_resolves handle config options w0)
      as (loc & w1 & tr & Hrun).
    rewrite (detectAndStore_run handle config options locationCache w0 _ _ _ Hrun).
    do 4 eexists. split; reflexivity.
Qed.

(** ** Concrete runs *)

(** C6. With no geolocation and no network, [detectLocation] resolves
    with the default coordinates and no city: the configured default
    city ("San Francisco, California") is not applied.  [reverseGeocode]
    absorbs its own failure and returns the empty result, so the [catch]
    block that assigns [config.location.defaultCity] does not run. *)
Theorem default_city_not_applied :
  defaultCity DEFAULT_CONFIG = "San Francisco, California"%string
  /\ fst (fst (run (Samples.handle Samples.world_offline)
                 (detectLocation DEFAULT_CONFIG None None) 5000))
     = (Resolved {| latitude := defaultLat DEFAULT_CONFIG;
                    longitude := defaultLon DEFAULT_CONFIG;
                    city := None;
                    country := None;
                    source := default |},
        Some {| location := {| latitude := defaultLat DEFAULT_CONFIG;
                               longitude := defaultLon DEFAULT_CONFIG;
                               city := None;
                               country := None;
                               source := default |};
                timestamp := 5200;
                ttl := CACHE_TTL |}).
Proof. split; reflexivity. Qed.

(** C7. The IP provider answers with the names Tbilisi and Georgia and
    the reverse geocoder answers 503: [getIPLocation] resolves with no
    city and no country.  [reverseGeocode] returns the empty result
    instead of throwing, so the [catch] block that copies [data.city]
    and [data.country] does not run. *)
Theorem ip_names_not_applied :
  ip_city Samples.ip_tbilisi = Some "Tbilisi"%string
  /\ ip_country Samples.ip_tbilisi = Some "Georgia"%string
  /\ fst (fst (run (Samples.handle Samples.world_ip_no_names) getIPLocation 5000))
     = Resolved {| latitude := decimal false 417151 4;
                   longitude := decimal false 448271 4;
                   city := None;
                   country := None;
                   source := ip |}.
Proof. repeat split; reflexivity. Qed.

Lemma reverseGeocode_never_rejects_witness :
  exists w' tr,
    run (Samples.handle Samples.world_offline)
        (reverseGeocode (defaultLat DEFAULT_CONFIG) (defaultLon DEFAULT_CONFIG))
        5000
    = (Resolved no_names, w', tr).
Proof.
  destruct (reverseGeocode_never_rejects Z (Samples.handle Samples.world_offline)
              (defaultLat DEFAULT_CONFIG) (defaultLon DEFAULT_CONFIG) 5000)
    as (names & w' & tr & Hrun & Hrej & _).
  rewrite Hrej in Hrun.
  - now exists w', tr.
  - eexists. reflexivity.
Defined.

Lemma fallback_order_witness :
  (exists loc cache' w' tr,
      run (Samples.handle Samples.world_ip)
          (detectLocation DEFAULT_CONFIG None None) 5000
      = (Resolved loc, cache', w', tr)
      /\ source loc = ip
      /\ ~ In (Logged log "Using default location") tr)
  /\ (exists loc cache' w' tr,
         run (Samples.handle Samples.world_offline)
             (detectLocation DEFAULT_CONFIG None None) 5000
         = (Resolved loc, cache', w', tr)
         /\ source loc = default
         /\ latitude loc = defaultLat DEFAULT_CONFIG
         /\ longitude loc = defaultLon DEFAULT_CONFIG).
Proof.
  split.
  - destruct (fallback_order Z (Samples.handle Samples.world_ip) DEFAULT_CONFIG
                None None 5000 5000 []
                (check_empty _ None None 5000 eq_refl)) as [Hip _].
    edestruct Hip as (cache' & w' & tr & Hrun & Hsrc & _ & Hno);
      [reflexivity | reflexivity |].
    do 4 eexists. split; [exact Hrun|]. split; [exact Hsrc | exact Hno].
  - destruct (fallback_order Z (Samples.handle Samples.world_offline) DEFAULT_CONFIG
                None None 5000 5000 []
                (check_empty _ None None 5000 eq_refl)) as [_ Hdef].
    edestruct Hdef as (loc & cache' & w' & tr & Hrun & Hsrc & Hlat & Hlon & _);
      [reflexivity | reflexivity |].
    do 4 eexists. split; [exact Hrun|]. auto.
Defined.


End LocationFacts.

(* ===================================================================== *)
(** * Further facts about the weather cache                               *)
(* ===================================================================== *)

Module CacheMore.

Import Weather Env JSMap Cache CacheInv CacheSpec JSMapFacts CacheFacts.

Lemma get_delete_other {V : Type} (k k' : string) (m : JSMap.t V) :
  k' <> k -> JSMap.get k' (JSMap.delete k m) = JSMap.get k' m.
Proof.
  intros Hne. induction m as [|[k0 v0] m IH]; simpl; [reflexivity|].
  destruct (String.eqb_spec k k0) as [->|Hk].
  - destruct (String.eqb_spec k' k0); [congruence | exact IH].
  - simpl. now rewrite IH.
Qed.

Lemma get_delete_same {V : Type} (k : string) (m : JSMap.t V) :
  JSMap.get k (JSMap.delete k m) = None.
Proof.
  destruct (JSMap.get k (JSMap.delete k m)) eqn:Hg; [|reflexivity].
  apply get_In in Hg. rewrite keys_delete in Hg.
  now apply not_In_filter_other in Hg.
Qed.

Lemma get_set_other {V : Type} (k k' : string) (v : V) (m : JSMap.t V) :
  k' <> k -> JSMap.get k' (JSMap.set k v m) = JSMap.get k' m.
Proof.
  intros Hne. induction m as [|[k0 v0] m IH]; simpl.
  - destruct (String.eqb_spec k' k); [congruence | reflexivity].
  - destruct (String.eqb_spec k k0) as [->|Hk]; simpl.
    + destruct (String.eqb_spec k' k0); [congruence | reflexivity].
    + now rewrite IH.
Qed.

Lemma filter_other_length_NoDup (k : string) (l : list string) :
  NoDup l -> In k l ->
  S (List.length (filter (other_than k) l)) = List.length l.
Proof.
  induction l as [|x l IH]; simpl; [tauto|]. intros Hnd Hin.
  inversion Hnd as [|? ? Hx Hnd']; subst.
  unfold other_than at 1. destruct (String.eqb_spec k x) as [->|Hne]; simpl.
  - now rewrite filter_other_absent.
  - destruct Hin as [->|Hin]; [congruence|]. now rewrite IH.
Qed.

(** The cache [set] leaves behind, entry by entry. *)
Lemma set_lookup config now loc d c k' :
  isEnabled config = true -> k' <> key_of loc ->
  JSMap.get k' (cache (set config now loc d c))
  = if (size c >=? maxEntries c) && negb (JSMap.has (key_of loc) (cache c))
    then match JSMap.first_key (cache c) with
         | Some k0 =>
             if negb (String.eqb k0 EmptyString) && String.eqb k' k0
             then None else JSMap.get k' (cache c)
         | None => JSMap.get k' (cache c)
         end
    else JSMap.get k' (cache c).
Proof.
  intros He Hne. unfold set, key_of, size in *. rewrite He. simpl.
  rewrite delete_if_has, get_set_other, get_delete_other by assumption.
  destruct (_ && _); [|reflexivity].
  destruct (JSMap.first_key (cache c)) as [k0|]; [|reflexivity].
  destruct (String.eqb_spec k0 EmptyString) as [->|Hk0]; simpl; [reflexivity|].
  destruct (String.eqb_spec k' k0) as [->|Hk'].
  - apply get_delete_same.
  - now apply get_delete_other.
Qed.

(** ** Insert and lookup *)

(** X1. With caching enabled, a [set] at time [now] followed by a [get]
    for the same location: up to and including [now + ttl] the [get]
    returns a new object, the stored payload marked [cache], and the
    entry stays; after [now + ttl] it returns null and the entry is
    gone. *)
Theorem set_then_get :
  forall (config : Config) (now now' : Z) (loc : Coordinates) (d : ref)
         (h : Heap) (c : WeatherCache),
    isEnabled config = true ->
    (now' <= now + ttl c ->
       exists r h' c',
         get config now' loc h (set config now loc d c) = (Some r, h', c')
         /\ ~ allocated h r
         /\ deref h' r = with_source (deref h d) src_cache
         /\ JSMap.get (key_of loc) (cache c')
            = Some {| data := d; timestamp := now; expiresAt := now + ttl c |})
    /\ (now + ttl c < now' ->
         exists c',
           get config now' loc h (set config now loc d c) = (None, h, c')
           /\ JSMap.get (key_of loc) (cache c') = None).
Proof.
  intros config now now' loc d h c He.
  destruct (set_keys config now loc d c He) as (_ & _ & Hg & _).
  destruct (get_cases config now' loc h (set config now loc d c))
    as [[_ [Hd|Hn]]|[(e' & _ & Hg' & Hx' & Heq)|(e' & _ & Hg' & Hx' & Heq)]];
    try congruence;
    rewrite Hg in Hg'; injection Hg' as <-; simpl in Hx'.
  - split; [lia|]. intros _. eexists. split; [exact Heq|].
    simpl. apply get_delete_same.
  - split; [|lia]. intros _. do 3 eexists. split; [exact Heq|].
    destruct (alloc_fresh h (with_source (deref h d) src_cache))
      as (Hfresh & _ & Hd & _).
    split; [exact Hfresh|]. split; [exact Hd|].
    simpl. apply get_move_to_end.
Qed.

(** X2. An entry whose [expiresAt] lies before [now] is removed by the
    lookup that finds it: [has] answers false and [get] (caching
    enabled) answers null, both leave the same cache, in which the key
    is absent, the other keys are in their old order with their old
    entries, and the size is one less. *)
Theorem expired_entry_is_removed :
  forall (config : Config) (now : Z) (loc : Coordinates) (h : Heap)
         (c : WeatherCache) (entry : CacheEntry),
    well_formed c ->
    JSMap.get (key_of loc) (cache c) = Some entry ->
    expiresAt entry < now ->
    exists c',
      has now loc c = (false, c')
      /\ (isEnabled config = true -> get config now loc h c = (None, h, c'))
      /\ JSMap.get (key_of loc) (cache c') = None
      /\ keys_of c' = filter (other_than (key_of loc)) (keys_of c)
      /\ size c' = size c - 1
      /\ (forall k', k' <> key_of loc ->
            JSMap.get k' (cache c') = JSMap.get k' (cache c)).
Proof.
  intros config now loc h c entry (Hnd & _) Hg Hx.
  exists (with_cache c (JSMap.delete (key_of loc) (cache c))).
  split; [|split; [|split; [|split; [|split]]]].
  - destruct (has_cases now loc c)
      as [[_ Hn]|[(e' & Hg' & Hx' & Heq)|(e' & Hg' & Hx' & _)]];
      first [ congruence | exact Heq
            | exfalso; rewrite Hg in Hg'; injection Hg' as <-; lia ].
  - intros He.
    destruct (get_cases config now loc h c)
      as [[_ [Hd|Hn]]|[(e' & _ & Hg' & Hx' & Heq)|(e' & _ & Hg' & Hx' & _)]];
      first [ congruence | exact Heq
            | exfalso; rewrite Hg in Hg'; injection Hg' as <-; lia ].
  - simpl. apply get_delete_same.
  - unfold keys_of. simpl. apply keys_delete.
  - rewrite !size_keys_of. unfold keys_of at 1. simpl. rewrite keys_delete.
    pose proof (filter_other_length_NoDup (key_of loc) (keys_of c) Hnd
                  (get_In _ _ _ Hg)) as Hl.
    unfold keys_of in *. lia.
  - intros k' Hne. simpl. now apply get_delete_other.
Qed.

(** X3. With caching disabled, [set] stores nothing and [get] answers
    null without touching the cache or allocating; a cache that starts
    empty stays exactly as constructed through every history of
    calls. *)
Theorem disabled_cache_stays_empty :
  forall (config : Config),
    isEnabled config = false ->
    (forall now loc d h c,
        set config now loc d c = c
        /\ get config now loc h c = (None, h, c))
    /\ (forall maxE t h0 ops,
          run config ops (h0, new config maxE t) = (h0, new config maxE t)).
Proof.
  intros config Hd. split.
  - intros now loc d h c. split; [now apply set_disabled|].
    unfold get. now rewrite Hd.
  - intros maxE t h0 ops. induction ops as [|o ops IH] using rev_ind;
      [reflexivity|].
    rewrite run_snoc, IH. destruct o as [now loc|now loc d|now loc|]; simpl.
    + unfold get. now rewrite Hd.
    + now rewrite set_disabled.
    + reflexivity.
    + reflexivity.
Qed.

(** X4. With caching enabled, a [set] for a key that is already stored
    replaces its entry and moves the key to the most recently used end;
    nothing is evicted, whatever the capacity: every other key keeps its
    entry and, in a well-formed cache, the size is unchanged. *)
Theorem set_overwrites_in_place :
  forall (config : Config) (now : Z) (loc : Coordinates) (d : ref)
         (c : WeatherCache),
    isEnabled config = true ->
    In (key_of loc) (keys_of c) ->
    keys_of (set config now loc d c)
    = filter (other_than (key_of loc)) (keys_of c) ++ [key_of loc]
    /\ JSMap.get (key_of loc) (cache (set config now loc d c))
       = Some {| data := d; timestamp := now; expiresAt := now + ttl c |}
    /\ (forall k', k' <> key_of loc ->
          JSMap.get k' (cache (set config now loc d c)) = JSMap.get k' (cache c))
    /\ (NoDup (keys_of c) -> size (set config now loc d c) = size c).
Proof.
  intros config now loc d c He Hin.
  assert (Hhas : JSMap.has (key_of loc) (cache c) = true) by now apply has_In.
  destruct (set_keys config now loc d c He) as (ks1 & Hk & Hg & Hks1).
  rewrite Hhas, Bool.andb_false_r in Hks1. subst ks1.
  split; [exact Hk|]. split; [exact Hg|]. split.
  - intros k' Hne. rewrite set_lookup by assumption.
    now rewrite Hhas, Bool.andb_false_r.
  - intros Hnd. rewrite !size_keys_of, Hk, length_app. simpl.
    pose proof (filter_other_length_NoDup _ _ Hnd Hin). lia.
Qed.

(** X5. With caching enabled, [has] answers true exactly when [get] at
    the same time returns a payload, and the two leave caches with the
    same entry under every key (only the order of the keys can
    differ). *)
Theorem has_agrees_with_get :
  forall (config : Config) (now : Z) (loc : Coordinates) (h : Heap)
         (c : WeatherCache),
    isEnabled config = true ->
    (fst (has now loc c) = true <-> get_result config now loc h c <> None)
    /\ (forall k,
          JSMap.get k (cache (snd (has now loc c)))
          = JSMap.get k (cache (snd (get config now loc h c)))).
Proof.
  intros config now loc h c He. unfold get_result.
  destruct (get_cases config now loc h c)
    as [[Heq [Hd|Hn]]|[(e & _ & Hg & Hx & Heq)|(e & _ & Hg & Hx & Heq)]];
    try congruence; rewrite Heq; simpl;
    destruct (has_cases now loc c)
      as [[Hh Hn']|[(e' & Hg' & Hx' & Hh)|(e' & Hg' & Hx' & Hh)]];
    try congruence; rewrite Hh; simpl;
    try (exfalso; rewrite Hg in Hg'; injection Hg' as <-; lia).
  - split; [split; [discriminate | congruence] | reflexivity].
  - split; [split; [discriminate | congruence] | reflexivity].
  - split; [split; [discriminate | reflexivity]|].
    intros k. destruct (String.eqb_spec k (key_of loc)) as [->|Hne].
    + now rewrite get_move_to_end.
    + now rewrite get_set_other, get_delete_other.
Qed.

(** X7. A lookup never disturbs another key: after [get] and after
    [has] every key other than the one looked up has the entry it had.
    A [set] (caching enabled) changes another key in one case only: the
    store is full, the key set is new, and the other key is the oldest
    one, which is evicted. *)
Theorem other_keys_are_kept :
  forall (config : Config) (now : Z) (loc : Coordinates) (d : ref) (h : Heap)
         (c : WeatherCache) (k' : string),
    k' <> key_of loc ->
    JSMap.get k' (cache (snd (get config now loc h c))) = JSMap.get k' (cache c)
    /\ JSMap.get k' (cache (snd (has now loc c))) = JSMap.get k' (cache c)
    /\ (isEnabled config = true ->
        JSMap.get k' (cache (set config now loc d c)) = JSMap.get k' (cache c)
        \/ (JSMap.first_key (cache c) = Some k'
            /\ maxEntries c <= size c
            /\ ~ In (key_of loc) (keys_of c)
            /\ JSMap.get k' (cache (set config now loc d c)) = None)).
Proof.
  intros config now loc d h c k' Hne. split; [|split].
  - destruct (get_cases config now loc h c)
      as [[Heq _]|[(e & _ & _ & _ & Heq)|(e & _ & _ & _ & Heq)]];
      rewrite Heq; simpl; [reflexivity | now apply get_delete_other |].
    now rewrite get_set_other, get_delete_other.
  - destruct (has_cases now loc c)
      as [[Heq _]|[(e & _ & _ & Heq)|(e & _ & _ & Heq)]];
      rewrite Heq; simpl; [reflexivity | now apply get_delete_other | reflexivity].
  - intros He. rewrite set_lookup by assumption.
    destruct (size c >=? maxEntries c) eqn:Hfull; simpl; [|now left].
    destruct (JSMap.has (key_of loc) (cache c)) eqn:Hhas; simpl; [now left|].
    destruct (JSMap.first_key (cache c)) as [k0|]; [|now left].
    destruct (negb (String.eqb k0 EmptyString)); simpl; [|now left].
    destruct (String.eqb_spec k' k0) as [->|]; [|now left].
    right. repeat split; [lia | now apply has_false].
Qed.

(** ** The lifetime of an entry *)

Lemma Forall_delete {V : Type} (P : string * V -> Prop) (k : string)
    (m : JSMap.t V) :
  Forall P m -> Forall P (JSMap.delete k m).
Proof.
  induction 1 as [|[k0 v0] m HP _ IH]; simpl; [constructor|].
  destruct (String.eqb k k0); [exact IH | now constructor].
Qed.

Lemma Forall_set {V : Type} (P : string * V -> Prop) (k : string) (v : V)
    (m : JSMap.t V) :
  Forall P m -> P (k, v) -> Forall P (JSMap.set k v m).
Proof.
  intros Hm Hv. induction Hm as [|[k0 v0] m HP Hm IH]; simpl.
  - now repeat constructor.
  - destruct (String.eqb k k0); now constructor.
Qed.

Lemma Forall_get {V : Type} (Q : V -> Prop) (k : string) (v : V)
    (m : JSMap.t V) :
  Forall (fun kv => Q (snd kv)) m -> JSMap.get k m = Some v -> Q v.
Proof.
  induction 1 as [|[k0 v0] m HP _ IH]; simpl; [discriminate|].
  destruct (String.eqb k k0); [now intros [= <-] | exact IH].
Qed.

Lemma step_expiry config o h c :
  expiry_consistent c -> expiry_consistent (snd (step config o (h, c))).
Proof.
  unfold expiry_consistent. intros Hc.
  destruct o as [now loc|now loc d|now loc|]; simpl.
  - destruct (get_cases config now loc h c)
      as [[Heq _]|[(e & _ & Hg & _ & Heq)|(e & _ & Hg & _ & Heq)]];
      rewrite Heq; simpl; [exact Hc | now apply Forall_delete |].
    apply Forall_set; [now apply Forall_delete|].
    exact (Forall_get (fun e => expiresAt e = timestamp e + ttl c) _ _ _ Hc Hg).
  - unfold set. destruct (negb (isEnabled config)); [exact Hc|]. simpl.
    rewrite delete_if_has. apply Forall_set; [|reflexivity].
    apply Forall_delete. destruct (_ && _); [|exact Hc].
    destruct (JSMap.first_key (cache c)); [|exact Hc].
    destruct (negb _); [now apply Forall_delete | exact Hc].
  - destruct (has_cases now loc c)
      as [[Heq _]|[(e & _ & _ & Heq)|(e & _ & _ & Heq)]];
      rewrite Heq; simpl; [exact Hc | now apply Forall_delete | exact Hc].
  - constructor.
Qed.

(** X6. In every cache reached from a new one, every stored entry
    expires exactly one TTL after the time it was stored: a [get] that
    hits puts the same entry back, so reading an entry does not extend
    its life. *)
Theorem entries_expire_one_ttl_after_set :
  forall (config : Config) (maxE t : option Z) (h0 : Heap) (ops : list op)
         (k : string) (entry : CacheEntry),
    JSMap.get k (cache (snd (run config ops (h0, new config maxE t))))
    = Some entry ->
    expiresAt entry = timestamp entry + ttl (new config maxE t).
Proof.
  intros config maxE t h0 ops k entry Hg.
  assert (Hc : expiry_consistent (snd (run config ops (h0, new config maxE t)))).
  { clear Hg. induction ops as [|o ops IH] using rev_ind; [constructor|].
    rewrite run_snoc.
    destruct (run config ops (h0, new config maxE t)) as [h c].
    now apply step_expiry. }
  pose proof (run_fields config ops (h0, new config maxE t)) as [_ Ht].
  change (ttl (snd (h0, new config maxE t))) with (ttl (new config maxE t)) in Ht.
  rewrite <- Ht.
  exact (Forall_get (fun e => expiresAt e = timestamp e + ttl _) _ _ _ Hc Hg).
Qed.

(** ** Concrete runs *)

Lemma set_then_get_witness :
  (exists r h' c',
      get DEFAULT_CONFIG 600000 Samples.paris Samples.heap0 Samples.cache_paris
      = (Some r, h', c')
      /\ source (deref h' r) = src_cache)
  /\ (exists c',
         get DEFAULT_CONFIG 600001 Samples.paris Samples.heap0 Samples.cache_paris
         = (None, Samples.heap0, c')
         /\ JSMap.get (key_of Samples.paris) (cache c') = None).
Proof.
  assert (He : isEnabled DEFAULT_CONFIG = true) by reflexivity.
  split.
  - destruct (set_then_get DEFAULT_CONFIG 0 600000 Samples.paris 0%nat
                Samples.heap0 Samples.cache2 He) as [Hhit _].
    destruct Hhit as (r & h' & c' & Hget & _ & Hd & _); [simpl; lia|].
    exists r, h', c'. split; [exact Hget|]. now rewrite Hd.
  - destruct (set_then_get DEFAULT_CONFIG 0 600001 Samples.paris 0%nat
                Samples.heap0 Samples.cache2 He) as [_ Hmiss].
    destruct Hmiss as (c' & Hget & Hnone); [simpl; lia|].
    exists c'. split; [exact Hget | exact Hnone].
Defined.

Lemma expired_entry_is_removed_witness :
  exists c',
    has 600001 Samples.paris Samples.cache_paris = (false, c')
    /\ get DEFAULT_CONFIG 600001 Samples.paris Samples.heap0 Samples.cache_paris
       = (None, Samples.heap0, c')
    /\ size c' = 0.
Proof.
  destruct (expired_entry_is_removed DEFAULT_CONFIG 600001 Samples.paris
              Samples.heap0 Samples.cache_paris Samples.entry_paris)
    as (c' & Hhas & Hget & _ & _ & Hsize & _).
  - vm_compute. split; [|split].
    + constructor; [intros H; exact H | constructor].
    + constructor; [discriminate | constructor].
    + discriminate.
  - vm_compute. reflexivity.
  - simpl. lia.
  - exists c'. split; [exact Hhas|]. split; [now apply Hget|].
    rewrite Hsize. reflexivity.
Defined.

Lemma disabled_cache_stays_empty_witness :
  run Samples.config_disabled Samples.two_inserts (Samples.heap0, Samples.cache2)
  = (Samples.heap0, Samples.cache2)
  /\ get Samples.config_disabled 5 Samples.paris Samples.heap0 Samples.cache_paris
     = (None, Samples.heap0, Samples.cache_paris).
Proof.
  destruct (disabled_cache_stays_empty Samples.config_disabled eq_refl)
    as [Hcalls Hrun].
  split.
  - exact (Hrun (Some 2) None Samples.heap0 Samples.two_inserts).
  - exact (proj2 (Hcalls 5 Samples.paris 0%nat Samples.heap0 Samples.cache_paris)).
Defined.

Lemma set_overwrites_in_place_witness :
  keys_of (set DEFAULT_CONFIG 7 Samples.paris 0%nat
             (snd (run DEFAULT_CONFIG Samples.two_inserts
                     (Samples.heap0, Samples.cache2))))
  = [key_of Samples.tbilisi; key_of Samples.paris].
Proof.
  destruct (set_overwrites_in_place DEFAULT_CONFIG 7 Samples.paris 0%nat
              (snd (run DEFAULT_CONFIG Samples.two_inserts
                      (Samples.heap0, Samples.cache2))))
    as (Hkeys & _).
  - reflexivity.
  - vm_compute. left. reflexivity.
  - rewrite Hkeys. vm_compute. reflexivity.
Defined.

Lemma has_agrees_with_get_witness :
  fst (has 5 Samples.paris Samples.cache_paris) = true
  <-> get_result DEFAULT_CONFIG 5 Samples.paris Samples.heap0 Samples.cache_paris
      <> None.
Proof.
  exact (proj1 (has_agrees_with_get DEFAULT_CONFIG 5 Samples.paris
                  Samples.heap0 Samples.cache_paris eq_refl)).
Defined.

Lemma other_keys_are_kept_witness :
  JSMap.get (key_of Samples.paris)
    (cache (snd (get DEFAULT_CONFIG 5 Samples.tbilisi Samples.heap0
                   Samples.cache_paris)))
  = Some Samples.entry_paris.
Proof.
  destruct (other_keys_are_kept DEFAULT_CONFIG 5 Samples.tbilisi 0%nat
              Samples.heap0 Samples.cache_paris (key_of Samples.paris))
    as (Hget & _).
  - vm_compute. discriminate.
  - rewrite Hget. vm_compute. reflexivity.
Defined.

Lemma entries_expire_one_ttl_after_set_witness :
  expiresAt Samples.entry_paris
  = timestamp Samples.entry_paris + ttl (new DEFAULT_CONFIG (Some 2) None).
Proof.
  apply (entries_expire_one_ttl_after_set DEFAULT_CONFIG (Some 2) None
           Samples.heap0 Samples.one_insert (key_of Samples.paris)).
  vm_compute. reflexivity.
Defined.

End CacheMore.

(* ===================================================================== *)
(** * Further facts about location detection                              *)
(* ===================================================================== *)

Module LocationMore.

Import JSNumber Env Async Location DetectSpec LocationSpec AsyncFacts LocationFacts.
Local Open Scope string_scope.

Section World.
Context {W : Type} (handle : forall X : Type, request X -> W -> X * W).

Lemma assign_names_fields names location :
  latitude (assign_names names location) = latitude location
  /\ longitude (assign_names names location) = longitude location
  /\ source (assign_names names location) = source location.
Proof. now repeat split. Qed.

Lemma assign_names_nonempty names location :
  city location = None -> country location = None ->
  absent_or_nonempty (city (assign_names names location))
  /\ absent_or_nonempty (country (assign_names names location)).
Proof.
  intros Hc Hn. unfold absent_or_nonempty, assign_names. simpl.
  rewrite Hc, Hn.
  destruct (truthy (names_city names)) eqn:H1,
           (truthy (names_country names)) eqn:H2; auto.
Qed.

(** How a run of [getBrowserLocation] can go. *)
Lemma getBrowserLocation_cases options w :
  let nav := fst (handle _ Navigator w) in
  let w1 := snd (handle _ Navigator w) in
  let o := position_options options in
  let answer := fst (handle _ (GetCurrentPosition o) w1) in
  let w2 := snd (handle _ (GetCurrentPosition o) w1) in
  match nav with
  | navigator_undeclared =>
      run handle (getBrowserLocation options) w
      = (Rejected (ThrownError (undeclared_error "navigator")), w1,
         [Requested Navigator])
  | geolocation_missing =>
      run handle (getBrowserLocation options) w
      = (Rejected (ThrownLocationError
                     {| type := NOT_SUPPORTED;
                        error_message := "Geolocation is not supported by this browser";
                        originalError := None |}), w1,
         [Requested Navigator])
  | geolocation_present =>
      match answer with
      | inl error =>
          run handle (getBrowserLocation options) w
          = (Rejected (ThrownLocationError (convertGeolocationError error)), w2,
             [Requested Navigator; Requested (GetCurrentPosition o)])
      | inr position =>
          exists names warnings,
            run handle (getBrowserLocation options) w
            = (Resolved (assign_names names
                           {| latitude := coords_latitude position;
                              longitude := coords_longitude position;
                              city := None; country := None;
                              source := gps |}),
               snd (handle _ (FetchReverse (coords_latitude position)
                                           (coords_longitude position)) w2),
               Requested Navigator :: Requested (GetCurrentPosition o)
               :: Requested (FetchReverse (coords_latitude position)
                                          (coords_longitude position))
               :: warnings)
            /\ run handle (reverseGeocode (coords_latitude position)
                                          (coords_longitude position)) w2
               = (Resolved names,
                  snd (handle _ (FetchReverse (coords_latitude position)
                                              (coords_longitude position)) w2),
                  Requested (FetchReverse (coords_latitude position)
                                          (coords_longitude position))
                  :: warnings)
            /\ (forall x, In x warnings -> exists msg, x = Logged warn msg)
      end
  end.
Proof.
  cbv zeta. unfold getBrowserLocation, position_options, perform, throw.
  cbn [run bind].
  destruct (handle _ Navigator w) as [[| |] w1]; cbn [run bind fst snd];
    try reflexivity.
  match goal with
  | |- context [handle _ (GetCurrentPosition ?o) w1] =>
      destruct (handle _ (GetCurrentPosition o) w1) as [[error|position] w2]
  end; cbn [run bind fst snd]; [reflexivity|].
  destruct (reverseGeocode_run handle (coords_latitude position)
              (coords_longitude position) w2)
    as (names & warnings & Hrun & Hw & _).
  exists names, warnings. split; [|split; [exact Hrun | exact Hw]].
  cbn [latitude longitude]. rewrite run_try_catch, run_await, Hrun.
  unfold resolve. cbn [run]. now rewrite app_nil_r.
Qed.

(** How a run of [getIPLocation] can go. *)
Lemma getIPLocation_cases w :
  let answer := fst (handle _ FetchIP w) in
  let w1 := snd (handle _ FetchIP w) in
  let rejected e :=
    run handle getIPLocation w
    = (Rejected (ThrownLocationError (ipLocationError e)), w1,
       [Requested FetchIP]) in
  match answer with
  | Rejected e => rejected e
  | Resolved response =>
      if ok response then
        match json response with
        | Rejected e => rejected e
        | Resolved None => rejected (ThrownError (null_property_error "status"))
        | Resolved (Some data) =>
            if String.eqb (ip_status data) "success" then
              match ip_lat data, ip_lon data with
              | Some lat, Some lon =>
                  exists names warnings,
                    run handle getIPLocation w
                    = (Resolved (assign_names names
                                   {| latitude := lat; longitude := lon;
                                      city := None; country := None;
                                      source := ip |}),
                       snd (handle _ (FetchReverse lat lon) w1),
                       Requested FetchIP :: Requested (FetchReverse lat lon)
                       :: warnings)
                    /\ run handle (reverseGeocode lat lon) w1
                       = (Resolved names,
                          snd (handle _ (FetchReverse lat lon) w1),
                          Requested (FetchReverse lat lon) :: warnings)
                    /\ (forall x, In x warnings -> exists msg, x = Logged warn msg)
              | _, _ =>
                  rejected (ThrownError
                              (Error "Invalid location data received from IP geolocation"))
              end
            else
              rejected (ThrownError
                          (Error (option_or (or_else (ip_message data) None)
                                            "IP geolocation failed")))
        end
      else
        rejected (ThrownError
                    (Error ("IP geolocation request failed with status: "
                            ++ NilZero.string_of_int (Z.to_int (status response)))))
  end.
Proof.
  cbv zeta. unfold getIPLocation. rewrite run_try_catch, run_await.
  unfold perform, throw. cbn [run bind].
  destruct (handle _ FetchIP w) as [[response|e] w1]; cbn [run bind fst snd];
    [|reflexivity].
  destruct (ok response); cbn [negb run bind]; [|reflexivity].
  rewrite run_await. cbn [run bind].
  destruct (json response) as [[data|]|e]; cbn [run bind]; try reflexivity.
  destruct (String.eqb (ip_status data) "success"); cbn [negb run bind];
    [|reflexivity].
  destruct (ip_lat data) as [lat|], (ip_lon data) as [lon|]; cbn [run bind];
    try reflexivity.
  destruct (reverseGeocode_run handle lat lon w1)
    as (names & warnings & Hrun & Hw & _).
  exists names, warnings. split; [|split; [exact Hrun | exact Hw]].
  cbn [latitude longitude]. rewrite run_try_catch, run_await, Hrun.
  unfold resolve. cbn [run app]. now rewrite app_nil_r.
Qed.

Lemma names_of_failed_lookup lat lon w names w' tr :
  run handle (reverseGeocode lat lon) w = (Resolved names, w', tr) ->
  lookup_failed (fst (handle _ (FetchReverse lat lon) w)) ->
  names = no_names.
Proof.
  intros Hrun Hfail.
  destruct (reverseGeocode_run handle lat lon w) as (names' & ws & Hrun' & _ & Hn).
  rewrite Hrun in Hrun'. injection Hrun' as <- _ _.
  destruct (fst (handle _ (FetchReverse lat lon) w)) as [response|e];
    [|exact Hn].
  simpl in Hfail. now rewrite Hfail in Hn.
Qed.

Lemma count_warnings kind (ws : list (observed request)) :
  (forall o, In o ws -> exists msg, o = Logged warn msg) ->
  (forall l msg, kind (Logged l msg) = false) ->
  count kind ws = 0%nat.
Proof.
  intros Hw Hk. unfold count. induction ws as [|o ws IH]; [reflexivity|].
  simpl. destruct (Hw o (or_introl eq_refl)) as [msg ->]. rewrite Hk.
  apply IH. intros o' Ho'. apply Hw. now right.
Qed.

Lemma count_app kind (a b : list (observed request)) :
  count kind (a ++ b) = (count kind a + count kind b)%nat.
Proof. unfold count. now rewrite filter_app, length_app. Qed.

Lemma count_cons kind o (tr : list (observed request)) :
  count kind (o :: tr) = ((if kind o then 1 else 0) + count kind tr)%nat.
Proof. unfold count. simpl. now destruct (kind o). Qed.

Lemma gps_rejected_trace options w e w' tr :
  run handle (getBrowserLocation options) w = (Rejected e, w', tr) ->
  tr = [Requested Navigator]
  \/ tr = [Requested Navigator;
           Requested (GetCurrentPosition (position_options options))].
Proof.
  intros Hrun.
  pose proof (getBrowserLocation_cases options w) as Hc. cbv zeta in Hc.
  destruct (fst (handle _ Navigator w));
    try (rewrite Hc in Hrun; injection Hrun as <- <- <-; now left).
  destruct (fst (handle _ (GetCurrentPosition _) _)) as [error|position].
  - rewrite Hc in Hrun. injection Hrun as <- <- <-. now right.
  - destruct Hc as (names & warnings & Hrun' & _).
    rewrite Hrun' in Hrun. discriminate.
Qed.

Lemma gps_resolved_shape options w loc w' tr :
  run handle (getBrowserLocation options) w = (Resolved loc, w', tr) ->
  exists ws,
    tr = Requested Navigator
         :: Requested (GetCurrentPosition (position_options options))
         :: Requested (FetchReverse (latitude loc) (longitude loc)) :: ws
    /\ (forall x, In x ws -> exists msg, x = Logged warn msg)
    /\ source loc = gps
    /\ absent_or_nonempty (city loc)
    /\ absent_or_nonempty (country loc).
Proof.
  intros Hrun.
  pose proof (getBrowserLocation_cases options w) as Hc. cbv zeta in Hc.
  destruct (fst (handle _ Navigator w));
    try (rewrite Hc in Hrun; discriminate).
  destruct (fst (handle _ (GetCurrentPosition _) _)) as [error|position];
    [rewrite Hc in Hrun; discriminate|].
  destruct Hc as (names & warnings & Hrun' & _ & Hw).
  rewrite Hrun' in Hrun. injection Hrun as <- _ <-.
  exists warnings. repeat split; auto; now apply assign_names_nonempty.
Qed.

Lemma ip_rejected_trace w e w' tr :
  run handle getIPLocation w = (Rejected e, w', tr) ->
  tr = [Requested FetchIP].
Proof.
  intros Hrun.
  pose proof (getIPLocation_cases w) as Hc. cbv zeta in Hc.
  destruct (fst (handle _ FetchIP w)) as [response|e0];
    [|rewrite Hc in Hrun; now injection Hrun as <- <- <-].
  destruct (ok response);
    [|rewrite Hc in Hrun; now injection Hrun as <- <- <-].
  destruct (json response) as [[data|]|e0];
    try (rewrite Hc in Hrun; now injection Hrun as <- <- <-).
  destruct (String.eqb (ip_status data) "success");
    [|rewrite Hc in Hrun; now injection Hrun as <- <- <-].
  destruct (ip_lat data) as [lat|], (ip_lon data) as [lon|];
    try (rewrite Hc in Hrun; now injection Hrun as <- <- <-).
  destruct Hc as (names & warnings & Hrun' & _).
  rewrite Hrun' in Hrun. discriminate.
Qed.

Lemma ip_resolved_shape w loc w' tr :
  run handle getIPLocation w = (Resolved loc, w', tr) ->
  exists ws,
    tr = Requested FetchIP
         :: Requested (FetchReverse (latitude loc) (longitude loc)) :: ws
    /\ (forall x, In x ws -> exists msg, x = Logged warn msg)
    /\ source loc = ip
    /\ absent_or_nonempty (city loc)
    /\ absent_or_nonempty (country loc).
Proof.
  intros Hrun.
  pose proof (getIPLocation_cases w) as Hc. cbv zeta in Hc.
  destruct (fst (handle _ FetchIP w)) as [response|e0];
    [|rewrite Hc in Hrun; discriminate].
  destruct (ok response); [|rewrite Hc in Hrun; discriminate].
  destruct (json response) as [[data|]|e0];
    try (rewrite Hc in Hrun; discriminate).
  destruct (String.eqb (ip_status data) "success");
    [|rewrite Hc in Hrun; discriminate].
  destruct (ip_lat data) as [lat|], (ip_lon data) as [lon|];
    try (rewrite Hc in Hrun; discriminate).
  destruct Hc as (names & warnings & Hrun' & _ & Hw).
  rewrite Hrun' in Hrun. injection Hrun as <- _ <-.
  exists warnings. repeat split; auto; now apply assign_names_nonempty.
Qed.

(** Every run of the chain: it resolves, asks each provider at most
    once, and looks up the names of the coordinates it resolves with
    exactly once. *)
Lemma fallbackChain_summary config options w :
  exists loc w' tr,
    run handle (fallbackChain config options) w = (Resolved loc, w', tr)
    /\ count is_reverse_request tr = 1%nat
    /\ In (Requested (FetchReverse (latitude loc) (longitude loc))) tr
    /\ (count is_position_request tr <= 1)%nat
    /\ (count is_ip_request tr <= 1)%nat
    /\ absent_or_nonempty (city loc)
    /\ absent_or_nonempty (country loc).
Proof.
  assert (Hk1 : forall l msg, is_reverse_request (Logged l msg) = false)
    by reflexivity.
  assert (Hk2 : forall l msg, is_position_request (Logged l msg) = false)
    by reflexivity.
  assert (Hk3 : forall l msg, is_ip_request (Logged l msg) = false)
    by reflexivity.
  destruct (run handle (getBrowserLocation options) w)
    as [[[loc|e] w1] t1] eqn:H1.
  - rewrite (fallbackChain_gps handle config options w loc w1 t1 H1).
    destruct (gps_resolved_shape _ _ _ _ _ H1) as (ws & -> & Hw & _ & Hc & Hn).
    do 3 eexists. split; [reflexivity|].
    rewrite !count_cons, !count_app, !count_cons. cbn [is_reverse_request
      is_position_request is_ip_request].
    rewrite (count_warnings _ ws Hw Hk1), (count_warnings _ ws Hw Hk2),
      (count_warnings _ ws Hw Hk3).
    repeat split; auto. right. right. right. now left.
  - destruct (run handle getIPLocation w1) as [[[loc|e'] w2] t2] eqn:H2.
    + rewrite (fallbackChain_ip handle config options w e w1 t1 loc w2 t2 H1 H2).
      destruct (ip_resolved_shape _ _ _ _ H2) as (ws & -> & Hw & _ & Hc & Hn).
      do 3 eexists. split; [reflexivity|].
      destruct (gps_rejected_trace _ _ _ _ _ H1) as [->| ->];
        cbn [app]; rewrite !count_cons, !count_app, !count_cons;
        cbn [is_reverse_request is_position_request is_ip_request];
        rewrite (count_warnings _ ws Hw Hk1), (count_warnings _ ws Hw Hk2),
          (count_warnings _ ws Hw Hk3);
        repeat split; auto; simpl; tauto.
    + destruct (fallbackChain_default handle config options w e w1 t1 e' w2 t2 H1 H2)
        as (names & warnings & Hrun & Hrev & _).
      rewrite Hrun.
      destruct (reverseGeocode_run handle (defaultLat config) (defaultLon config) w2)
        as (names' & ws & Hrev' & Hw & _).
      rewrite Hrev in Hrev'. injection Hrev' as _ ->.
      rewrite (ip_rejected_trace _ _ _ _ H2).
      do 3 eexists. split; [reflexivity|].
      destruct (gps_rejected_trace _ _ _ _ _ H1) as [->| ->];
        cbn [app]; rewrite !count_cons;
        cbn [is_reverse_request is_position_request is_ip_request];
        rewrite (count_warnings _ ws Hw Hk1), (count_warnings _ ws Hw Hk2),
          (count_warnings _ ws Hw Hk3);
        (split; [reflexivity|]);
        (split; [simpl; tauto|]);
        (split; [lia|]); (split; [lia|]);
        split; now apply assign_names_nonempty.
Qed.

End World.

(** ** Strings of digits *)

Lemma uint_string_no_f (d : Decimal.uint) :
  Forall (fun c => c <> "f"%char)
         (list_ascii_of_string (NilEmpty.string_of_uint d)).
Proof.
  induction d; simpl; constructor; try exact IHd; discriminate.
Qed.

Lemma int_string_no_f (z : Z) :
  Forall (fun c => c <> "f"%char)
         (list_ascii_of_string (NilZero.string_of_int (Z.to_int z))).
Proof.
  unfold NilZero.string_of_int.
  destruct (Z.to_int z) as [d|d]; unfold NilZero.string_of_uint.
  - destruct d; try apply uint_string_no_f.
    simpl. constructor; [discriminate | constructor].
  - simpl. constructor; [discriminate|].
    destruct d; try apply uint_string_no_f.
    simpl. constructor; [discriminate | constructor].
Qed.

Lemma no_f_no_fetch (s : string) :
  Forall (fun c => c <> "f"%char) (list_ascii_of_string s) ->
  index 0 "fetch" s = None.
Proof.
  induction s as [|b s IH]; [reflexivity|]. intros H.
  inversion H as [|? ? Hb Hs]; subst.
  change (index 0 "fetch" (String b s))
    with (if prefix "fetch" (String b s) then Some 0%nat
          else match index 0 "fetch" s with
               | Some n => Some (S n)
               | None => None
               end).
  rewrite (IH Hs).
  change (prefix "fetch" (String b s))
    with (match ascii_dec "f" b with
          | left _ => prefix "etch" s
          | right _ => false
          end).
  destruct (ascii_dec "f" b) as [<-|_]; [congruence | reflexivity].
Qed.

Lemma ip_status_message_no_fetch (z : Z) :
  includes ("IP geolocation request failed with status: "
            ++ NilZero.string_of_int (Z.to_int z)) "fetch" = false.
Proof.
  unfold includes. simpl.
  now rewrite (no_f_no_fetch _ (int_string_no_f z)).
Qed.

(** ** The GPS step *)

(** X8. When the browser delivers a position, [getBrowserLocation]
    resolves, whatever the reverse geocoder does: the location has the
    position's coordinates and source [gps], its names are absent or
    non-empty, and when the name lookup fails (the request fails or the
    response is not 2xx) both names are absent. *)
Theorem gps_position_always_resolves :
  forall (W : Type) (handle : forall X : Type, request X -> W -> X * W)
         (options : option LocationOptions) (w : W) (position : Coords),
    let w1 := snd (handle _ Navigator w) in
    let w2 := snd (handle _ (GetCurrentPosition (position_options options)) w1) in
    fst (handle _ Navigator w) = geolocation_present ->
    fst (handle _ (GetCurrentPosition (position_options options)) w1)
    = inr position ->
    exists loc w' tr,
      run handle (getBrowserLocation options) w = (Resolved loc, w', tr)
      /\ latitude loc = coords_latitude position
      /\ longitude loc = coords_longitude position
      /\ source loc = gps
      /\ absent_or_nonempty (city loc)
      /\ absent_or_nonempty (country loc)
      /\ (lookup_failed
            (fst (handle _ (FetchReverse (coords_latitude position)
                                         (coords_longitude position)) w2)) ->
          city loc = None /\ country loc = None).
Proof.
  intros W handle options w position w1 w2 Hnav Hpos.
  pose proof (getBrowserLocation_cases handle options w) as Hc.
  cbv zeta in Hc. rewrite Hnav in Hc. fold w1 in Hc. rewrite Hpos in Hc.
  fold w2 in Hc. destruct Hc as (names & warnings & Hrun & Hrev & _).
  do 3 eexists. split; [exact Hrun|].
  split; [reflexivity|]. split; [reflexivity|]. split; [reflexivity|].
  split; [now apply assign_names_nonempty|].
  split; [now apply assign_names_nonempty|].
  intros Hfail.
  rewrite (names_of_failed_lookup handle _ _ _ _ _ _ Hrev Hfail).
  now split.
Qed.

Lemma convertGeolocationError_type error :
  type (convertGeolocationError error)
  = match code error with
    | 1 => PERMISSION_DENIED
    | 2 => POSITION_UNAVAILABLE
    | 3 => TIMEOUT
    | _ => UNKNOWN_ERROR
    end
  /\ originalError (convertGeolocationError error) = Some (OfGeolocation error).
Proof.
  unfold convertGeolocationError.
  destruct (code error) as [|p|p]; simpl; auto.
  destruct p as [[p|p|]|[p|p|]|]; simpl; auto.
Qed.

(** X9. When [getBrowserLocation] rejects, no reverse-geocoding request
    was made, and the thrown value tells why: a [ReferenceError] when
    [navigator] is not declared; else a [LocationError], of type
    [NOT_SUPPORTED] when [navigator.geolocation] is missing, and otherwise
    carrying the browser's error with the type its code stands for
    (1 permission denied, 2 position unavailable, 3 timeout, any other
    code unknown). *)
Theorem gps_failure_is_typed :
  forall (W : Type) (handle : forall X : Type, request X -> W -> X * W)
         (options : option LocationOptions) (w : W) (e : thrown) (w' : W)
         (tr : list (observed request)),
    run handle (getBrowserLocation options) w = (Rejected e, w', tr) ->
    count is_reverse_request tr = 0%nat
    /\ ((fst (handle _ Navigator w) = navigator_undeclared
         /\ e = ThrownError (undeclared_error "navigator"))
        \/ (exists le,
               e = ThrownLocationError le
               /\ ((fst (handle _ Navigator w) = geolocation_missing
                    /\ type le = NOT_SUPPORTED
                    /\ originalError le = None)
                   \/ (exists error,
                          fst (handle _ Navigator w) = geolocation_present
                          /\ originalError le = Some (OfGeolocation error)
                          /\ type le = match code error with
                                       | 1 => PERMISSION_DENIED
                                       | 2 => POSITION_UNAVAILABLE
                                       | 3 => TIMEOUT
                                       | _ => UNKNOWN_ERROR
                                       end)))).
Proof.
  intros W handle options w e w' tr Hrun.
  pose proof (getBrowserLocation_cases handle options w) as Hc.
  cbv zeta in Hc.
  destruct (fst (handle _ Navigator w)).
  - rewrite Hc in Hrun. injection Hrun as <- <- <-.
    split; [reflexivity|]. left. now split.
  - rewrite Hc in Hrun. injection Hrun as <- <- <-.
    split; [reflexivity|]. right. eexists. split; [reflexivity|].
    left. now repeat split.
  - destruct (fst (handle _ (GetCurrentPosition _) _)) as [error|position].
    + rewrite Hc in Hrun. injection Hrun as <- <- <-.
      split; [reflexivity|]. right. eexists. split; [reflexivity|].
      right. exists error. split; [reflexivity|].
      destruct (convertGeolocationError_type error). now split.
    + destruct Hc as (names & warnings & Hrun' & _).
      rewrite Hrun' in Hrun. discriminate.
Qed.

(** ** The IP step *)

(** X10. [getIPLocation] rejects with a [LocationError] only, and then
    it has made the one request to the IP provider and none to the
    reverse geocoder.  A response that is not 2xx gives [UNKNOWN_ERROR]
    with the status in the message, for every status; a request aborted
    by the timeout gives [TIMEOUT]; any other failed request whose
    message contains "fetch" gives [NETWORK_ERROR]. *)
Theorem ip_failures_are_classified :
  forall (W : Type) (handle : forall X : Type, request X -> W -> X * W) (w : W),
    let answer := fst (handle _ FetchIP w) in
    let w1 := snd (handle _ FetchIP w) in
    (forall e w' tr,
        run handle getIPLocation w = (Rejected e, w', tr) ->
        exists le, e = ThrownLocationError le
                   /\ w' = w1 /\ tr = [Requested FetchIP])
    /\ (forall response,
          answer = Resolved response -> ok response = false ->
          let msg := "IP geolocation request failed with status: "
                     ++ NilZero.string_of_int (Z.to_int (status response)) in
          run handle getIPLocation w
          = (Rejected (ThrownLocationError
                         {| type := UNKNOWN_ERROR;
                            error_message := msg;
                            originalError := Some (OfError (Error msg)) |}),
             w1, [Requested FetchIP]))
    /\ (forall e,
          answer = Rejected (ThrownError e) -> name e = "AbortError" ->
          run handle getIPLocation w
          = (Rejected (ThrownLocationError
                         {| type := TIMEOUT;
                            error_message := "IP geolocation request timed out";
                            originalError := Some (OfError e) |}),
             w1, [Requested FetchIP]))
    /\ (forall e,
          answer = Rejected (ThrownError e) -> name e <> "AbortError" ->
          includes (message e) "fetch" = true ->
          run handle getIPLocation w
          = (Rejected (ThrownLocationError
                         {| type := NETWORK_ERROR;
                            error_message := "Network error during IP geolocation";
                            originalError := Some (OfError e) |}),
             w1, [Requested FetchIP])).
Proof.
  intros W handle w answer w1.
  pose proof (getIPLocation_cases handle w) as Hc. cbv zeta in Hc.
  fold answer w1 in Hc. split; [|split; [|split]].
  - intros e w' tr Hrun.
    destruct answer as [response|e0];
      [|rewrite Hc in Hrun; injection Hrun as <- <- <-; eauto].
    destruct (ok response);
      [|rewrite Hc in Hrun; injection Hrun as <- <- <-; eauto].
    destruct (json response) as [[data|]|e0];
      try (rewrite Hc in Hrun; injection Hrun as <- <- <-; eauto; fail).
    destruct (String.eqb (ip_status data) "success");
      [|rewrite Hc in Hrun; injection Hrun as <- <- <-; eauto].
    destruct (ip_lat data) as [lat|], (ip_lon data) as [lon|];
      try (rewrite Hc in Hrun; injection Hrun as <- <- <-; eauto; fail).
    destruct Hc as (names & warnings & Hrun' & _).
    rewrite Hrun' in Hrun. discriminate.
  - intros response Ha Hok msg. rewrite Ha, Hok in Hc. rewrite Hc.
    unfold msg, ipLocationError, Error. cbn [name message].
    rewrite ip_status_message_no_fetch. reflexivity.
  - intros e Ha Hname. rewrite Ha in Hc. rewrite Hc.
    unfold ipLocationError. rewrite Hname. reflexivity.
  - intros e Ha Hname Hinc. rewrite Ha in Hc. rewrite Hc.
    unfold ipLocationError. rewrite Hinc.
    destruct (String.eqb_spec (name e) "AbortError"); [congruence | reflexivity].
Qed.

(** X11. [getIPLocation] resolves only on a 2xx response whose body has
    status "success" and numeric [lat] and [lon]; the location then has
    those coordinates and source [ip], and names that are absent or
    non-empty. *)
Theorem ip_success_requires_valid_answer :
  forall (W : Type) (handle : forall X : Type, request X -> W -> X * W)
         (w : W) (loc : Location) (w' : W) (tr : list (observed request)),
    run handle getIPLocation w = (Resolved loc, w', tr) ->
    exists response data lat lon,
      fst (handle _ FetchIP w) = Resolved response
      /\ ok response = true
      /\ json response = Resolved (Some data)
      /\ ip_status data = "success"
      /\ ip_lat data = Some lat /\ ip_lon data = Some lon
      /\ latitude loc = lat /\ longitude loc = lon
      /\ source loc = ip
      /\ absent_or_nonempty (city loc)
      /\ absent_or_nonempty (country loc).
Proof.
  intros W handle w loc w' tr Hrun.
  pose proof (getIPLocation_cases handle w) as Hc. cbv zeta in Hc.
  destruct (fst (handle _ FetchIP w)) as [response|e0];
    [|rewrite Hc in Hrun; discriminate].
  destruct (ok response) eqn:Hok; [|rewrite Hc in Hrun; discriminate].
  destruct (json response) as [[data|]|e0] eqn:Hj;
    try (rewrite Hc in Hrun; discriminate).
  destruct (String.eqb_spec (ip_status data) "success") as [Hs|];
    [|rewrite Hc in Hrun; discriminate].
  destruct (ip_lat data) as [lat|] eqn:Hlat, (ip_lon data) as [lon|] eqn:Hlon;
    try (rewrite Hc in Hrun; discriminate).
  destruct Hc as (names & warnings & Hrun' & _).
  rewrite Hrun' in Hrun. injection Hrun as <- _ _.
  exists response, data, lat, lon.
  repeat split; auto; now apply assign_names_nonempty.
Qed.

(** ** The chain as a whole *)

Lemma count_pre {W : Type} (handle : forall X : Type, request X -> W -> X * W)
    options locationCache w w0 pre kind :
  past_cache_check handle options locationCache w w0 pre ->
  kind (Requested DateNow) = false ->
  count kind pre = 0%nat.
Proof.
  intros Hc Hk. destruct Hc; try reflexivity.
  rewrite count_cons, Hk. reflexivity.
Qed.

(** X12. Past the cache check, when the GPS step resolves,
    [detectLocation] resolves with that location, whose source is [gps];
    the IP provider is not asked and neither the IP step nor the default
    step is started. *)
Theorem gps_success_stops_chain :
  forall (W : Type) (handle : forall X : Type, request X -> W -> X * W)
         (config : Config) (options : option LocationOptions)
         (locationCache : option LocationCacheEntry) (w w0 : W)
         (pre : list (observed request)) (loc : Location) (w1 : W)
         (t1 : list (observed request)),
    past_cache_check handle options locationCache w w0 pre ->
    run handle (getBrowserLocation options) w0 = (Resolved loc, w1, t1) ->
    exists cache' w' tr,
      run handle (detectLocation config options locationCache) w
      = (Resolved loc, cache', w', tr)
      /\ source loc = gps
      /\ count is_ip_request tr = 0%nat
      /\ ~ In (Logged log "Falling back to IP geolocation...") tr
      /\ ~ In (Logged log "Using default location") tr.
Proof.
  intros W handle config options locationCache w w0 pre loc w1 t1 Hc H1.
  rewrite (detectLocation_past_check handle _ _ _ _ _ _ Hc).
  rewrite (detectAndStore_run handle config options locationCache w0 loc w1 _
             (fallbackChain_gps handle config options w0 loc w1 t1 H1)).
  destruct (gps_resolved_shape handle _ _ _ _ _ H1) as (ws & -> & Hw & Hsrc & _).
  do 3 eexists. split; [reflexivity|]. split; [exact Hsrc|].
  assert (Hq : forall msg, ~ In (Logged log msg) ws).
  { intros msg Hin. destruct (Hw _ Hin) as [m Hm]. discriminate. }
  split; [|split].
  - rewrite !count_app, !count_cons, !count_app, !count_cons.
    rewrite (count_pre handle _ _ _ _ _ _ Hc eq_refl).
    cbn [is_ip_request].
    rewrite (count_warnings is_ip_request ws Hw); reflexivity.
  - intros Hin. repeat (apply in_app_or in Hin; destruct Hin as [Hin|Hin]);
      simpl in Hin.
    + destruct Hc; simpl in Hin; intuition discriminate.
    + destruct Hin as [Hin|[Hin|[Hin|[Hin|Hin]]]]; try discriminate.
      apply in_app_or in Hin. destruct Hin as [Hin|Hin];
        [exact (Hq _ Hin) | simpl in Hin; intuition discriminate].
    + intuition discriminate.
  - intros Hin. repeat (apply in_app_or in Hin; destruct Hin as [Hin|Hin]);
      simpl in Hin.
    + destruct Hc; simpl in Hin; intuition discriminate.
    + destruct Hin as [Hin|[Hin|[Hin|[Hin|Hin]]]]; try discriminate.
      apply in_app_or in Hin. destruct Hin as [Hin|Hin];
        [exact (Hq _ Hin) | simpl in Hin; intuition discriminate].
    + intuition discriminate.
Qed.

(** X13. Past the cache check, every run of [detectLocation] asks the
    browser for a position at most once and the IP provider at most
    once, and makes exactly one reverse-geocoding request, for the
    coordinates of the location it resolves with; the city and the
    country of that location are absent or non-empty. *)
Theorem one_name_lookup_per_resolution :
  forall (W : Type) (handle : forall X : Type, request X -> W -> X * W)
         (config : Config) (options : option LocationOptions)
         (locationCache : option LocationCacheEntry) (w w0 : W)
         (pre : list (observed request)),
    past_cache_check handle options locationCache w w0 pre ->
    exists loc cache' w' tr,
      run handle (detectLocation config options locationCache) w
      = (Resolved loc, cache', w', tr)
      /\ count is_reverse_request tr = 1%nat
      /\ In (Requested (FetchReverse (latitude loc) (longitude loc))) tr
      /\ (count is_position_request tr <= 1)%nat
      /\ (count is_ip_request tr <= 1)%nat
      /\ absent_or_nonempty (city loc)
      /\ absent_or_nonempty (country loc).
Proof.
  intros W handle config options locationCache w w0 pre Hc.
  rewrite (detectLocation_past_check handle _ _ _ _ _ _ Hc).
  destruct (fallbackChain_summary handle config options w0)
    as (loc & w1 & tr & Hrun & Hrev & Hin & Hpos & Hip & Hcity & Hcountry).
  rewrite (detectAndStore_run handle config options locationCache w0 _ _ _ Hrun).
  do 4 eexists. split; [reflexivity|].
  rewrite !count_app, !count_cons.
  rewrite !(count_pre handle _ _ _ _ _ _ Hc eq_refl).
  cbn [is_reverse_request is_position_request is_ip_request count filter
       List.length].
  repeat split; auto; try lia.
  apply in_or_app. right. apply in_or_app. now left.
Qed.


(** X15. [getCachedLocation] and the cache check of [detectLocation]
    agree: at one clock reading, when [getCachedLocation] returns a
    location, [detectLocation] without forced refresh returns that
    location at once and the slot is kept; when it returns null the slot
    is left empty and [detectLocation] runs the fallback chain (after
    the clock reading, if the slot held an expired entry): its trace
    goes on with the GPS attempt, it resolves with the chain's location
    and stores that location, stamped by the clock, for 300000 ms.
    After [clearLocationCache] it returns null at every time. *)
Theorem getCachedLocation_agrees_with_detectLocation :
  forall (W : Type) (handle : forall X : Type, request X -> W -> X * W)
         (config : Config) (options : option LocationOptions)
         (locationCache : option LocationCacheEntry) (w : W) (now : Z) (w1 : W),
    handle _ DateNow w = (now, w1) ->
    not_forced options = true ->
    match getCachedLocation now locationCache with
    | (Some loc, slot) =>
        slot = locationCache
        /\ run handle (detectLocation config options locationCache) w
           = (Resolved loc, locationCache, w1,
              [Requested DateNow; Logged log "Using cached location"])
    | (None, slot) =>
        slot = None
        /\ exists loc w2 tr,
             run handle (fallbackChain config options)
                 (match locationCache with Some _ => w1 | None => w end)
             = (Resolved loc, w2,
                Logged log "Attempting browser geolocation..."
                :: Requested Navigator :: tr)
             /\ run handle (detectLocation config options locationCache) w
                = (Resolved loc,
                   Some {| location := loc;
                           timestamp := fst (handle _ DateNow w2);
                           ttl := 300000 |},
                   snd (handle _ DateNow w2),
                   (match locationCache with
                    | Some _ => [Requested DateNow]
                    | None => []
                    end
                    ++ (Logged log "Attempting browser geolocation..."
                        :: Requested Navigator :: tr)
                    ++ [Requested DateNow])%list)
    end
    /\ getCachedLocation now (clearLocationCache locationCache) = (None, None).
Proof.
  intros W handle config options locationCache w now w1 Hnow Hf.
  split; [|reflexivity].
  unfold getCachedLocation. destruct locationCache as [entry|].
  - destruct (now - timestamp entry <? ttl entry)%Z eqn:Hx.
    + split; [reflexivity|].
      apply (detectLocation_hit handle config options _ w entry now w1);
        auto; lia.
    + split; [reflexivity|].
      destruct (fallbackChain_resolves handle config options w1)
        as (loc & w2 & tr & Hrun).
      exists loc, w2, tr. split; [exact Hrun|].
      rewrite (detectLocation_past_check handle config options (Some entry)
                 w w1 [Requested DateNow]).
      * now rewrite (detectAndStore_run handle config options (Some entry)
                       w1 _ _ _ Hrun).
      * apply (check_expired handle options (Some entry) w entry now w1);
          auto; lia.
  - split; [reflexivity|].
    destruct (fallbackChain_resolves handle config options w)
      as (loc & w2 & tr & Hrun).
    exists loc, w2, tr. split; [exact Hrun|].
    rewrite (detectLocation_past_check handle config options None w w []).
    + now rewrite (detectAndStore_run handle config options None
                     w _ _ _ Hrun).
    + now apply check_empty.
Qed.

(** X16. On a 2xx answer with an address, [reverseGeocode] returns the
    country as given and, for the city, the first non-empty one of
    [city], [town], [village], [hamlet] and [municipality]; when none
    of them is non-empty the result has no usable city. *)
Theorem reverseGeocode_takes_first_name :
  forall (W : Type) (handle : forall X : Type, request X -> W -> X * W)
         (lat lon : number) (w : W) (response : Response NominatimData)
         (data : NominatimData) (a : Address),
    fst (handle _ (FetchReverse lat lon) w) = Resolved response ->
    ok response = true ->
    json response = Resolved (Some data) ->
    address data = Some a ->
    exists names w' tr,
      run handle (reverseGeocode lat lon) w = (Resolved names, w', tr)
      /\ names_country names = addr_country a
      /\ match find truthy (city_fields a) with
         | Some first => names_city names = first
         | None => truthy (names_city names) = false
         end.
Proof.
  intros W handle lat lon w response data a Ha Hok Hj Haddr.
  destruct (reverseGeocode_run handle lat lon w) as (names & ws & Hrun & _ & Hn).
  rewrite Ha, Hok, Hj, Haddr in Hn. destruct Hn as [Hcity Hcountry].
  do 3 eexists. split; [exact Hrun|]. split; [exact Hcountry|].
  rewrite Hcity. unfold city_fields, or_else. cbn [find].
  destruct (truthy (addr_city a)) eqn:H1; [reflexivity|].
  destruct (truthy (addr_town a)) eqn:H2; [reflexivity|].
  destruct (truthy (addr_village a)) eqn:H3; [reflexivity|].
  destruct (truthy (addr_hamlet a)) eqn:H4; [reflexivity|].
  destruct (truthy (addr_municipality a)) eqn:H5; reflexivity.
Qed.

(** ** Concrete runs *)

Lemma gps_position_always_resolves_witness :
  exists loc w' tr,
    run (Samples.handle Scenarios.world_gps) (getBrowserLocation None) 5000
    = (Resolved loc, w', tr)
    /\ latitude loc = coords_latitude Scenarios.position_paris
    /\ source loc = gps.
Proof.
  destruct (gps_position_always_resolves Z (Samples.handle Scenarios.world_gps)
              None 5000 Scenarios.position_paris eq_refl eq_refl)
    as (loc & w' & tr & Hrun & Hlat & _ & Hsrc & _).
  exists loc, w', tr. split; [exact Hrun|]. split; [exact Hlat | exact Hsrc].
Defined.

Lemma gps_failure_is_typed_witness :
  count is_reverse_request
    (snd (run (Samples.handle Samples.world_ip) (getBrowserLocation None) 5000))
  = 0%nat.
Proof.
  refine (proj1 (gps_failure_is_typed Z (Samples.handle Samples.world_ip)
                   None 5000 _ _ _ _)).
  reflexivity.
Defined.

Lemma ip_failures_are_classified_witness :
  exists le,
    run (Samples.handle Scenarios.world_ip_limited) getIPLocation 5000
    = (Rejected (ThrownLocationError le), 5080, [Requested FetchIP])
    /\ type le = UNKNOWN_ERROR
    /\ error_message le = "IP geolocation request failed with status: 429".
Proof.
  destruct (ip_failures_are_classified Z
              (Samples.handle Scenarios.world_ip_limited) 5000)
    as (_ & Hstatus & _).
  eexists. split; [apply (Hstatus _ eq_refl eq_refl)|]. split; reflexivity.
Defined.

Lemma ip_success_requires_valid_answer_witness :
  exists response data,
    fst (Samples.handle Samples.world_ip _ FetchIP 5000) = Resolved response
    /\ ok response = true
    /\ json response = Resolved (Some data)
    /\ ip_status data = "success".
Proof.
  edestruct (ip_success_requires_valid_answer Z
               (Samples.handle Samples.world_ip) 5000)
    as (response & data & lat & lon & Hans & Hok & Hjson & Hstatus & _).
  - reflexivity.
  - exists response, data. auto.
Defined.

Lemma gps_success_stops_chain_witness :
  exists loc cache' w' tr,
    run (Samples.handle Scenarios.world_gps)
        (detectLocation DEFAULT_CONFIG None None) 5000
    = (Resolved loc, cache', w', tr)
    /\ source loc = gps
    /\ count is_ip_request tr = 0%nat.
Proof.
  edestruct (gps_success_stops_chain Z (Samples.handle Scenarios.world_gps)
               DEFAULT_CONFIG None None 5000 5000 [])
    as (cache' & w' & tr & Hrun & Hsrc & Hip & _).
  - apply check_empty. reflexivity.
  - reflexivity.
  - do 4 eexists. split; [exact Hrun|]. split; [exact Hsrc | exact Hip].
Defined.

Lemma one_name_lookup_per_resolution_witness :
  exists loc cache' w' tr,
    run (Samples.handle Samples.world_offline)
        (detectLocation DEFAULT_CONFIG None None) 5000
    = (Resolved loc, cache', w', tr)
    /\ count is_reverse_request tr = 1%nat.
Proof.
  destruct (one_name_lookup_per_resolution Z
              (Samples.handle Samples.world_offline) DEFAULT_CONFIG None None
              5000 5000 [] (check_empty _ None None 5000 eq_refl))
    as (loc & cache' & w' & tr & Hrun & Hrev & _).
  exists loc, cache', w', tr. split; [exact Hrun | exact Hrev].
Defined.


Lemma getCachedLocation_agrees_with_detectLocation_witness :
  run (Samples.handle Samples.world_offline)
      (detectLocation DEFAULT_CONFIG None (Some Samples.cached_entry)) 5000
  = (Resolved (location Samples.cached_entry), Some Samples.cached_entry, 5000,
     [Requested DateNow; Logged log "Using cached location"])
  /\ exists loc entry w' tr,
       run (Samples.handle Samples.world_ip)
           (detectLocation DEFAULT_CONFIG None (Some Samples.cached_entry))
           301000
       = (Resolved loc, Some entry, w',
          Requested DateNow :: Logged log "Attempting browser geolocation..."
          :: Requested Navigator :: tr)
       /\ location entry = loc
       /\ ttl entry = 300000.
Proof.
  split.
  - pose proof (getCachedLocation_agrees_with_detectLocation Z
                  (Samples.handle Samples.world_offline) DEFAULT_CONFIG None
                  (Some Samples.cached_entry) 5000 5000 5000 eq_refl eq_refl)
      as [H _].
    exact (proj2 H).
  - pose proof (getCachedLocation_agrees_with_detectLocation Z
                  (Samples.handle Samples.world_ip) DEFAULT_CONFIG None
                  (Some Samples.cached_entry) 301000 301000 301000
                  eq_refl eq_refl) as [H _].
    destruct (proj2 H) as (loc & w2 & tr & _ & Hrun).
    do 4 eexists. split; [exact Hrun|]. split; reflexivity.
Defined.

Lemma reverseGeocode_takes_first_name_witness :
  exists names w' tr,
    run (Samples.handle Scenarios.world_gps)
        (reverseGeocode (decimal false 488566 4) (decimal false 23522 4)) 5000
    = (Resolved names, w', tr)
    /\ names_city names = Some "Paris"
    /\ names_country names = Some "France".
Proof.
  destruct (reverseGeocode_takes_first_name Z
              (Samples.handle Scenarios.world_gps)
              (decimal false 488566 4) (decimal false 23522 4) 5000
              _ _ Scenarios.address_paris eq_refl eq_refl eq_refl eq_refl)
    as (names & w' & tr & Hrun & Hcountry & Hcity).
  exists names, w', tr. split; [exact Hrun|].
  split; [exact Hcity | exact Hcountry].
Defined.

End LocationMore.

(* ===================================================================== *)
(** * Facts about [fetchWeatherData]                                      *)
(* ===================================================================== *)

Module WeatherApiFacts.

Import JSNumber Env Async AsyncFacts WeatherApi LocationMore.
Local Open Scope string_scope.

Lemma weather_status_message_no_fetch (z : Z) :
  Location.includes ("Weather API request failed with status: "
                     ++ NilZero.string_of_int (Z.to_int z)) "fetch" = false.
Proof.
  unfold Location.includes. simpl.
  now rewrite (no_f_no_fetch _ (int_string_no_f z)).
Qed.

Lemma weather_status_message_has_status (z : Z) :
  Location.includes ("Weather API request failed with status: "
                     ++ NilZero.string_of_int (Z.to_int z)) "status" = true.
Proof. unfold Location.includes. simpl. reflexivity. Qed.

Section Schema.
Context {Payload WeatherResponse ZodError : Type}.
Context (parse : Payload -> ZodError + WeatherResponse).
Context {W : Type}.
Context (handle : forall X : Type,
            @request Payload ZodError X -> W -> X * W).

(** How a run of [fetchWeatherData] can go. *)
Lemma fetchWeatherData_cases fahrenheit lat lon signal w :
  let q := FetchWeather lat lon fahrenheit signal in
  let answer := fst (handle _ q w) in
  let w1 := snd (handle _ q w) in
  let rejected e :=
    run handle (fetchWeatherData parse fahrenheit lat lon signal) w
    = (Rejected (ThrownWeatherError (weatherError e)), w1, [Requested q]) in
  match answer with
  | Rejected e => rejected e
  | Resolved response =>
      if ok response then
        match json response with
        | Rejected e => rejected e
        | Resolved data =>
            match parse data with
            | inr validatedData =>
                run handle (fetchWeatherData parse fahrenheit lat lon signal) w
                = (Resolved validatedData, w1, [Requested q])
            | inl z => rejected (ThrownZod z)
            end
        end
      else
        rejected (ThrownError
                    (Location.Error
                       ("Weather API request failed with status: "
                        ++ NilZero.string_of_int (Z.to_int (status response)))))
  end.
Proof.
  cbv zeta. unfold fetchWeatherData. rewrite run_try_catch, run_await.
  unfold perform, throw, resolve. cbn [run bind].
  destruct (handle _ (FetchWeather lat lon fahrenheit signal) w)
    as [[response|e] w1]; cbn [run bind fst snd]; [|reflexivity].
  destruct (ok response); cbn [negb run bind]; [|reflexivity].
  rewrite run_await. cbn [run bind].
  destruct (json response) as [data|e]; cbn [run bind]; [|reflexivity].
  destruct (parse data); reflexivity.
Qed.

End Schema.

(** X17. [fetchWeatherData] makes one request and settles as follows,
    whatever the schema.  It resolves only when the response is 2xx,
    its body parses and passes the schema, and whenever that is so it
    does resolve, with the validated data.  It rejects with a
    [WeatherError] only: [API_ERROR] with the status in the message for
    every response that is not 2xx, [VALIDATION_ERROR] when the schema
    refuses the body, [TIMEOUT] when the request was aborted. *)
Theorem weather_failures_are_classified :
  forall (Payload WeatherResponse ZodError : Type)
         (parse : Payload -> ZodError + WeatherResponse)
         (W : Type)
         (handle : forall X : Type, @request Payload ZodError X -> W -> X * W)
         (fahrenheit : bool) (lat lon : number) (signal : bool) (w : W),
    let q := FetchWeather lat lon fahrenheit signal in
    let answer := fst (handle _ q w) in
    let w1 := snd (handle _ q w) in
    let result := run handle (fetchWeatherData parse fahrenheit lat lon signal) w in
    (exists r, result = (r, w1, [Requested q])
               /\ match r with
                  | Resolved v =>
                      exists response data,
                        answer = Resolved response /\ ok response = true
                        /\ json response = Resolved data
                        /\ parse data = inr v
                  | Rejected e => exists we, e = ThrownWeatherError we
                  end)
    /\ (forall response,
          answer = Resolved response -> ok response = false ->
          let msg := "Weather API request failed with status: "
                     ++ NilZero.string_of_int (Z.to_int (status response)) in
          result
          = (Rejected (ThrownWeatherError
                         {| type := API_ERROR;
                            error_message := msg;
                            originalError := Some (OfError (Location.Error msg)) |}),
             w1, [Requested q]))
    /\ (forall response data z,
          answer = Resolved response -> ok response = true ->
          json response = Resolved data -> parse data = inl z ->
          result
          = (Rejected (ThrownWeatherError
                         {| type := VALIDATION_ERROR;
                            error_message := "Invalid weather data received from API";
                            originalError := Some (OfZod z) |}),
             w1, [Requested q]))
    /\ (forall e,
          answer = Rejected (ThrownError e) -> name e = "AbortError" ->
          result
          = (Rejected (ThrownWeatherError
                         {| type := TIMEOUT;
                            error_message := "Weather API request timed out";
                            originalError := Some (OfError e) |}),
             w1, [Requested q]))
    /\ (forall response data v,
          answer = Resolved response -> ok response = true ->
          json response = Resolved data -> parse data = inr v ->
          result = (Resolved v, w1, [Requested q])).
Proof.
  intros Payload WeatherResponse ZodError parse W handle fahrenheit lat lon
         signal w. cbv zeta.
  pose proof (fetchWeatherData_cases parse handle fahrenheit lat lon signal w)
    as Hc. cbv zeta in Hc.
  split; [|split; [|split; [|split]]].
  - destruct (fst (handle _ (FetchWeather lat lon fahrenheit signal) w))
      as [response|e0]; [|eexists; split; [exact Hc|]; simpl; eauto].
    destruct (ok response) eqn:Hok; [|eexists; split; [exact Hc|]; simpl; eauto].
    destruct (json response) as [data|e0] eqn:Hj;
      [|eexists; split; [exact Hc|]; simpl; eauto].
    destruct (parse data) as [z|v] eqn:Hp;
      eexists; (split; [exact Hc|]); simpl; eauto.
    exists response, data. auto.
  - intros response Ha Hok. rewrite Ha, Hok in Hc. rewrite Hc.
    unfold weatherError, Location.Error. cbn [name message].
    rewrite weather_status_message_no_fetch, weather_status_message_has_status.
    reflexivity.
  - intros response data z Ha Hok Hj Hp. rewrite Ha, Hok, Hj, Hp in Hc.
    exact Hc.
  - intros e Ha Hname. rewrite Ha in Hc. rewrite Hc.
    unfold weatherError. rewrite Hname. reflexivity.
  - intros response data v Ha Hok Hj Hp. rewrite Ha, Hok, Hj, Hp in Hc.
    exact Hc.
Qed.

(** ** Concrete runs *)

Lemma weather_failures_are_classified_witness :
  (exists we,
      run (Scenarios.api_handle Scenarios.bad_gateway)
          (fetchWeatherData Scenarios.days_schema false
             (decimal false 488566 4) (decimal false 23522 4) false) 0
      = (Rejected (ThrownWeatherError we), 300,
         [Requested (FetchWeather (decimal false 488566 4)
                       (decimal false 23522 4) false false)])
      /\ type we = API_ERROR
      /\ error_message we = "Weather API request failed with status: 502")
  /\ (exists we,
         run (Scenarios.api_handle Scenarios.three_days)
             (fetchWeatherData Scenarios.days_schema false
                (decimal false 488566 4) (decimal false 23522 4) false) 0
         = (Rejected (ThrownWeatherError we), 300,
            [Requested (FetchWeather (decimal false 488566 4)
                          (decimal false 23522 4) false false)])
         /\ type we = VALIDATION_ERROR)
  /\ run (Scenarios.api_handle Scenarios.five_days)
         (fetchWeatherData Scenarios.days_schema false
            (decimal false 488566 4) (decimal false 23522 4) false) 0
     = (Resolved 5, 300,
        [Requested (FetchWeather (decimal false 488566 4)
                      (decimal false 23522 4) false false)]).
Proof.
  split; [|split].
  - destruct (weather_failures_are_classified Z Z string Scenarios.days_schema
                Z (Scenarios.api_handle Scenarios.bad_gateway) false
                (decimal false 488566 4) (decimal false 23522 4) false 0)
      as (_ & Hstatus & _).
    eexists. split; [apply (Hstatus _ eq_refl eq_refl)|]. split; reflexivity.
  - destruct (weather_failures_are_classified Z Z string Scenarios.days_schema
                Z (Scenarios.api_handle Scenarios.three_days) false
                (decimal false 488566 4) (decimal false 23522 4) false 0)
      as (_ & _ & Hschema & _).
    eexists. split; [apply (Hschema _ _ _ eq_refl eq_refl eq_refl eq_refl)|].
    reflexivity.
  - destruct (weather_failures_are_classified Z Z string Scenarios.days_schema
                Z (Scenarios.api_handle Scenarios.five_days) false
                (decimal false 488566 4) (decimal false 23522 4) false 0)
      as (_ & _ & _ & _ & Hok).
    apply (Hok _ _ _ eq_refl eq_refl eq_refl eq_refl).
Defined.

End WeatherApiFacts.

(* ===================================================================== *)
(** * Facts about the route handlers                                      *)
(* ===================================================================== *)

Module RouteFacts.

Import JSNumber Weather Env Async AsyncFacts JSMapFacts CacheInv CacheFacts
       CacheMore Route.
Local Open Scope string_scope.

Section World.
Context {W : Type} (handle : forall X : Type, request X -> W -> X * W).

Lemma run_cache_get_hit config location s w entry now w1 :
  Cache.isEnabled config = true ->
  JSMap.get (key_of (coordinates location)) (Cache.cache (weatherCache s))
  = Some entry ->
  handle _ DateNow w = (now, w1) ->
  (now <= Cache.expiresAt entry)%Z ->
  run handle (cache_get config location s) w
  = (Some (next (heap s)),
     with_weather s
       (snd (alloc (heap s)
               (with_source (deref (heap s) (Cache.data entry)) src_cache)))
       (Cache.with_cache (weatherCache s)
          (JSMap.set (key_of (coordinates location)) entry
             (JSMap.delete (key_of (coordinates location))
                (Cache.cache (weatherCache s))))),
     w1, [Requested DateNow]).
Proof.
  intros He Hg Hnow Hx. unfold cache_get, perform. rewrite He.
  unfold JSMap.has. rewrite Hg. cbn [andb run bind]. rewrite Hnow.
  destruct (get_cases config now (coordinates location) (heap s) (weatherCache s))
    as [[_ [Hd|Hn]]|[(e' & _ & Hg' & Hx' & _)|(e' & _ & Hg' & _ & Heq)]];
    try congruence;
    try (exfalso; rewrite Hg in Hg'; injection Hg' as <-; lia).
  rewrite Hg in Hg'. injection Hg' as <-. rewrite Heq. reflexivity.
Qed.

Lemma run_cache_get_absent config location s w :
  Cache.isEnabled config = false
  \/ JSMap.get (key_of (coordinates location)) (Cache.cache (weatherCache s))
     = None ->
  run handle (cache_get config location s) w = (None, s, w, []).
Proof.
  intros H. unfold cache_get, JSMap.has.
  destruct H as [-> | ->]; [reflexivity|].
  now rewrite Bool.andb_false_r.
Qed.


Lemma run_GET_hit config query s w entry now w1 :
  Cache.isEnabled config = true ->
  JSMap.get (key_of_query query) (Cache.cache (weatherCache s)) = Some entry ->
  handle _ DateNow w = (now, w1) ->
  (now <= Cache.expiresAt entry)%Z ->
  run handle (GET config (Resolved query) s) w
  = (json (WeatherBody (next (heap s)) true),
     with_weather s
       (snd (alloc (heap s)
               (with_source (deref (heap s) (Cache.data entry)) src_cache)))
       (Cache.with_cache (weatherCache s)
          (JSMap.set (key_of_query query) entry
             (JSMap.delete (key_of_query query)
                (Cache.cache (weatherCache s))))),
     w1, [Requested DateNow]).
Proof.
  intros He Hg Hnow Hx. unfold GET. rewrite run_bind.
  rewrite (run_cache_get_hit config (location_of query) s w entry now w1
             He Hg Hnow Hx).
  reflexivity.
Qed.


Lemma run_GET_upstream_failure config query s w e w1 :
  Cache.isEnabled config = false
  \/ JSMap.get (key_of_query query) (Cache.cache (weatherCache s)) = None ->
  handle _ (GetWeatherData (location_of query)) w = (Rejected e, w1) ->
  run handle (GET config (Resolved query) s) w
  = let '(response, w', tr) := run handle (GET_error e) w1 in
    (response, s, w', Requested (GetWeatherData (location_of query)) :: tr).
Proof.
  intros Hmiss Hup. unfold GET. rewrite run_bind.
  rewrite (run_cache_get_absent config (location_of query) s w Hmiss).
  unfold perform. cbn [run bind app]. rewrite Hup. rewrite run_bind.
  destruct (run handle (GET_error e) w1) as [[response w'] tr].
  cbn [run]. now rewrite app_nil_r.
Qed.

Lemma run_GET_error e w :
  exists response w' tr,
    run handle (GET_error e) w = (response, w', tr)
    /\ count_upstream tr = 0%nat
    /\ http_status response
       = match e with
         | ThrownZod _ => 400
         | ThrownTyped _ _ => 503
         | ThrownValue => 500
         end%Z
    /\ (forall data cached, body response <> WeatherBody data cached).
Proof.
  destruct e as [issues|message type|]; unfold GET_error, perform;
    cbn [run bind].
  - do 3 eexists. split; [reflexivity|]. repeat split. discriminate.
  - do 3 eexists. split; [reflexivity|]. repeat split. discriminate.
  - destruct (handle _ (ConsoleError "Weather API error:") w) as [[] w'].
    do 3 eexists. split; [reflexivity|]. repeat split. discriminate.
Qed.

Lemma run_cache_get_expired config location s w entry now w1 :
  Cache.isEnabled config = true ->
  JSMap.get (key_of (coordinates location)) (Cache.cache (weatherCache s))
  = Some entry ->
  handle _ DateNow w = (now, w1) ->
  (Cache.expiresAt entry < now)%Z ->
  run handle (cache_get config location s) w
  = (None,
     with_weather s (heap s)
       (Cache.with_cache (weatherCache s)
          (JSMap.delete (key_of (coordinates location))
             (Cache.cache (weatherCache s)))),
     w1, [Requested DateNow]).
Proof.
  intros He Hg Hnow Hx. unfold cache_get, perform. rewrite He.
  unfold JSMap.has. rewrite Hg. cbn [andb run bind]. rewrite Hnow.
  destruct (get_cases config now (coordinates location) (heap s) (weatherCache s))
    as [[_ [Hd|Hn]]|[(e' & _ & Hg' & Hx' & Heq)|(e' & _ & Hg' & Hx' & _)]];
    try congruence;
    try (exfalso; rewrite Hg in Hg'; injection Hg' as <-; lia).
  rewrite Heq. reflexivity.
Qed.

(** A request that passes the lookup without a hit and ends without
    [success] has called the weather service once, and the server is as
    the lookup left it. *)
Lemma GET_failure_after_lookup config query s w s1 w0 pre response s' w' tr :
  run handle (cache_get config (location_of query) s) w = (None, s1, w0, pre) ->
  count_upstream pre = 0%nat ->
  run handle (GET config (Resolved query) s) w = (response, s', w', tr) ->
  success (body response) = false ->
  s' = s1 /\ count_upstream tr = 1%nat.
Proof.
  intros Hlook Hpre. unfold GET. rewrite run_bind, Hlook.
  unfold perform. cbn [run bind].
  destruct (handle _ (GetWeatherData (location_of query)) w0) as [[d|e] w1].
  - cbn [alloc]. rewrite run_bind.
    destruct (run handle (cache_set _ _ _ _) w1) as [[s2 w2] t2].
    cbn [run]. intros [= <- <- <- <-]. discriminate.
  - rewrite run_bind.
    destruct (run_GET_error e w1)
      as (r & w2 & t2 & Hrun & Hcount & _).
    rewrite Hrun. cbn [run]. intros [= <- <- <- <-] _.
    split; [reflexivity|].
    unfold count_upstream in *.
    rewrite filter_app, length_app, Hpre. cbn [filter is_upstream_call].
    cbn [List.length]. rewrite filter_app, length_app, Hcount. reflexivity.
Qed.

End World.

(** X18. A request whose rounded coordinates have an entry that has not
    expired is answered from the cache (caching enabled): status 200,
    [cached: true], the data a new copy of the stored payload marked
    [cache]; the handler reads the clock and makes no call to the
    weather service, and the entry stays.  The handler has no way
    around the cache: nothing in the query changes this. *)
Theorem cached_request_skips_upstream :
  forall (W : Type) (handle : forall X : Type, request X -> W -> X * W)
         (config : Config) (query : Query) (s : Server) (w : W)
         (entry : Cache.CacheEntry) (now : Z) (w1 : W),
    Cache.isEnabled config = true ->
    JSMap.get (key_of_query query) (Cache.cache (weatherCache s)) = Some entry ->
    handle _ DateNow w = (now, w1) ->
    (now <= Cache.expiresAt entry)%Z ->
    exists r s',
      run handle (GET config (Resolved query) s) w
      = (json (WeatherBody r true), s', w1, [Requested DateNow])
      /\ ~ allocated (heap s) r
      /\ deref (heap s') r
         = with_source (deref (heap s) (Cache.data entry)) src_cache
      /\ JSMap.get (key_of_query query) (Cache.cache (weatherCache s'))
         = Some entry
      /\ locationCache s' = locationCache s.
Proof.
  intros W handle config query s w entry now w1 He Hg Hnow Hx.
  rewrite (run_GET_hit handle config query s w entry now w1 He Hg Hnow Hx).
  do 2 eexists. split; [reflexivity|].
  destruct (alloc_fresh (heap s)
              (with_source (deref (heap s) (Cache.data entry)) src_cache))
    as (Hfresh & _ & Hd & _).
  split; [exact Hfresh|]. split; [exact Hd|].
  split; [apply get_move_to_end | reflexivity].
Qed.


(** X20. A request that fails never adds or replaces an entry.  When
    the query does not parse, the weather service is not called and the
    server is left as it was; when the coordinates have no entry (or
    caching is disabled) and the service rejects, the server is left as
    it was too.  In general, after every request for a parsed query
    that ends without [success], the service was called once, the
    object store and the location slot are as before, and every key has
    the entry it had, with one exception: the query's own key has lost
    its entry when that entry had expired, because the lookup deletes
    it before the service is called.  The status is 400 for a
    [ZodError], 503 for an error object with a [type], 500 for anything
    else. *)
Theorem failed_request_stores_nothing :
  forall (W : Type) (handle : forall X : Type, request X -> W -> X * W)
         (config : Config) (s : Server) (w : W) (e : thrown),
    let status :=
      match e with
      | ThrownZod _ => 400
      | ThrownTyped _ _ => 503
      | ThrownValue => 500
      end%Z in
    (exists response w' tr,
        run handle (GET config (Rejected e) s) w = (response, s, w', tr)
        /\ count_upstream tr = 0%nat
        /\ http_status response = status
        /\ (forall data cached, body response <> WeatherBody data cached))
    /\ (forall query w1,
          Cache.isEnabled config = false
          \/ JSMap.get (key_of_query query) (Cache.cache (weatherCache s))
             = None ->
          handle _ (GetWeatherData (location_of query)) w = (Rejected e, w1) ->
          exists response w' tr,
            run handle (GET config (Resolved query) s) w = (response, s, w', tr)
            /\ count_upstream tr = 1%nat
            /\ http_status response = status
            /\ (forall data cached, body response <> WeatherBody data cached))
    /\ (forall query response s' w' tr,
          run handle (GET config (Resolved query) s) w = (response, s', w', tr) ->
          success (body response) = false ->
          count_upstream tr = 1%nat
          /\ heap s' = heap s
          /\ locationCache s' = locationCache s
          /\ Cache.maxEntries (weatherCache s') = Cache.maxEntries (weatherCache s)
          /\ Cache.ttl (weatherCache s') = Cache.ttl (weatherCache s)
          /\ (forall k,
                JSMap.get k (Cache.cache (weatherCache s'))
                = JSMap.get k (Cache.cache (weatherCache s))
                \/ (k = key_of_query query
                    /\ JSMap.get k (Cache.cache (weatherCache s')) = None
                    /\ exists entry,
                         JSMap.get k (Cache.cache (weatherCache s)) = Some entry
                         /\ (Cache.expiresAt entry < fst (handle _ DateNow w))%Z))).
Proof.
  intros W handle config s w e. cbv zeta. split; [|split].
  - destruct (run_GET_error handle e w)
      as (response & w' & tr & Hrun & Hcount & Hstatus & Hbody).
    exists response, w', tr. split; [|auto].
    unfold GET. rewrite run_bind, Hrun. cbn [run]. now rewrite app_nil_r.
  - intros query w1 Hmiss Hup.
    rewrite (run_GET_upstream_failure handle config query s w e w1 Hmiss Hup).
    destruct (run_GET_error handle e w1)
      as (response & w' & tr & Hrun & Hcount & Hstatus & Hbody).
    rewrite Hrun. do 3 eexists. split; [reflexivity|].
    split; [|auto]. unfold count_upstream in *. simpl. now rewrite Hcount.
  - intros query response s' w' tr Hrun Hfail.
    assert (Hmiss :
              Cache.isEnabled config = false
              \/ JSMap.get (key_of_query query) (Cache.cache (weatherCache s))
                 = None ->
              count_upstream tr = 1%nat /\ s' = s).
    { intros Hmiss.
      destruct (GET_failure_after_lookup handle config query s w s w []
                  response s' w' tr
                  (run_cache_get_absent handle config (location_of query) s w
                     Hmiss)
                  eq_refl Hrun Hfail) as [-> Hcount].
      auto. }
    destruct (Cache.isEnabled config) eqn:He;
      [|destruct Hmiss as [Hcount ->]; [now left|]; repeat split; auto].
    destruct (JSMap.get (key_of_query query) (Cache.cache (weatherCache s)))
      as [entry|] eqn:Hg;
      [|destruct Hmiss as [Hcount ->]; [now right|]; repeat split; auto].
    clear Hmiss.
    destruct (handle _ DateNow w) as [now w1] eqn:Hnow. cbn [fst].
    destruct (Z_lt_le_dec (Cache.expiresAt entry) now) as [Hx|Hx].
    + destruct (GET_failure_after_lookup handle config query s w _ w1
                  [Requested DateNow] response s' w' tr
                  (run_cache_get_expired handle config (location_of query) s w
                     entry now w1 He Hg Hnow Hx)
                  eq_refl Hrun Hfail) as [-> Hcount].
      split; [exact Hcount|]. repeat split.
      intros k. cbn [weatherCache with_weather Cache.cache Cache.with_cache].
      fold (key_of_query query).
      destruct (String.eqb_spec k (key_of_query query)) as [->|Hne].
      * right. split; [reflexivity|]. split; [apply get_delete_same|].
        exists entry. split; [exact Hg | exact Hx].
      * left. now apply get_delete_other.
    + rewrite (run_GET_hit handle config query s w entry now w1 He Hg Hnow Hx)
        in Hrun.
      injection Hrun as <- _ _ _. discriminate.
Qed.

(** X21. After the clear-cache handler the weather cache holds no entry
    (its capacity and TTL are kept) and the location slot is empty: at
    every time and for every location [has] answers false, [get] answers
    null and [getCachedLocation] answers null; the response is 200 and
    carries the clock reading. *)
Theorem clear_cache_empties_both_caches :
  forall (W : Type) (handle : forall X : Type, request X -> W -> X * W)
         (s : Server) (w : W),
    exists s',
      run handle (POST s) w
      = (json (ClearedBody "All server caches cleared successfully"
                 (fst (handle _ DateNow w))),
         s', snd (handle _ DateNow w),
         [Logged log "Server caches cleared successfully"; Requested DateNow])
      /\ Cache.size (weatherCache s') = 0%Z
      /\ Cache.maxEntries (weatherCache s') = Cache.maxEntries (weatherCache s)
      /\ Cache.ttl (weatherCache s') = Cache.ttl (weatherCache s)
      /\ heap s' = heap s
      /\ (forall config now loc h,
            Cache.has now loc (weatherCache s') = (false, weatherCache s')
            /\ Cache.get config now loc h (weatherCache s')
               = (None, h, weatherCache s'))
      /\ (forall now,
            Location.getCachedLocation now (locationCache s') = (None, None)).
Proof.
  intros W handle s w. unfold POST, perform. cbn [run bind].
  destruct (handle _ DateNow w) as [now w1]. eexists.
  split; [reflexivity|]. repeat split.
  unfold Cache.get. now destruct (negb (Cache.isEnabled config)).
Qed.

(** ** Concrete runs *)

Lemma cached_request_skips_upstream_witness :
  exists r s',
    run (Scenarios.route_handle (Rejected Scenarios.service_down))
        (GET DEFAULT_CONFIG (Resolved Scenarios.query_paris_precise)
           Scenarios.server_paris) 5
    = (json (WeatherBody r true), s', 5, [Requested DateNow])
    /\ source (deref (heap s') r) = src_cache.
Proof.
  destruct (cached_request_skips_upstream Z
              (Scenarios.route_handle (Rejected Scenarios.service_down))
              DEFAULT_CONFIG Scenarios.query_paris_precise
              Scenarios.server_paris 5 Samples.entry_paris 5 5)
    as (r & s' & Hrun & _ & Hd & _).
  - reflexivity.
  - vm_compute. reflexivity.
  - reflexivity.
  - simpl. lia.
  - exists r, s'. split; [exact Hrun|]. now rewrite Hd.
Defined.


Lemma failed_request_stores_nothing_witness :
  (exists response w' tr,
      run (Scenarios.route_handle (Rejected Scenarios.service_down))
          (GET DEFAULT_CONFIG (Resolved Scenarios.query_paris)
             Scenarios.server_empty) 1000
      = (response, Scenarios.server_empty, w', tr)
      /\ http_status response = 503)
  /\ (let '(response, s', _, tr) :=
        run (Scenarios.route_handle (Rejected Scenarios.service_down))
            (GET DEFAULT_CONFIG (Resolved Scenarios.query_paris)
               Scenarios.server_paris) 700000 in
      http_status response = 503
      /\ Cache.size (weatherCache Scenarios.server_paris) = 1
      /\ Cache.size (weatherCache s') = 0
      /\ count_upstream tr = 1%nat
      /\ heap s' = heap Scenarios.server_paris).
Proof.
  split.
  - destruct (failed_request_stores_nothing Z
                (Scenarios.route_handle (Rejected Scenarios.service_down))
                DEFAULT_CONFIG Scenarios.server_empty 1000
                Scenarios.service_down) as (_ & Hup & _).
    destruct (Hup Scenarios.query_paris 1200)
      as (response & w' & tr & Hrun & _ & Hstatus & _).
    + right. reflexivity.
    + reflexivity.
    + now exists response, w', tr.
  - destruct (failed_request_stores_nothing Z
                (Scenarios.route_handle (Rejected Scenarios.service_down))
                DEFAULT_CONFIG Scenarios.server_paris 700000
                Scenarios.service_down) as (_ & _ & Hany).
    destruct (run (Scenarios.route_handle (Rejected Scenarios.service_down))
                (GET DEFAULT_CONFIG (Resolved Scenarios.query_paris)
                   Scenarios.server_paris) 700000)
      as [[[response s'] w'] tr] eqn:Hrun.
    assert (Hfail : success (body response) = false).
    { apply (f_equal (fun x => success (body (fst (fst (fst x)))))) in Hrun.
      vm_compute in Hrun. symmetry. exact Hrun. }
    destruct (Hany Scenarios.query_paris response s' w' tr Hrun Hfail)
      as (Hcount & Hheap & _).
    split; [|split; [|split; [|split]]];
      [ | reflexivity | | exact Hcount | exact Hheap].
    + apply (f_equal (fun x => http_status (fst (fst (fst x))))) in Hrun.
      vm_compute in Hrun. symmetry. exact Hrun.
    + apply (f_equal (fun x => Cache.size (weatherCache (snd (fst (fst x))))))
        in Hrun.
      vm_compute in Hrun. symmetry. exact Hrun.
Defined.

End RouteFacts.

(* ===================================================================== *)
(** * Facts about the permission check                                    *)
(* ===================================================================== *)

Module PermissionFacts.

Import Async AsyncFacts Permission.
Local Open Scope string_scope.

(** X22. [checkPermissionState] rejects in one case only: the global
    [navigator] is not declared, and the rejection is the
    [ReferenceError] of the test before the [try] block.  In every other
    case it resolves: with the browser's state when the permissions API
    is there and the query resolves, and with [unsupported] when the API
    is missing (no query is made) or the query fails. *)
Theorem checkPermissionState_settles :
  forall (W : Type) (handle : forall X : Type, request X -> W -> X * W) (w : W),
    let nav := fst (handle _ Navigator w) in
    let w1 := snd (handle _ Navigator w) in
    exists r w' tr,
      run handle checkPermissionState w = (r, w', tr)
      /\ (List.length (filter is_query tr) <= 1)%nat
      /\ match nav with
         | navigator_undeclared =>
             r = Rejected (Location.ThrownError
                             (Location.undeclared_error "navigator"))
             /\ w' = w1 /\ tr = [Requested Navigator]
         | permissions_missing =>
             r = Resolved unsupported /\ w' = w1
             /\ tr = [Requested Navigator;
                      Logged warn "Permissions API not supported"]
         | permissions_present =>
             match fst (handle _ PermissionsQuery w1) with
             | Resolved state => r = Resolved (as_permission state)
             | Rejected _ => r = Resolved unsupported
             end
             /\ In (Requested PermissionsQuery) tr
         end.
Proof.
  intros W handle w. cbv zeta.
  unfold checkPermissionState, perform, console. cbn [run bind].
  destruct (handle _ Navigator w) as [nav w1]. cbn [fst snd].
  destruct nav.
  - do 3 eexists. split; [reflexivity|]. split; [simpl; lia|]. auto.
  - do 3 eexists. split; [reflexivity|]. split; [simpl; lia|]. auto.
  - unfold try_catch, await, resolve. cbn [run bind].
    destruct (handle _ PermissionsQuery w1) as [[state|e] w2]; cbn [run bind fst].
    + do 3 eexists. split; [reflexivity|]. split; [simpl; lia|].
      split; [reflexivity | simpl; auto].
    + destruct (handle _ (ConsoleError "Error checking geolocation permission:")
                  w2) as [[] w3].
      do 3 eexists. split; [reflexivity|]. split; [simpl; lia|].
      split; [reflexivity | simpl; auto].
Qed.

End PermissionFacts.
